(** * DependencyTreeRNN: the vocabulary and its word classes

    A shallow embedding of [DependencyTreeRNN++/Vocabulary.cpp]: the
    vocabulary vector with its two inverse maps, the frequency sort,
    the class file reader, the two class assignment strategies and
    the textual save / load of the vocabulary. *)

From Stdlib Require Import ZArith Lia PrimFloat Uint63 Ascii String.
From Stdlib Require Import Decimal DecimalString DecimalZ.
From stdpp Require Import gmap strings list fin_maps sorting.

#[local] Set Warnings "-clear-no-such-hyp".
Local Open Scope Z_scope.

(** ** Machine integers and the results of a call *)

Module Int.
(** [int] is a 32-bit two's complement integer. *)
Definition INT_MIN : Z := -2147483648.
Definition INT_MAX : Z := 2147483647.

Definition in_range (z : Z) : Prop := INT_MIN ≤ z ≤ INT_MAX.

(** Wrap-around of an arithmetic result to 32 bits. *)
Definition wrap (z : Z) : Z := (z + 2147483648) mod 4294967296 - 2147483648.

(** [(double) z] for an [int] z. *)
Definition to_double (z : Z) : float :=
  if z <? 0 then PrimFloat.opp (PrimFloat.of_uint63 (Uint63.of_Z (- z)))
  else PrimFloat.of_uint63 (Uint63.of_Z z).
End Int.

(** What a call does: it returns, it stops on a failed [assert], or it
    leaves what the language defines (an index outside a vector, a read
    of a variable that was never written, a vector resized to a negative
    size). *)
Inductive outcome (A : Type) : Type :=
  | Returns (a : A)
  | AssertionFailure
  | Undefined.
Arguments Returns {A} a.
Arguments AssertionFailure {A}.
Arguments Undefined {A}.

#[global] Instance outcome_ret : MRet outcome := λ A a, Returns a.
#[global] Instance outcome_bind : MBind outcome := λ A B k o,
  match o with
  | Returns a => k a
  | AssertionFailure => AssertionFailure
  | Undefined => Undefined
  end.

(** [v[i]] on a [std::vector] with an [int] index. *)
Definition vec_get {A} (l : list A) (i : Z) : option A :=
  if 0 <=? i then l !! Z.to_nat i else None.

Definition vec_size {A} (l : list A) : Z := Z.of_nat (length l).

(** ** The data model *)

(** Modelled from the spec: the declaration of [VocabWord] is in
    Vocabulary.h, which is not among the sources.  The fields are those
    that Vocabulary.cpp reads and writes (the entry of the spec: word,
    count, class index, probability). *)
Record VocabWord : Type := mkVocabWord {
  word : string;
  prob : float;
  cn : Z;
  classIndex : Z
}.

Definition set_cn (w : VocabWord) (c : Z) : VocabWord :=
  mkVocabWord (word w) (prob w) c (classIndex w).
Definition set_class (w : VocabWord) (c : Z) : VocabWord :=
  mkVocabWord (word w) (prob w) (cn w) c.
Definition set_prob (w : VocabWord) (p : float) : VocabWord :=
  mkVocabWord (word w) p (cn w) (classIndex w).

(** Modelled from the spec: the class [Vocabulary] is declared in
    Vocabulary.h, which is not among the sources.  The members are
    those that Vocabulary.cpp uses: the vector of entries, the two
    inverse maps, the classes read from a class file, the words of each
    class, the number of classes and the flag of the class file. *)
Record Vocabulary : Type := mkVocabulary {
  m_vocabularyStorage : list VocabWord;
  m_mapWord2Index : gmap string Z;
  m_mapIndex2Word : gmap Z string;
  m_mapWord2Class : gmap string Z;
  m_classes : gset Z;
  m_classWords : list (list Z);
  m_numClasses : Z;
  m_useClassFile : bool
}.

Definition set_storage (v : Vocabulary) (s : list VocabWord) : Vocabulary :=
  mkVocabulary s (m_mapWord2Index v) (m_mapIndex2Word v) (m_mapWord2Class v)
    (m_classes v) (m_classWords v) (m_numClasses v) (m_useClassFile v).
Definition set_index_maps (v : Vocabulary)
    (w2i : gmap string Z) (i2w : gmap Z string) : Vocabulary :=
  mkVocabulary (m_vocabularyStorage v) w2i i2w (m_mapWord2Class v)
    (m_classes v) (m_classWords v) (m_numClasses v) (m_useClassFile v).
Definition set_class_maps (v : Vocabulary)
    (w2c : gmap string Z) (cs : gset Z) : Vocabulary :=
  mkVocabulary (m_vocabularyStorage v) (m_mapWord2Index v) (m_mapIndex2Word v)
    w2c cs (m_classWords v) (m_numClasses v) (m_useClassFile v).
Definition set_classWords (v : Vocabulary) (cw : list (list Z)) : Vocabulary :=
  mkVocabulary (m_vocabularyStorage v) (m_mapWord2Index v) (m_mapIndex2Word v)
    (m_mapWord2Class v) (m_classes v) cw (m_numClasses v) (m_useClassFile v).

(** A vocabulary with no word, as the training code starts from. *)
Definition empty_vocabulary (numClasses : Z) (useClassFile : bool) : Vocabulary :=
  mkVocabulary [] ∅ ∅ ∅ ∅ [] numClasses useClassFile.

(** Modelled from the spec: [GetVocabularySize] is declared in
    Vocabulary.h; it is the number of entries. *)
Definition GetVocabularySize (v : Vocabulary) : Z :=
  vec_size (m_vocabularyStorage v).

Definition EOS : string := "</s>".
Definition BOS : string := "<s>".

(** ** Lookup and insertion *)

(** [Vocabulary::SearchWordInVocabulary] *)
Definition SearchWordInVocabulary (v : Vocabulary) (w : string) : Z :=
  match m_mapWord2Index v !! w with
  | None => -1
  | Some i => i
  end.

(** [Vocabulary::AddWordToVocabulary].  The class index of a new entry
    is the 0 of [VocabWord()]. *)
Definition AddWordToVocabulary (v : Vocabulary) (w : string)
    : outcome (Vocabulary * Z) :=
  let index := SearchWordInVocabulary v w in
  if index =? -1 then
    let e := mkVocabWord w 0%float 1 0 in
    let index := vec_size (m_vocabularyStorage v) in
    let v1 := set_storage v (m_vocabularyStorage v ++ [e]) in
    Returns (set_index_maps v1 (<[w := index]> (m_mapWord2Index v))
                               (<[index := w]> (m_mapIndex2Word v)), index)
  else
    match vec_get (m_vocabularyStorage v) index with
    | None => Undefined
    | Some e =>
        Returns (set_storage v (<[Z.to_nat index := set_cn e (Int.wrap (cn e + 1))]>
                                  (m_vocabularyStorage v)), index)
    end.

(** [Vocabulary::SetWordCount] *)
Definition SetWordCount (v : Vocabulary) (w : string) (count : Z)
    : outcome (Vocabulary * bool) :=
  let index := SearchWordInVocabulary v w in
  if -1 <? index then
    match vec_get (m_vocabularyStorage v) index with
    | None => Undefined
    | Some e =>
        Returns (set_storage v (<[Z.to_nat index := set_cn e count]>
                                  (m_vocabularyStorage v)), true)
    end
  else Returns (v, false).

(** Feeding a token stream to [AddWordToVocabulary], as vocabulary
    learning does. *)
Fixpoint add_words (v : Vocabulary) (ws : list string) : outcome Vocabulary :=
  match ws with
  | [] => Returns v
  | w :: ws' => r ← AddWordToVocabulary v w; add_words (fst r) ws'
  end.

(** ** Sorting by frequency *)

(** [OrderWordCounts] *)
Definition OrderWordCounts (a b : VocabWord) : bool := cn b <? cn a.

(** The loop that rebuilds the two maps from the vector. *)
Fixpoint rebuild_maps (l : list VocabWord) (index : Z)
    (w2i : gmap string Z) (i2w : gmap Z string)
    : gmap string Z * gmap Z string :=
  match l with
  | [] => (w2i, i2w)
  | e :: l' =>
      rebuild_maps l' (index + 1) (<[word e := index]> w2i) (<[index := word e]> i2w)
  end.

(** The order in which [std::sort] leaves a range: no element is placed
    before one that the comparison puts ahead of it. *)
Definition sorted_by (comp : VocabWord → VocabWord → bool) : list VocabWord → Prop :=
  StronglySorted (λ a b, comp b a = false).

(** What the C++ standard promises of [std::sort] with [OrderWordCounts]:
    the range is rearranged, and it ends up ordered. *)
Record sort_contract
    (sort : (VocabWord → VocabWord → bool) → list VocabWord → list VocabWord)
    : Prop := {
  sort_perm : ∀ l, sort OrderWordCounts l ≡ₚ l;
  sort_sorted : ∀ l, sorted_by OrderWordCounts (sort OrderWordCounts l)
}.

Section Sort.
Variable std_sort :
  (VocabWord → VocabWord → bool) → list VocabWord → list VocabWord.

(** [Vocabulary::SortVocabularyByFrequency] *)
Definition SortVocabularyByFrequency (v : Vocabulary) : outcome Vocabulary :=
  let indexEos := SearchWordInVocabulary v EOS in
  match vec_get (m_vocabularyStorage v) indexEos with
  | None => Undefined
  | Some e =>
      let countEos := cn e in
      let s1 := <[Z.to_nat indexEos := set_cn e Int.INT_MAX]> (m_vocabularyStorage v) in
      let s2 := std_sort OrderWordCounts s1 in
      match vec_get s2 indexEos with
      | None => Undefined
      | Some e' =>
          let s3 := <[Z.to_nat indexEos := set_cn e' countEos]> s2 in
          let '(w2i, i2w) := rebuild_maps s3 0 ∅ ∅ in
          Returns (set_index_maps (set_storage v s3) w2i i2w)
      end
  end.
End Sort.

(** One sort that meets the contract: insertion of each element in
    front of the first one it is to precede. *)
Fixpoint insert_sorted (comp : VocabWord → VocabWord → bool)
    (x : VocabWord) (l : list VocabWord) : list VocabWord :=
  match l with
  | [] => [x]
  | y :: l' => if comp x y then x :: l else y :: insert_sorted comp x l'
  end.

Definition insertion_sort (comp : VocabWord → VocabWord → bool)
    (l : list VocabWord) : list VocabWord :=
  foldr (insert_sorted comp) [] l.

(** ** Reading a class file *)

(** One call of [fscanf(fin, "%s%d", w, &clnum)] that did not meet the
    end of the file: the token stored in [w] and, when the conversion of
    the integer succeeded, the value stored in [clnum].  When it did
    not succeed [clnum] keeps the value it had. *)
Definition scan_item : Type := (string * option Z)%type.

(** The local variables and members that the reading loop of
    [ReadClasses] updates. *)
Record read_state : Type := mkReadState {
  rs_map : gmap string Z;
  rs_classes : gset Z;
  rs_words : gset string;
  rs_max_class : Z;
  rs_eos_class : Z;
  rs_clnum : Z
}.

Inductive loop_exit : Type :=
  | SawBOS      (* return false from inside the loop *)
  | ReachedEOF. (* the loop ran to the end of the file *)

(** The [while] loop of [ReadClasses]. *)
Fixpoint read_loop (items : list scan_item) (st : read_state)
    : loop_exit * read_state :=
  match items with
  | [] => (ReachedEOF, st)
  | (w, n) :: items' =>
      let c := default (rs_clnum st) n in
      if String.eqb w BOS then
        (SawBOS, mkReadState (rs_map st) (rs_classes st) (rs_words st)
                   (rs_max_class st) (rs_eos_class st) c)
      else
        read_loop items'
          (mkReadState (<[w := c]> (rs_map st)) ({[c]} ∪ rs_classes st)
             ({[w]} ∪ rs_words st)
             (if rs_max_class st <? c then c else rs_max_class st)
             (if String.eqb w EOS then c else rs_eos_class st)
             c)
  end.

(** The exchange of the two class indices. *)
Definition swap_value (eos_class max_class c : Z) : Z :=
  if c =? eos_class then max_class
  else if c =? max_class then eos_class
  else c.

(** The body of the final loop of [ReadClasses] for one word of
    [words]; [operator[]] reads 0 for a word that the map does not
    hold. *)
Definition swap_class (eos_class max_class : Z) (w : string)
    (m : gmap string Z) : gmap string Z :=
  let c := default 0 (m !! w) in
  if c =? eos_class then <[w := max_class]> m
  else if c =? max_class then <[w := eos_class]> m
  else <[w := c]> m.

Definition swap_classes (eos_class max_class : Z) (words : gset string)
    (m : gmap string Z) : gmap string Z :=
  set_fold (swap_class eos_class max_class) m words.

(** [Vocabulary::ReadClasses].  The file is [None] when it cannot be
    opened, and otherwise the sequence of its scanned items; [clnum0] is
    what the local [clnum] holds before the first conversion writes
    it. *)
Definition ReadClasses (clnum0 : Z) (v : Vocabulary)
    (file : option (list scan_item)) : Vocabulary * bool :=
  match file with
  | None => (v, false)
  | Some items =>
      let '(exit, st) :=
        read_loop items
          (mkReadState (m_mapWord2Class v) (m_classes v) ∅ (-1) (-1) clnum0) in
      let v1 := set_class_maps v (rs_map st) (rs_classes st) in
      match exit with
      | SawBOS => (v1, false)
      | ReachedEOF =>
          if rs_eos_class st =? -1 then (v1, false)
          else if (size (rs_map st) =? 0)%nat then (v1, false)
          else
            (set_class_maps v
               (swap_classes (rs_eos_class st) (rs_max_class st)
                  (rs_words st) (rs_map st))
               (rs_classes st), true)
      end
  end.

(** *** What a class file holds *)

(** The word and the class of each call of [fscanf], the class being
    the content of [clnum] after the call. *)
Fixpoint item_classes (items : list scan_item) (clnum : Z) : list (string * Z) :=
  match items with
  | [] => []
  | (w, n) :: items' =>
      let c := default clnum n in (w, c) :: item_classes items' c
  end.

(** The pairs read before the first "<s>". *)
Fixpoint until_BOS (recs : list (string * Z)) : list (string * Z) :=
  match recs with
  | [] => []
  | (w, c) :: recs' => if String.eqb w BOS then [] else (w, c) :: until_BOS recs'
  end.

(** The class of the last pair that names [w]. *)
Fixpoint last_class (recs : list (string * Z)) (w : string) : option Z :=
  match recs with
  | [] => None
  | (w', c) :: recs' =>
      match last_class recs' w with
      | Some c' => Some c'
      | None => if String.eqb w' w then Some c else None
      end
  end.

(** A file in the format that [ReadClasses] documents: every line gives
    a word and a class index that is not negative, "<s>" is not among
    the words, and "</s>" is. *)
Definition well_formed (items : list scan_item) : Prop :=
  Forall (λ it : scan_item, ∃ c, it.2 = Some c ∧ 0 ≤ c) items ∧
  (BOS ∉ items.*1) ∧ (EOS ∈ items.*1).


(** Two class files. *)
Definition class_file_ok : list scan_item :=
  [("the"%string, Some 2); (EOS, Some 0); ("cat"%string, Some 1);
   ("dog"%string, Some 2); ("a"%string, Some 0)].

Definition class_file_with_BOS : list scan_item :=
  [("the"%string, Some 1); (BOS, Some 2); (EOS, Some 0)].

(** A file whose class indices are all below -1. *)
Definition negative_class_file : list scan_item :=
  [(EOS, Some (-3)); ("the"%string, Some (-5))].

(** A file read after [class_file_with_BOS] has been refused. *)
Definition class_file_retry : list scan_item :=
  [(EOS, Some 1); ("a"%string, Some 2)].

(** ** Assigning words to classes *)

(** The loop of the class-file branch: [cnum] counts the blocks seen so
    far and [last] is the class index read from the previous entry. *)
Fixpoint compact_classes (l : list VocabWord) (cnum last : Z) : list VocabWord :=
  match l with
  | [] => []
  | e :: l' =>
      if negb (classIndex e =? last) then
        set_prob (set_class e (cnum + 1)) 0%float
          :: compact_classes l' (cnum + 1) (classIndex e)
      else
        set_prob (set_class e cnum) 0%float :: compact_classes l' cnum last
  end.

(** The three loops of the frequency branch. *)
Definition total_count (l : list VocabWord) : Z :=
  fold_left (λ b e, Int.wrap (b + cn e)) l 0.

Definition sqrt_share (b : Z) (e : VocabWord) : float :=
  PrimFloat.sqrt (PrimFloat.div (Int.to_double (cn e)) (Int.to_double b)).

Definition total_sqrt (b : Z) (l : list VocabWord) : float :=
  fold_left (λ dd e, PrimFloat.add dd (sqrt_share b e)) l 0%float.

Fixpoint frequency_classes (b : Z) (dd : float) (sizeClasses : Z)
    (l : list VocabWord) (df : float) (a : Z) : list VocabWord * Z :=
  match l with
  | [] => ([], a)
  | e :: l' =>
      let df1 := PrimFloat.add df (PrimFloat.div (sqrt_share b e) dd) in
      let df2 := if PrimFloat.ltb 1%float df1 then 1%float else df1 in
      let a' :=
        if PrimFloat.ltb (PrimFloat.div (Int.to_double (a + 1))
                            (Int.to_double sizeClasses)) df2
        then (if a <? sizeClasses - 1 then a + 1 else a)
        else a in
      let '(l1, a1) := frequency_classes b dd sizeClasses l' df2 a' in
      (set_prob (set_class e a) 0%float :: l1, a1)
  end.

(** The frequency branch: the entries with their classes, and the class
    pointer [a] as the last loop leaves it. *)
Definition frequency_branch (storage : list VocabWord) (sizeClasses : Z)
    : list VocabWord * Z :=
  let b := total_count storage in
  let dd := total_sqrt b storage in
  frequency_classes b dd sizeClasses storage 0%float 0.

(** The class indices after the first half of [AssignWordsToClasses]. *)
Definition assign_class_indices (v : Vocabulary) : list VocabWord :=
  if m_useClassFile v then compact_classes (m_vocabularyStorage v) (-1) (-1)
  else (frequency_branch (m_vocabularyStorage v) (m_numClasses v)).1.

(** [m_classWords[wordClass].push_back(i)] for every entry in turn. *)
Fixpoint push_words (l : list VocabWord) (i : Z) (cw : list (list Z))
    : outcome (list (list Z)) :=
  match l with
  | [] => Returns cw
  | e :: l' =>
      match vec_get cw (classIndex e) with
      | None => Undefined
      | Some g => push_words l' (i + 1) (<[Z.to_nat (classIndex e) := g ++ [i]]> cw)
      end
  end.

(** The vector of the words of each class: resized, emptied, filled. *)
Definition build_classWords (storage : list VocabWord) (sizeClasses : Z)
    : outcome (list (list Z)) :=
  if sizeClasses <? 0 then Undefined
  else push_words storage 0 (replicate (Z.to_nat sizeClasses) []).

Definition is_nil {A} (l : list A) : bool :=
  match l with [] => true | _ => false end.

(** The final assertions: no class is empty. *)
Definition no_empty_class (cw : list (list Z)) : bool :=
  forallb (λ g, negb (is_nil g)) cw.

(** [Vocabulary::AssignWordsToClasses] *)
Definition AssignWordsToClasses (v : Vocabulary) : outcome Vocabulary :=
  let storage := assign_class_indices v in
  cw ← build_classWords storage (m_numClasses v);
  if no_empty_class cw
  then Returns (set_classWords (set_storage v storage) cw)
  else AssertionFailure.

(** ** Saving and loading the vocabulary as text *)

(** [isspace] in the C locale. *)
Definition is_space (c : ascii) : bool :=
  let n := nat_of_ascii c in
  ((n =? 32) || ((9 <=? n) && (n <=? 13)))%nat.

Definition is_digit (c : ascii) : bool :=
  let n := nat_of_ascii c in
  ((48 <=? n) && (n <=? 57))%nat.

Definition NUL : ascii := "000"%char.
Definition TAB : string := String "009"%char EmptyString.
Definition LF : string := String "010"%char EmptyString.

Fixpoint skip_space (s : string) : string :=
  match s with
  | String c s' => if is_space c then skip_space s' else s
  | EmptyString => s
  end.

(** The longest prefix whose characters satisfy [p], and what follows. *)
Fixpoint span (p : ascii → bool) (s : string) : string * string :=
  match s with
  | String c s' =>
      if p c then let '(a, b) := span p s' in (String c a, b)
      else (EmptyString, s)
  | EmptyString => (EmptyString, EmptyString)
  end.

(** The C string held by a character array or by [c_str()]: the
    characters before the first NUL. *)
Definition c_str (s : string) : string :=
  fst (span (λ c, negb (Ascii.eqb c NUL)) s).

(** The conversion [%d] of [fscanf]: white space is skipped, then an
    optional sign and a non-empty run of digits are read.  [None] is a
    matching failure or the end of the file. *)
Definition scan_int (s : string) : option (Z * string) :=
  let s1 := skip_space s in
  let '(neg, s2) :=
    match s1 with
    | String "-"%char t => (true, t)
    | String "+"%char t => (false, t)
    | _ => (false, s1)
    end in
  let '(ds, rest) := span is_digit s2 in
  match DecimalString.NilZero.uint_of_string ds with
  | Some u => Some (if neg : bool then - Z.of_uint u else Z.of_uint u, rest)
  | None => None
  end.

(** [%d] into an [int] variable: a conversion that fails leaves the
    variable unwritten ([None]), and a value that an [int] cannot hold
    is outside what the conversion defines. *)
Definition scan_d (s : string) : outcome (option Z * string) :=
  match scan_int s with
  | Some (z, rest) =>
      if (Int.INT_MIN <=? z) && (z <=? Int.INT_MAX) then Returns (Some z, rest)
      else Undefined
  | None => Returns (None, s)
  end.

(** Reading a local [int] that such a conversion was to write. *)
Definition read_var (x : option Z) : outcome Z :=
  match x with
  | Some z => Returns z
  | None => Undefined
  end.

(** The conversion [%s]: white space is skipped, then the characters up
    to the next white space are stored.  At the end of the file nothing
    is stored. *)
Definition scan_token (s : string) : string * string :=
  span (λ c, negb (is_space c)) (skip_space s).

(** The conversions [%d], [%6d] and [%10d] of [fprintf]. *)
Definition print_int (z : Z) : string :=
  DecimalString.NilZero.string_of_int (Z.to_int z).

Fixpoint spaces (n : nat) : string :=
  match n with
  | O => EmptyString
  | S n' => String " "%char (spaces n')
  end.

Definition print_int_width (width : nat) (z : Z) : string :=
  let s := print_int z in
  spaces (width - String.length s) +:+ s.

(** One line of [Save]: ["%6d\t%10d\t%s\t%d\n"]. *)
Definition save_row (wordIndex : Z) (e : VocabWord) : string :=
  print_int_width 6 wordIndex +:+ TAB +:+ print_int_width 10 (cn e) +:+ TAB
    +:+ c_str (word e) +:+ TAB +:+ print_int (classIndex e) +:+ LF.

(** The loop of [Save], from index [wordIndex] on. *)
Fixpoint save_rows (l : list VocabWord) (wordIndex : Z) : string :=
  match l with
  | [] => EmptyString
  | e :: l' => save_row wordIndex e +:+ save_rows l' (wordIndex + 1)
  end.

Definition save_header : string := LF +:+ "Vocabulary:" +:+ LF.

(** [Vocabulary::Save]: what the stream [fo] holds afterwards. *)
Definition Save (fo : string) (v : Vocabulary) : string :=
  fo +:+ save_header +:+ save_rows (m_vocabularyStorage v) 0.

(** The members that the loop of the constructor fills. *)
Definition load_state : Type :=
  (list VocabWord * gmap string Z * gmap Z string)%type.

(** The loop of the constructor: [n] rows are still to be read, [a] is
    the loop counter and [fi] what is left of the stream. *)
Fixpoint load_rows (n : nat) (a : Z) (fi : string) (st : load_state)
    : outcome (load_state * string) :=
  match n with
  | O => Returns (st, fi)
  | S n' =>
      let '(storage, w2i, i2w) := st in
      (* fscanf(fi, "%d%d", &wordIndex, &wordCount) *)
      r1 ← scan_d fi;
      let '(wordIndex, fi1) := r1 in
      r2 ← (if wordIndex is Some _ then scan_d fi1 else Returns (None, fi1));
      let '(wordCount, fi2) := r2 in
      (* assert(wordIndex == a) *)
      wordIndex ← read_var wordIndex;
      if negb (wordIndex =? a) then AssertionFailure
      else
        wordCount ← read_var wordCount;
        (* fscanf(fi, "%s", &buffer) *)
        let '(buffer, fi3) := scan_token fi2 in
        if (2048 <=? String.length buffer)%nat then Undefined
        else
          let w := c_str buffer in
          (* fscanf(fi, "%d", &classIndex) *)
          r3 ← scan_d fi3;
          let '(class, fi4) := r3 in
          class ← read_var class;
          load_rows n' (a + 1) fi4
            (storage ++ [mkVocabWord w 0%float wordCount class],
             <[w := wordIndex]> w2i, <[wordIndex := w]> i2w)
  end.

(** [Vocabulary::Vocabulary(FILE *fi, int sizeVocabulary)].  The two
    members that the constructor does not write are arguments; the
    stream is returned as the constructor leaves it. *)
Definition Vocabulary_of_FILE (numClasses : Z) (useClassFile : bool)
    (fi : string) (sizeVocabulary : Z) : outcome (Vocabulary * string) :=
  if sizeVocabulary <? 0 then Undefined
  else
    r ← load_rows (Z.to_nat sizeVocabulary) 0 fi ([], ∅, ∅);
    let '(storage, w2i, i2w, rest) := r in
    Returns (mkVocabulary storage w2i i2w ∅ ∅ [] numClasses useClassFile, rest).

(** ** Observations on a vocabulary *)

(** The count and the class stored for a word, found through the
    word-to-index map as the program finds them. *)
Definition count_of (v : Vocabulary) (w : string) : option Z :=
  cn <$> vec_get (m_vocabularyStorage v) (SearchWordInVocabulary v w).

Definition class_of (v : Vocabulary) (w : string) : option Z :=
  classIndex <$> vec_get (m_vocabularyStorage v) (SearchWordInVocabulary v w).

Definition counts (l : list VocabWord) : list Z := cn <$> l.
Definition words (l : list VocabWord) : list string := word <$> l.
Definition classes (l : list VocabWord) : list Z := classIndex <$> l.

(** The two maps agree with the vector: a word is mapped to an index
    exactly when the entry at that index holds it, and conversely. *)
Definition maps_in_sync (v : Vocabulary) : Prop :=
  (∀ w i, m_mapWord2Index v !! w = Some i ↔
          0 ≤ i ∧ words (m_vocabularyStorage v) !! Z.to_nat i = Some w) ∧
  (∀ w i, m_mapIndex2Word v !! i = Some w ↔
          0 ≤ i ∧ words (m_vocabularyStorage v) !! Z.to_nat i = Some w).

(** Comparison of two entries by their counts. *)
Definition count_ge (a b : VocabWord) : Prop := cn b ≤ cn a.
Definition count_gt (a b : VocabWord) : Prop := cn b < cn a.

(** ** A vocabulary in which "</s>" was not the first word seen *)

(** A token stream with 10 "a", 8 "b", 20 "</s>" and one "c", in the
    order of first occurrence a, b, </s>, c. *)
Definition unsorted_tokens : list string :=
  replicate 10 "a"%string ++ replicate 8 "b"%string
    ++ replicate 20 EOS ++ ["c"%string].

(** The vocabulary that [AddWordToVocabulary] builds from it. *)
Definition unsorted_vocabulary : Vocabulary :=
  mkVocabulary
    [mkVocabWord "a" 0%float 10 0; mkVocabWord "b" 0%float 8 0;
     mkVocabWord EOS 0%float 20 0; mkVocabWord "c" 0%float 1 0]
    (list_to_map [("a"%string, 0); ("b"%string, 1); (EOS, 2); ("c"%string, 3)])
    (list_to_map [(0, "a"%string); (1, "b"%string); (2, EOS); (3, "c"%string)])
    ∅ ∅ [] 0 false.

(** What one call of [SortVocabularyByFrequency] makes of it, and what
    a second call makes of that. *)
Definition once_sorted_vocabulary : Vocabulary :=
  mkVocabulary
    [mkVocabWord EOS 0%float Int.INT_MAX 0; mkVocabWord "a" 0%float 10 0;
     mkVocabWord "b" 0%float 20 0; mkVocabWord "c" 0%float 1 0]
    (list_to_map [(EOS, 0); ("a"%string, 1); ("b"%string, 2); ("c"%string, 3)])
    (list_to_map [(0, EOS); (1, "a"%string); (2, "b"%string); (3, "c"%string)])
    ∅ ∅ [] 0 false.

Definition twice_sorted_vocabulary : Vocabulary :=
  mkVocabulary
    [mkVocabWord EOS 0%float Int.INT_MAX 0; mkVocabWord "b" 0%float 20 0;
     mkVocabWord "a" 0%float 10 0; mkVocabWord "c" 0%float 1 0]
    (list_to_map [(EOS, 0); ("b"%string, 1); ("a"%string, 2); ("c"%string, 3)])
    (list_to_map [(0, EOS); (1, "b"%string); (2, "a"%string); (3, "c"%string)])
    ∅ ∅ [] 0 false.

(** ** Sums of counts *)

Definition sum_Z (l : list Z) : Z := foldr Z.add 0 l.

(** The count of the entry at index [i], and the sum of the counts of
    the members of a class. *)
Definition count_at (storage : list VocabWord) (i : Z) : Z :=
  default 0 (cn <$> vec_get storage i).

Definition class_mass (storage : list VocabWord) (g : list Z) : Z :=
  sum_Z (count_at storage <$> g).

(** The indices [i, i + n) of a vector. *)
Definition indices (i : Z) (n : nat) : list Z :=
  (λ k, i + Z.of_nat k) <$> seq 0 n.

(** ** Example vocabularies for the class assignment *)

(** The counts of the scenario {</s>:5, the:100, cat:3, dog:2} after a
    sort that keeps "</s>" first. *)
Definition scenario_vocabulary (numClasses : Z) : Vocabulary :=
  mkVocabulary
    [mkVocabWord EOS 0%float 5 0; mkVocabWord "the" 0%float 100 0;
     mkVocabWord "cat" 0%float 3 0; mkVocabWord "dog" 0%float 2 0]
    (list_to_map [(EOS, 0); ("the"%string, 1); ("cat"%string, 2); ("dog"%string, 3)])
    (list_to_map [(0, EOS); (1, "the"%string); (2, "cat"%string); (3, "dog"%string)])
    ∅ ∅ [] numClasses false.

(** A vocabulary with the single word "</s>", seen once, for which two
    classes are asked. *)
Definition single_word_vocabulary : Vocabulary :=
  mkVocabulary [mkVocabWord EOS 0%float 1 0]
    (list_to_map [(EOS, 0)]) (list_to_map [(0, EOS)]) ∅ ∅ [] 2 false.

(** ** Blocks of class indices *)

(** Words of one class stand next to each other: between two entries of
    a class there is no entry of another class. *)
Definition contiguous (ids : list Z) : Prop :=
  ∀ (i j k : nat) x, (i < j)%nat → (j < k)%nat →
    ids !! i = Some x → ids !! k = Some x → ids !! j = Some x.

(** The number of places of a list of class indices at which the index
    differs from the one before it, [last] standing before the first. *)
Fixpoint count_blocks (ids : list Z) (last : Z) : Z :=
  match ids with
  | [] => 0
  | c :: ids' => (if c =? last then 0 else 1) + count_blocks ids' c
  end.

(** A vocabulary that uses a class file and whose first word carries the
    class -1. *)
Definition negative_class_vocabulary : Vocabulary :=
  mkVocabulary
    [mkVocabWord EOS 0%float 7 (-1); mkVocabWord "the" 0%float 5 3]
    (list_to_map [(EOS, 0); ("the"%string, 1)])
    (list_to_map [(0, EOS); (1, "the"%string)])
    ∅ ∅ [] 2 true.

(** A vocabulary that uses a class file, with three blocks of classes. *)
Definition three_block_vocabulary : Vocabulary :=
  mkVocabulary
    [mkVocabWord EOS 0%float 7 9; mkVocabWord "the" 0%float 5 4;
     mkVocabWord "a" 0%float 4 4; mkVocabWord "cat" 0%float 1 0]
    (list_to_map [(EOS, 0); ("the"%string, 1); ("a"%string, 2); ("cat"%string, 3)])
    (list_to_map [(0, EOS); (1, "the"%string); (2, "a"%string); (3, "cat"%string)])
    ∅ ∅ [] 3 true.

(** ** Words and entries that the text format can carry *)

Fixpoint string_forallb (p : ascii → bool) (s : string) : bool :=
  match s with
  | EmptyString => true
  | String c s' => p c && string_forallb p s'
  end.

(** A word that [%s] writes and reads back whole: it is not empty, holds
    no white space and no NUL, and fits the buffer of 2048 characters
    with its terminating NUL. *)
Definition is_token (w : string) : bool :=
  negb (String.eqb w EmptyString)
  && string_forallb (λ c, negb (is_space c) && negb (Ascii.eqb c NUL)) w
  && (String.length w <? 2048)%nat.

(** An entry whose word is such a token and whose count and class are
    values of an [int]. *)
Definition storable (e : VocabWord) : Prop :=
  is_token (word e) = true ∧ Int.in_range (cn e) ∧ Int.in_range (classIndex e).

(** The first character of what follows a number is not a digit. *)
Definition no_digit_head (s : string) : Prop :=
  match s with
  | String c _ => is_digit c = false
  | EmptyString => True
  end.

(** The first character of what follows a token is white space. *)
Definition space_head (s : string) : Prop :=
  match s with
  | String c _ => is_space c = true
  | EmptyString => True
  end.

(** A vocabulary with a word of two tokens. *)
Definition two_token_vocabulary : Vocabulary :=
  mkVocabulary [mkVocabWord "New York" 0%float 5 3]
    (list_to_map [("New York"%string, 0)]) (list_to_map [(0, "New York"%string)])
    ∅ ∅ [] 4 true.

(** ** Further example vocabularies and observations *)

(** The number of times a word occurs in a token stream. *)
Definition occurrences (w : string) (ws : list string) : Z :=
  Z.of_nat (length (filter (λ w', w' = w) ws)).

(** A vocabulary learnt from a stream that starts with "</s>": the
    entry of "</s>" is the first, the others are not in order. *)
Definition eos_first_vocabulary : Vocabulary :=
  mkVocabulary
    [mkVocabWord EOS 0%float 5 0; mkVocabWord "cat" 0%float 3 0;
     mkVocabWord "the" 0%float 100 0; mkVocabWord "dog" 0%float 2 0]
    (list_to_map [(EOS, 0); ("cat"%string, 1); ("the"%string, 2); ("dog"%string, 3)])
    (list_to_map [(0, EOS); (1, "cat"%string); (2, "the"%string); (3, "dog"%string)])
    ∅ ∅ [] 2 false.

(** A stream with the lines of two entries. *)
Definition two_row_file : string :=
  "0 5 </s> 0" +:+ LF +:+ "1 3 cat 1" +:+ LF.

(** ** Proof automation *)

(** Decides that a list of entries written out has strictly decreasing
    counts. *)
Ltac sorted_strictly :=
  repeat (constructor; [|repeat constructor; unfold count_gt; simpl;
                          unfold Int.INT_MAX; lia]);
  constructor.

(** * Vectors indexed by an [int] *)

Lemma vec_get_of_nat {A} (l : list A) (i : nat) :
  vec_get l (Z.of_nat i) = l !! i.
Proof.
  unfold vec_get. destruct (Z.leb_spec 0 (Z.of_nat i)); [|lia].
  by rewrite Nat2Z.id.
Qed.

Lemma vec_get_Some {A} (l : list A) (i : Z) (x : A) :
  vec_get l i = Some x ↔ 0 ≤ i ∧ l !! Z.to_nat i = Some x.
Proof.
  unfold vec_get. destruct (Z.leb_spec 0 i); [tauto|].
  split; [done|lia].
Qed.


(** * The invariant of the two maps *)

Lemma words_insert_cn (l : list VocabWord) (i : nat) e c :
  l !! i = Some e → words (<[i := set_cn e c]> l) = words l.
Proof.
  intros He. unfold words. rewrite list_fmap_insert. simpl.
  apply list_insert_id. by rewrite list_lookup_fmap, He.
Qed.

(** Adding a word keeps the maps in agreement with the vector, and the
    word is afterwards found at the index that the call returns. *)
Lemma AddWordToVocabulary_in_sync v w :
  maps_in_sync v →
  ∃ v' i, AddWordToVocabulary v w = Returns (v', i) ∧
    maps_in_sync v' ∧ SearchWordInVocabulary v' w = i.
Proof.
  intros [Hw2i Hi2w]. unfold AddWordToVocabulary, SearchWordInVocabulary.
  destruct (m_mapWord2Index v !! w) as [i|] eqn:Hlook.
  - apply Hw2i in Hlook as Hi. destruct Hi as [Hi0 Hi].
    destruct (Z.eqb_spec i (-1)); [lia|].
    unfold words in Hi. rewrite list_lookup_fmap in Hi.
    destruct (m_vocabularyStorage v !! Z.to_nat i) as [e|] eqn:He; [|done].
    rewrite (proj2 (vec_get_Some _ i e) (conj Hi0 He)).
    eexists _, i. split; [reflexivity|]. simpl. rewrite Hlook.
    split; [|done]. split; intros w' j; simpl; rewrite words_insert_cn by done.
    + apply Hw2i.
    + apply Hi2w.
  - simpl. eexists _, _. split; [reflexivity|]. simpl.
    rewrite lookup_insert_eq. split; [|done].
    assert (w ∉ words (m_vocabularyStorage v)) as Hnotin.
    { intros [k Hk]%list_elem_of_lookup.
      assert (m_mapWord2Index v !! w = Some (Z.of_nat k)) as H.
      { apply Hw2i. split; [lia|]. by rewrite Nat2Z.id. }
      by rewrite Hlook in H. }
    assert (∀ (j : Z) w', 0 ≤ j →
      words (m_vocabularyStorage v ++ [mkVocabWord w 0%float 1 0]) !! Z.to_nat j = Some w' ↔
      (j = vec_size (m_vocabularyStorage v) ∧ w' = w) ∨
      (w' ≠ w ∧ words (m_vocabularyStorage v) !! Z.to_nat j = Some w')) as Hwords.
    { intros j w' Hj. unfold words, vec_size. rewrite fmap_app. simpl.
      destruct (decide (Z.to_nat j < length (m_vocabularyStorage v))%nat) as [Hlt|Hge].
      - rewrite lookup_app_l by (by rewrite length_fmap). split.
        + intros Hk. right. split; [|done]. intros ->. apply Hnotin.
          apply list_elem_of_lookup. eauto.
        + intros [[-> _]|[_ ?]]; [lia|done].
      - rewrite lookup_app_r by (rewrite length_fmap; lia).
        rewrite length_fmap. split.
        + intros Hk. left.
          destruct (Z.to_nat j - length (m_vocabularyStorage v))%nat as [|k] eqn:Hd;
            [|done]. simpl in Hk. injection Hk as <-. split; [lia|done].
        + intros [[-> ->]|[_ Hk]].
          * by rewrite Nat2Z.id, Nat.sub_diag.
          * apply lookup_lt_Some in Hk. rewrite length_fmap in Hk. lia. }
    split; intros w' j; simpl.
    + destruct (decide (w' = w)) as [->|Hne].
      * rewrite lookup_insert_eq. split.
        -- intros [= <-]. unfold vec_size. split; [lia|]. apply Hwords; [lia|].
           by left.
        -- intros [Hj [[-> _]|[? _]]%Hwords]; done.
      * rewrite lookup_insert_ne by done. rewrite Hw2i. split.
        -- intros [Hj Hk]. split; [done|]. apply Hwords; [done|]. by right.
        -- intros [Hj [[_ ->]|[_ ?]]%Hwords]; done.
    + destruct (decide (j = vec_size (m_vocabularyStorage v))) as [->|Hne].
      * rewrite lookup_insert_eq. unfold vec_size. split.
        -- intros [= <-]. split; [lia|]. apply Hwords; [lia|]. by left.
        -- intros [Hj [[_ ->]|[_ Hk]]%Hwords]; [done| |lia].
           apply lookup_lt_Some in Hk. unfold words in Hk.
           rewrite length_fmap in Hk. lia.
      * rewrite lookup_insert_ne by done. rewrite Hi2w. split.
        -- intros [Hj Hk]. split; [done|]. apply Hwords; [done|]. right.
           split; [|done]. intros ->. apply Hnotin, list_elem_of_lookup. eauto.
        -- intros [Hj [[-> _]|[_ ?]]%Hwords]; done.
Qed.

Lemma empty_vocabulary_in_sync n u : maps_in_sync (empty_vocabulary n u).
Proof.
  split; intros w i; simpl; rewrite lookup_empty; split; try done;
    intros [_ H]; by rewrite lookup_nil in H.
Qed.

(** Every vocabulary learnt from a token stream has its maps in
    agreement with its vector. *)
Lemma add_words_in_sync ws : ∀ v,
  maps_in_sync v → ∃ v', add_words v ws = Returns v' ∧ maps_in_sync v'.
Proof.
  induction ws as [|w ws IH]; intros v Hsync; simpl; [eauto|].
  destruct (AddWordToVocabulary_in_sync v w Hsync) as (v1 & i & -> & Hsync1 & _).
  simpl. by apply IH.
Qed.
(** * Properties of the sort *)

Lemma sorted_by_count_ge l :
  sorted_by OrderWordCounts l ↔ StronglySorted count_ge l.
Proof.
  unfold sorted_by.
  split; induction 1 as [|x l Hl IH Hx]; constructor; auto;
    (eapply Forall_impl; [exact Hx|]); intros y; unfold OrderWordCounts, count_ge;
    simpl; lia.
Qed.

Lemma insert_sorted_perm comp x l : insert_sorted comp x l ≡ₚ x :: l.
Proof.
  induction l as [|y l IH]; simpl; [done|].
  destruct (comp x y); [done|].
  rewrite IH. apply Permutation_swap.
Qed.

Lemma insert_sorted_sorted x l :
  StronglySorted count_ge l →
  StronglySorted count_ge (insert_sorted OrderWordCounts x l).
Proof.
  induction 1 as [|y l Hl IH Hy]; simpl.
  - repeat constructor.
  - unfold OrderWordCounts at 1. destruct (Z.ltb_spec (cn y) (cn x)) as [Hlt|Hge].
    + constructor; [by constructor|].
      constructor; [unfold count_ge; lia|].
      eapply Forall_impl; [exact Hy|]. unfold count_ge. simpl. lia.
    + constructor; [done|].
      rewrite insert_sorted_perm. constructor; [unfold count_ge; lia|done].
Qed.

Lemma insertion_sort_contract : sort_contract insertion_sort.
Proof.
  split.
  - intros l. unfold insertion_sort.
    induction l as [|x l IH]; simpl; [done|].
    by rewrite insert_sorted_perm, IH.
  - intros l. apply sorted_by_count_ge. unfold insertion_sort.
    induction l as [|x l IH]; simpl; [constructor|].
    by apply insert_sorted_sorted.
Qed.

(** In a range with strictly decreasing counts an entry is determined by
    its count. *)
Lemma strictly_sorted_count_inj l x y :
  StronglySorted count_gt l → x ∈ l → y ∈ l → cn x = cn y → x = y.
Proof.
  induction 1 as [|z l Hl IH Hz]; intros Hx Hy Hc.
  - by apply elem_of_nil in Hx.
  - rewrite Forall_forall in Hz. unfold count_gt in Hz.
    apply elem_of_cons in Hx as [->|Hx]; apply elem_of_cons in Hy as [->|Hy];
      try done.
    + specialize (Hz _ Hy). lia.
    + specialize (Hz _ Hx). lia.
    + by apply IH.
Qed.

(** When the counts are pairwise different, the contract of [std::sort]
    leaves a single possible result. *)
Lemma sort_determined std_sort l l' :
  sort_contract std_sort →
  l ≡ₚ l' → StronglySorted count_gt l' →
  std_sort OrderWordCounts l = l'.
Proof.
  intros [Hperm Hsorted] Hl Hl'.
  apply (StronglySorted_unique_strong count_ge).
  - intros x1 x2 H1 H2 Hge1 Hge2.
    apply (strictly_sorted_count_inj l'); [done| |done|].
    + by rewrite <- Hl, <- (Hperm l).
    + unfold count_ge in *. lia.
  - apply sorted_by_count_ge, Hsorted.
  - clear -Hl'. induction Hl' as [|x l Hl IH Hx]; constructor; [done|].
    eapply Forall_impl; [exact Hx|]. unfold count_gt, count_ge. simpl. lia.
  - by rewrite (Hperm l).
Qed.

(** The vocabulary [unsorted_vocabulary] is what learning the token
    stream [unsorted_tokens] produces. *)
Lemma unsorted_vocabulary_learned :
  add_words (empty_vocabulary 0 false) unsorted_tokens = Returns unsorted_vocabulary.
Proof. vm_compute. reflexivity. Qed.

(** The steps of [SortVocabularyByFrequency] when "</s>" is found at
    index [i]. *)
Lemma SortVocabularyByFrequency_steps std_sort v (i : nat) e s2 e' :
  SearchWordInVocabulary v EOS = Z.of_nat i →
  m_vocabularyStorage v !! i = Some e →
  std_sort OrderWordCounts (<[i := set_cn e Int.INT_MAX]> (m_vocabularyStorage v)) = s2 →
  s2 !! i = Some e' →
  SortVocabularyByFrequency std_sort v
  = let s3 := <[i := set_cn e' (cn e)]> s2 in
    Returns (set_index_maps (set_storage v s3)
               (rebuild_maps s3 0 ∅ ∅).1 (rebuild_maps s3 0 ∅ ∅).2).
Proof.
  intros Hi He Hs He'. unfold SortVocabularyByFrequency.
  rewrite Hi, vec_get_of_nat, He, Nat2Z.id, Hs, vec_get_of_nat, He'.
  simpl. by destruct (rebuild_maps _ _ _ _).
Qed.

(** One call on [unsorted_vocabulary]: "</s>" is found at index 2, the
    sort moves it to the front, and its old count is written back at
    index 2, over the count of "b". *)
Lemma sort_unsorted_vocabulary std_sort :
  sort_contract std_sort →
  SortVocabularyByFrequency std_sort unsorted_vocabulary
  = Returns once_sorted_vocabulary.
Proof.
  intros Hc.
  rewrite (SortVocabularyByFrequency_steps std_sort _ 2
    (mkVocabWord EOS 0%float 20 0)
    [mkVocabWord EOS 0%float Int.INT_MAX 0; mkVocabWord "a" 0%float 10 0;
     mkVocabWord "b" 0%float 8 0; mkVocabWord "c" 0%float 1 0]
    (mkVocabWord "b" 0%float 8 0)).
  - vm_compute. reflexivity.
  - vm_compute. reflexivity.
  - reflexivity.
  - apply sort_determined; [done| |sorted_strictly].
    symmetry. apply (Permutation_cons_app [_; _] [_]). done.
  - reflexivity.
Qed.

(** A second call: "</s>" is now at index 0 with the count [INT_MAX],
    and "b", which holds 20, is sorted before "a". *)
Lemma sort_once_sorted_vocabulary std_sort :
  sort_contract std_sort →
  SortVocabularyByFrequency std_sort once_sorted_vocabulary
  = Returns twice_sorted_vocabulary.
Proof.
  intros Hc.
  rewrite (SortVocabularyByFrequency_steps std_sort _ 0
    (mkVocabWord EOS 0%float Int.INT_MAX 0)
    [mkVocabWord EOS 0%float Int.INT_MAX 0; mkVocabWord "b" 0%float 20 0;
     mkVocabWord "a" 0%float 10 0; mkVocabWord "c" 0%float 1 0]
    (mkVocabWord EOS 0%float Int.INT_MAX 0)).
  - vm_compute. reflexivity.
  - vm_compute. reflexivity.
  - reflexivity.
  - apply sort_determined; [done| |sorted_strictly].
    apply perm_skip, perm_swap.
  - reflexivity.
Qed.

(** C1 (the code departs from it).  After the sort "</s>" is at index 0
    and the counts at the indices from 1 on are to be in descending
    order.  On [unsorted_vocabulary] every [std::sort] that meets its
    contract leaves "</s>" at index 0 still holding [INT_MAX], and the
    counts 10 and 20 at the indices 1 and 2: the count saved from
    "</s>" is written back at the index that "</s>" had before the
    sort. *)
Theorem sort_leaves_counts_out_of_order std_sort :
  sort_contract std_sort →
  ∃ v', SortVocabularyByFrequency std_sort unsorted_vocabulary = Returns v' ∧
    words (m_vocabularyStorage v') = [EOS; "a"; "b"; "c"]%string ∧
    counts (m_vocabularyStorage v') = [Int.INT_MAX; 10; 20; 1] ∧
    ¬ (∀ (i j : nat) ci cj, (1 ≤ i)%nat → (i < j)%nat →
         counts (m_vocabularyStorage v') !! i = Some ci →
         counts (m_vocabularyStorage v') !! j = Some cj → cj ≤ ci).
Proof.
  intros Hc. exists once_sorted_vocabulary.
  split; [by apply sort_unsorted_vocabulary|].
  split; [reflexivity|]. split; [reflexivity|].
  intros H. specialize (H 1%nat 2%nat 10 20). simpl in H.
  assert (20 ≤ 10) by (apply H; [lia|lia|done|done]). lia.
Qed.

Lemma sort_leaves_counts_out_of_order_witness :
  sort_contract insertion_sort ∧
  ∃ v', SortVocabularyByFrequency insertion_sort unsorted_vocabulary = Returns v' ∧
    words (m_vocabularyStorage v') = [EOS; "a"; "b"; "c"]%string ∧
    counts (m_vocabularyStorage v') = [Int.INT_MAX; 10; 20; 1] ∧
    ¬ (∀ (i j : nat) ci cj, (1 ≤ i)%nat → (i < j)%nat →
         counts (m_vocabularyStorage v') !! i = Some ci →
         counts (m_vocabularyStorage v') !! j = Some cj → cj ≤ ci).
Proof.
  split; [exact insertion_sort_contract|].
  exact (sort_leaves_counts_out_of_order insertion_sort insertion_sort_contract).
Defined.

(** C2 (the code departs from it).  The sort is to leave the count of
    every word as it was.  On [unsorted_vocabulary] the count of "b"
    goes from 8 to 20 and the count of "</s>" from 20 to [INT_MAX],
    whatever [std::sort] does within its contract. *)
Theorem sort_changes_word_counts std_sort :
  sort_contract std_sort →
  ∃ v', SortVocabularyByFrequency std_sort unsorted_vocabulary = Returns v' ∧
    count_of unsorted_vocabulary "b" = Some 8 ∧
    count_of v' "b" = Some 20 ∧
    count_of unsorted_vocabulary EOS = Some 20 ∧
    count_of v' EOS = Some Int.INT_MAX.
Proof.
  intros Hc. exists once_sorted_vocabulary.
  split; [by apply sort_unsorted_vocabulary|].
  repeat split; vm_compute; reflexivity.
Qed.

Lemma sort_changes_word_counts_witness :
  sort_contract insertion_sort ∧
  ∃ v', SortVocabularyByFrequency insertion_sort unsorted_vocabulary = Returns v' ∧
    count_of unsorted_vocabulary "b" = Some 8 ∧
    count_of v' "b" = Some 20 ∧
    count_of unsorted_vocabulary EOS = Some 20 ∧
    count_of v' EOS = Some Int.INT_MAX.
Proof.
  split; [exact insertion_sort_contract|].
  exact (sort_changes_word_counts insertion_sort insertion_sort_contract).
Defined.

(** C6 (the code departs from it).  A second sort is to leave the order
    and the two maps as the first one made them.  From
    [unsorted_vocabulary] the first call leaves the words in the order
    </s>, a, b, c and the second in the order </s>, b, a, c, with the
    maps rebuilt accordingly: the first call has left 20, the count of
    "</s>", on "b". *)
Theorem sort_twice_differs_from_once std_sort :
  sort_contract std_sort →
  ∃ v1 v2,
    SortVocabularyByFrequency std_sort unsorted_vocabulary = Returns v1 ∧
    SortVocabularyByFrequency std_sort v1 = Returns v2 ∧
    words (m_vocabularyStorage v1) = [EOS; "a"; "b"; "c"]%string ∧
    words (m_vocabularyStorage v2) = [EOS; "b"; "a"; "c"]%string ∧
    SearchWordInVocabulary v1 "a" = 1 ∧ SearchWordInVocabulary v2 "a" = 2 ∧
    m_mapIndex2Word v1 !! 1 = Some "a"%string ∧
    m_mapIndex2Word v2 !! 1 = Some "b"%string.
Proof.
  intros Hc. exists once_sorted_vocabulary, twice_sorted_vocabulary.
  split; [by apply sort_unsorted_vocabulary|].
  split; [by apply sort_once_sorted_vocabulary|].
  repeat split; vm_compute; reflexivity.
Qed.

Lemma sort_twice_differs_from_once_witness :
  sort_contract insertion_sort ∧
  ∃ v1 v2,
    SortVocabularyByFrequency insertion_sort unsorted_vocabulary = Returns v1 ∧
    SortVocabularyByFrequency insertion_sort v1 = Returns v2 ∧
    words (m_vocabularyStorage v1) = [EOS; "a"; "b"; "c"]%string ∧
    words (m_vocabularyStorage v2) = [EOS; "b"; "a"; "c"]%string ∧
    SearchWordInVocabulary v1 "a" = 1 ∧ SearchWordInVocabulary v2 "a" = 2 ∧
    m_mapIndex2Word v1 !! 1 = Some "a"%string ∧
    m_mapIndex2Word v2 !! 1 = Some "b"%string.
Proof.
  split; [exact insertion_sort_contract|].
  exact (sort_twice_differs_from_once insertion_sort insertion_sort_contract).
Defined.

(** ** What the sort does achieve *)

(** The entry that holds [INT_MAX] comes first in every ordered
    rearrangement, when every other count is below [INT_MAX]. *)
Lemma sorted_head_is_max x (l s : list VocabWord) :
  cn x = Int.INT_MAX →
  Forall (λ y, cn y < Int.INT_MAX) l →
  s ≡ₚ x :: l → StronglySorted count_ge s →
  ∃ s', s = x :: s' ∧ s' ≡ₚ l.
Proof.
  intros Hx Hl Hperm Hsorted.
  destruct s as [|y s]; [by apply Permutation_nil_cons in Hperm|].
  apply StronglySorted_cons in Hsorted as [Hy _].
  rewrite Forall_forall in Hy, Hl.
  assert (y = x) as ->.
  { assert (y ∈ x :: l) as [->|Hyl]%elem_of_cons by (rewrite <- Hperm; left);
      [done|].
    assert (x ∈ y :: s) as [->|Hxs]%elem_of_cons by (rewrite Hperm; left);
      [done|].
    specialize (Hl y Hyl). specialize (Hy x Hxs). unfold count_ge in Hy. lia. }
  exists s. split; [done|]. by apply (inj (x ::.)).
Qed.

(** Whatever the index of "</s>" before the call, the call returns and
    leaves "</s>" at index 0, when no other word has the count
    [INT_MAX]. *)
Lemma sort_puts_eos_first std_sort v (i : nat) e :
  sort_contract std_sort →
  SearchWordInVocabulary v EOS = Z.of_nat i →
  m_vocabularyStorage v !! i = Some e → word e = EOS →
  (∀ (j : nat) x, j ≠ i → m_vocabularyStorage v !! j = Some x → cn x < Int.INT_MAX) →
  ∃ v', SortVocabularyByFrequency std_sort v = Returns v' ∧
    words (m_vocabularyStorage v') !! 0%nat = Some EOS ∧
    length (m_vocabularyStorage v') = length (m_vocabularyStorage v).
Proof.
  intros [Hperm Hsorted] Hi He Hword Hothers.
  set (l := m_vocabularyStorage v) in *.
  set (s1 := <[i := set_cn e Int.INT_MAX]> l).
  assert (s1 ≡ₚ set_cn e Int.INT_MAX :: (take i l ++ drop (S i) l)) as Hs1.
  { unfold s1. rewrite insert_take_drop by (by eapply lookup_lt_Some).
    by rewrite Permutation_middle. }
  destruct (sorted_head_is_max (set_cn e Int.INT_MAX) (take i l ++ drop (S i) l)
              (std_sort OrderWordCounts s1)) as (s' & Hs & Hs').
  { done. }
  { rewrite Forall_forall. intros x [Hx|Hx]%elem_of_app.
    - apply list_elem_of_lookup in Hx as [j Hj].
      pose proof (lookup_lt_Some _ _ _ Hj) as Hlt. rewrite length_take in Hlt.
      rewrite lookup_take_lt in Hj by lia. apply (Hothers j x); [lia|done].
    - apply list_elem_of_lookup in Hx as [j Hj].
      rewrite lookup_drop in Hj. apply (Hothers (S i + j)%nat x); [lia|done]. }
  { by rewrite Hperm. }
  { apply sorted_by_count_ge, Hsorted. }
  assert (length (std_sort OrderWordCounts s1) = length l) as Hlen.
  { rewrite (Hperm s1). unfold s1. by rewrite length_insert. }
  destruct (lookup_lt_is_Some_2 (std_sort OrderWordCounts s1) i) as [e' He'].
  { rewrite Hlen. by eapply lookup_lt_Some. }
  rewrite Hs in He', Hlen.
  rewrite (SortVocabularyByFrequency_steps std_sort v i e _ e' Hi He Hs He').
  eexists. split; [reflexivity|]. cbn [m_vocabularyStorage set_index_maps set_storage].
  rewrite length_insert. split; [|done].
  unfold words. rewrite list_lookup_fmap.
  destruct i as [|i]; simpl in *.
  - injection He' as <-. simpl. by rewrite Hword.
  - by rewrite Hword.
Qed.

(** When "</s>" is at index 0 before the call and no other word has the
    count [INT_MAX], the call keeps every entry with its count, leaves
    "</s>" at index 0 and the other entries in descending order of
    their counts. *)
Lemma sort_with_eos_first std_sort v e tl :
  sort_contract std_sort →
  SearchWordInVocabulary v EOS = 0 →
  m_vocabularyStorage v = e :: tl →
  Forall (λ x, cn x < Int.INT_MAX) tl →
  ∃ v' tl', SortVocabularyByFrequency std_sort v = Returns v' ∧
    m_vocabularyStorage v' = e :: tl' ∧
    tl' ≡ₚ tl ∧ StronglySorted count_ge tl' ∧
    rebuild_maps (e :: tl') 0 ∅ ∅ = (m_mapWord2Index v', m_mapIndex2Word v').
Proof.
  intros [Hperm Hsorted] Hi Hl Hothers.
  destruct (sorted_head_is_max (set_cn e Int.INT_MAX) tl
              (std_sort OrderWordCounts (set_cn e Int.INT_MAX :: tl)))
    as (s' & Hs & Hs'); [done|done|by rewrite Hperm|apply sorted_by_count_ge, Hsorted|].
  rewrite (SortVocabularyByFrequency_steps std_sort v 0 e
             (set_cn e Int.INT_MAX :: s') (set_cn e Int.INT_MAX));
    [|done|by rewrite Hl|by rewrite Hl|done].
  assert (set_cn (set_cn e Int.INT_MAX) (cn e) = e) as Heta by (by destruct e).
  cbn [insert list_insert]. rewrite Heta.
  eexists _, s'. split; [reflexivity|].
  cbn [m_vocabularyStorage m_mapWord2Index m_mapIndex2Word set_index_maps set_storage].
  split; [done|]. split; [done|]. split; [|by destruct (rebuild_maps _ _ _ _)].
  pose proof (Hsorted (set_cn e Int.INT_MAX :: tl)) as Hall.
  apply sorted_by_count_ge in Hall. rewrite Hs in Hall.
  by apply StronglySorted_cons in Hall as [_ ?].
Qed.

(** * Properties of the class assignment *)

(** ** The frequency branch *)

(** The class pointer starts within the classes and stays within them:
    every entry receives a class between the pointer it started from
    and the last class, the pointer never decreases, and it moves by at
    most one per entry. *)
Lemma frequency_classes_range b dd n l df a :
  0 ≤ a ≤ n - 1 →
  let r := frequency_classes b dd n l df a in
  a ≤ r.2 ≤ n - 1 ∧
  Forall (λ e, a ≤ classIndex e ≤ n - 1) r.1 ∧
  StronglySorted Z.le (classes r.1) ∧
  (∀ e, head r.1 = Some e → classIndex e = a) ∧
  r.2 ≤ a + Z.of_nat (length l).
Proof.
  revert df a. induction l as [|e l IH]; intros df a Ha; simpl.
  - repeat split; try lia; try constructor. intros e [=].
  - set (df1 := PrimFloat.add _ _).
    set (df2 := if PrimFloat.ltb 1 df1 then _ else _).
    set (a' := if PrimFloat.ltb _ df2 then _ else _).
    assert (a ≤ a' ≤ a + 1 ∧ a' ≤ n - 1) as Ha'.
    { unfold a'. destruct (PrimFloat.ltb _ df2); [|lia].
      destruct (Z.ltb_spec a (n - 1)); lia. }
    specialize (IH df2 a' ltac:(lia)).
    destruct (frequency_classes b dd n l df2 a') as [l1 a1]. simpl in *.
    destruct IH as (Ha1 & Hall & Hsorted & Hhead & Hlen).
    repeat split; try lia.
    + constructor; [simpl; lia|].
      eapply Forall_impl; [exact Hall|]. simpl. lia.
    + constructor; [done|].
      unfold classes. rewrite Forall_fmap.
      eapply Forall_impl; [exact Hall|]. simpl. lia.
    + by intros e0 [= <-].
Qed.

(** The loop changes the class and the probability of an entry and
    nothing else. *)
Lemma frequency_classes_frame b dd n l df a :
  words (frequency_classes b dd n l df a).1 = words l ∧
  counts (frequency_classes b dd n l df a).1 = counts l ∧
  Forall (λ e, prob e = 0%float) (frequency_classes b dd n l df a).1.
Proof.
  revert df a. induction l as [|e l IH]; intros df a; simpl; [by repeat constructor|].
  set (df2 := if PrimFloat.ltb 1 _ then _ else _).
  set (a' := if PrimFloat.ltb _ df2 then _ else _).
  specialize (IH df2 a'). destruct (frequency_classes b dd n l df2 a') as [l1 a1].
  simpl in *. destruct IH as (Hw & Hc & Hp).
  rewrite Hw, Hc. repeat split. by constructor.
Qed.

Lemma compact_classes_frame l cnum last :
  words (compact_classes l cnum last) = words l ∧
  counts (compact_classes l cnum last) = counts l ∧
  Forall (λ e, prob e = 0%float) (compact_classes l cnum last).
Proof.
  revert cnum last. induction l as [|e l IH]; intros cnum last; simpl;
    [by repeat constructor|].
  destruct (negb _); simpl;
    [destruct (IH (cnum + 1) (classIndex e)) as (Hw & Hc & Hp)
    |destruct (IH cnum last) as (Hw & Hc & Hp)];
    rewrite Hw, Hc; repeat split; by constructor.
Qed.

(** ** The vector of the words of each class *)

Lemma concat_insert_app {A} (cw : list (list A)) (c : nat) g x :
  cw !! c = Some g → concat (<[c := g ++ x]> cw) ≡ₚ concat cw ++ x.
Proof.
  revert c. induction cw as [|g0 cw IH]; intros [|c] Hc; simplify_eq/=.
  - rewrite <- !(assoc (++)). f_equiv. apply Permutation_app_comm.
  - rewrite (IH _ Hc). by rewrite (assoc (++)).
Qed.

(** Filling the classes appends every index once: to the class of its
    entry and to no other. *)
Lemma push_words_spec l : ∀ i cw,
  Forall (λ e, 0 ≤ classIndex e < Z.of_nat (length cw)) l →
  ∃ cw', push_words l i cw = Returns cw' ∧
    length cw' = length cw ∧
    concat cw' ≡ₚ concat cw ++ indices i (length l) ∧
    (∀ (c : nat) g g', cw !! c = Some g → cw' !! c = Some g' →
       ∀ j, j ∈ g' ↔ j ∈ g ∨
         (i ≤ j ∧ classes l !! Z.to_nat (j - i) = Some (Z.of_nat c))).
Proof.
  induction l as [|e l IH]; intros i cw Hall; simpl.
  - exists cw. split; [done|]. split; [done|]. split.
    { unfold indices. simpl. by rewrite (right_id [] (++)). }
    intros c g g' Hg Hg' j. simplify_eq. split; [by left|].
    intros [?|[_ Hj]]; [done|]. by rewrite lookup_nil in Hj.
  - apply Forall_cons in Hall as [[He0 He1] Hall].
    destruct (lookup_lt_is_Some_2 cw (Z.to_nat (classIndex e))) as [g0 Hg0]; [lia|].
    pose proof (proj2 (vec_get_Some cw (classIndex e) g0) (conj He0 Hg0)) as ->.
    destruct (IH (i + 1) (<[Z.to_nat (classIndex e) := g0 ++ [i]]> cw))
      as (cw' & Hpush & Hlen & Hperm & Hmem).
    { by rewrite length_insert. }
    exists cw'. split; [done|]. rewrite length_insert in Hlen. split; [done|].
    split.
    { rewrite Hperm, (concat_insert_app _ _ _ _ Hg0), <- (assoc (++)).
      f_equiv. unfold indices. simpl. rewrite <- fmap_S_seq, <- list_fmap_compose.
      apply reflexive_eq. f_equal; [lia|].
      apply list_fmap_ext. intros _ k _. simpl. lia. }
    intros c g g' Hg Hg' j.
    destruct (decide (c = Z.to_nat (classIndex e))) as [->|Hne].
    + simplify_eq.
      rewrite (Hmem (Z.to_nat (classIndex e)) (g0 ++ [i]) g');
        [|by apply list_lookup_insert_eq, (lookup_lt_Some _ _ _ Hg0)|done].
      rewrite elem_of_app, list_elem_of_singleton.
      split.
      * intros [[?| ->]|[Hj1 Hj2]]; [by left| |].
        -- right. split; [lia|]. replace (i - i) with 0 by lia. simpl.
           f_equal. lia.
        -- right. split; [lia|].
           replace (Z.to_nat (j - i)) with (S (Z.to_nat (j - (i + 1)))) by lia.
           done.
      * intros [?|[Hj1 Hj2]]; [by left; left|].
        destruct (decide (j = i)) as [->|Hji]; [by left; right|].
        right. split; [lia|].
        replace (Z.to_nat (j - i)) with (S (Z.to_nat (j - (i + 1)))) in Hj2 by lia.
        done.
    + rewrite (Hmem c g g'); [|by rewrite list_lookup_insert_ne|done].
      split.
      * intros [?|[Hj1 Hj2]]; [by left|]. right. split; [lia|].
        replace (Z.to_nat (j - i)) with (S (Z.to_nat (j - (i + 1)))) by lia.
        done.
      * intros [?|[Hj1 Hj2]]; [by left|].
        destruct (decide (j = i)) as [->|Hji].
        { replace (i - i) with 0 in Hj2 by lia. simpl in Hj2.
          simplify_eq. lia. }
        right. split; [lia|].
        replace (Z.to_nat (j - i)) with (S (Z.to_nat (j - (i + 1)))) in Hj2 by lia.
        done.
Qed.

Lemma sum_Z_app l1 l2 : sum_Z (l1 ++ l2) = sum_Z l1 + sum_Z l2.
Proof. induction l1 as [|x l1 IH]; simpl; lia. Qed.

Lemma sum_Z_perm l1 l2 : l1 ≡ₚ l2 → sum_Z l1 = sum_Z l2.
Proof. induction 1; simpl; lia. Qed.

Lemma sum_Z_class_mass storage cw :
  sum_Z (class_mass storage <$> cw) = sum_Z (count_at storage <$> concat cw).
Proof.
  induction cw as [|g cw IH]; [done|].
  rewrite fmap_cons. change (concat (g :: cw)) with (g ++ concat cw).
  rewrite fmap_app, sum_Z_app, <- IH. done.
Qed.

(** Reading the counts at the indices of a vector, in order, gives the
    counts of the vector. *)
Lemma count_at_indices storage :
  count_at storage <$> indices 0 (length storage) = counts storage.
Proof.
  apply list_eq. intros k. unfold indices, counts.
  rewrite <- list_fmap_compose, !list_lookup_fmap.
  destruct (decide (k < length storage)%nat) as [Hk|Hk].
  - rewrite lookup_seq_lt by done. simpl. rewrite Z.add_0_l.
    unfold count_at. rewrite vec_get_of_nat.
    destruct (lookup_lt_is_Some_2 storage k Hk) as [e He]. by rewrite He.
  - rewrite lookup_seq_ge by lia. rewrite lookup_ge_None_2 by lia. done.
Qed.

Lemma concat_replicate_nil {A} (n : nat) : concat (replicate n ([] : list A)) = [].
Proof. induction n as [|n IH]; [done|exact IH]. Qed.

(** The classes after [build_classWords]: one group per class, which
    together hold every index once, each in the group of its class. *)
Lemma build_classWords_spec storage n :
  0 ≤ n →
  Forall (λ e, 0 ≤ classIndex e ≤ n - 1) storage →
  ∃ cw, build_classWords storage n = Returns cw ∧
    length cw = Z.to_nat n ∧
    concat cw ≡ₚ indices 0 (length storage) ∧
    (∀ (c : nat) g j, cw !! c = Some g →
       j ∈ g ↔ 0 ≤ j ∧ classes storage !! Z.to_nat j = Some (Z.of_nat c)) ∧
    sum_Z (class_mass storage <$> cw) = sum_Z (counts storage).
Proof.
  intros Hn Hall. unfold build_classWords.
  destruct (Z.ltb_spec n 0); [lia|].
  destruct (push_words_spec storage 0 (replicate (Z.to_nat n) []))
    as (cw & Hpush & Hlen & Hperm & Hmem).
  { rewrite length_replicate. eapply Forall_impl; [exact Hall|]. simpl. lia. }
  rewrite length_replicate in Hlen.
  rewrite concat_replicate_nil in Hperm. simpl in Hperm.
  exists cw. split; [done|]. split; [done|]. split; [done|]. split.
  - intros c g j Hg.
    assert (replicate (Z.to_nat n) ([] : list Z) !! c = Some []) as Hc.
    { apply lookup_replicate_2. apply lookup_lt_Some in Hg. lia. }
    rewrite (Hmem c [] g Hc Hg j), Z.sub_0_r. split.
    + intros [Hj|Hj]; [by apply elem_of_nil in Hj|done].
    + by right.
  - rewrite sum_Z_class_mass, (sum_Z_perm _ (count_at storage <$> indices 0 (length storage))).
    + by rewrite count_at_indices.
    + by rewrite Hperm.
Qed.

Lemma total_count_from l : ∀ b,
  0 ≤ b → Forall (λ e, 0 ≤ cn e) l → b + sum_Z (counts l) ≤ Int.INT_MAX →
  fold_left (λ b e, Int.wrap (b + cn e)) l b = b + sum_Z (counts l).
Proof.
  induction l as [|e l IH]; intros b Hb Hall Hsum; simpl in *; [lia|].
  apply Forall_cons in Hall as [He Hall].
  assert (0 ≤ sum_Z (counts l)) as Hpos.
  { clear -Hall. induction Hall as [|x l Hx _ IHl]; simpl; [lia|].
    fold (counts l). fold (sum_Z (counts l)). lia. }
  fold (counts l) in Hsum |- *. fold (sum_Z (counts l)) in Hsum |- *.
  assert (Int.wrap (b + cn e) = b + cn e) as ->.
  { unfold Int.wrap, Int.INT_MAX in *. rewrite Z.mod_small; lia. }
  rewrite IH; [lia|lia|done|lia].
Qed.

(** The total that the first loop computes in an [int] is the sum of
    the counts, as long as that sum is a value of an [int]. *)
Lemma total_count_sum l :
  Forall (λ e, 0 ≤ cn e) l → sum_Z (counts l) ≤ Int.INT_MAX →
  total_count l = sum_Z (counts l).
Proof.
  intros Hall Hsum. unfold total_count.
  rewrite total_count_from; [lia|lia|done|lia].
Qed.

(** In the frequency branch with at least one class the classes are
    filled without leaving the vector, and the call returns or stops on
    its assertion according to whether a class is empty. *)
Lemma frequency_branch_classWords v :
  m_useClassFile v = false →
  1 ≤ m_numClasses v →
  ∃ cw,
    length cw = Z.to_nat (m_numClasses v) ∧
    concat cw ≡ₚ indices 0 (length (m_vocabularyStorage v)) ∧
    AssignWordsToClasses v =
      (if no_empty_class cw
       then Returns (set_classWords (set_storage v (assign_class_indices v)) cw)
       else AssertionFailure).
Proof.
  intros Hmode Hn.
  assert (assign_class_indices v
          = (frequency_branch (m_vocabularyStorage v) (m_numClasses v)).1) as Hassign.
  { unfold assign_class_indices. by rewrite Hmode. }
  destruct (frequency_classes_range (total_count (m_vocabularyStorage v))
              (total_sqrt (total_count (m_vocabularyStorage v)) (m_vocabularyStorage v))
              (m_numClasses v) (m_vocabularyStorage v) 0%float 0)
    as (_ & Hall & _); [lia|].
  destruct (frequency_classes_frame (total_count (m_vocabularyStorage v))
              (total_sqrt (total_count (m_vocabularyStorage v)) (m_vocabularyStorage v))
              (m_numClasses v) (m_vocabularyStorage v) 0%float 0)
    as (Hwords & _).
  fold (frequency_branch (m_vocabularyStorage v) (m_numClasses v)) in Hall, Hwords.
  rewrite <- Hassign in Hall, Hwords.
  destruct (build_classWords_spec (assign_class_indices v) (m_numClasses v))
    as (cw & Hbuild & Hlen & Hperm & _); [lia|done|].
  assert (length (assign_class_indices v) = length (m_vocabularyStorage v)) as Hlength.
  { rewrite <- (length_fmap word (assign_class_indices v)).
    change (word <$> assign_class_indices v) with (words (assign_class_indices v)).
    rewrite Hwords. apply length_fmap. }
  exists cw. split; [done|]. split.
  - by rewrite Hperm, Hlength.
  - unfold AssignWordsToClasses. by rewrite Hbuild.
Qed.

(** C3.  In the frequency branch with at least one class, every entry
    receives a class in [0, numClasses - 1]; the class pointer starts at
    0, never moves back and never passes numClasses - 1; words and
    counts are left as they were; the vector of classes is built
    without leaving the vector, holds one group per class, the groups
    together hold every index exactly once, each index in the group of
    its class, and the counts of the groups add up to the sum of all
    counts.  [AssignWordsToClasses] returns exactly this state unless
    its final assertion stops it. *)
Theorem frequency_assignment_partitions v :
  m_useClassFile v = false →
  1 ≤ m_numClasses v →
  let n := m_numClasses v in
  let storage := m_vocabularyStorage v in
  let r := frequency_branch storage n in
  assign_class_indices v = r.1 ∧
  Forall (λ e, 0 ≤ classIndex e ≤ n - 1) r.1 ∧
  0 ≤ r.2 ≤ n - 1 ∧
  StronglySorted Z.le (classes r.1) ∧
  (∀ e, head r.1 = Some e → classIndex e = 0) ∧
  words r.1 = words storage ∧
  counts r.1 = counts storage ∧
  ∃ cw, build_classWords r.1 n = Returns cw ∧
    length cw = Z.to_nat n ∧
    concat cw ≡ₚ indices 0 (length storage) ∧
    (∀ (c : nat) g j, cw !! c = Some g →
       j ∈ g ↔ 0 ≤ j ∧ classes r.1 !! Z.to_nat j = Some (Z.of_nat c)) ∧
    sum_Z (class_mass r.1 <$> cw) = sum_Z (counts storage) ∧
    AssignWordsToClasses v =
      (if no_empty_class cw then Returns (set_classWords (set_storage v r.1) cw)
       else AssertionFailure).
Proof.
  intros Hmode Hn n storage r.
  assert (assign_class_indices v = r.1) as Hassign.
  { unfold assign_class_indices. by rewrite Hmode. }
  destruct (frequency_classes_range (total_count storage)
              (total_sqrt (total_count storage) storage) n storage 0%float 0)
    as (Ha & Hall & Hsorted & Hhead & _); [lia|].
  destruct (frequency_classes_frame (total_count storage)
              (total_sqrt (total_count storage) storage) n storage 0%float 0)
    as (Hwords & Hcounts & _).
  fold (frequency_branch storage n) in Ha, Hall, Hsorted, Hhead, Hwords, Hcounts.
  fold r in Ha, Hall, Hsorted, Hhead, Hwords, Hcounts.
  destruct (build_classWords_spec r.1 n) as (cw & Hbuild & Hlen & Hperm & Hmem & Hsum);
    [lia|done|].
  assert (length r.1 = length storage) as Hlength.
  { rewrite <- (length_fmap word r.1). change (word <$> r.1) with (words r.1).
    rewrite Hwords. apply length_fmap. }
  split; [done|]. split; [done|]. split; [done|]. split; [done|].
  split; [done|]. split; [done|]. split; [done|].
  exists cw. split; [done|]. split; [done|].
  split; [by rewrite <- Hlength|]. split; [done|].
  split; [by rewrite Hsum, Hcounts|].
  unfold AssignWordsToClasses. rewrite Hassign. fold n. rewrite Hbuild. done.
Qed.

Lemma frequency_assignment_partitions_witness :
  let v := scenario_vocabulary 2 in
  let r := frequency_branch (m_vocabularyStorage v) 2 in
  m_useClassFile v = false ∧ 1 ≤ m_numClasses v ∧
  classes r.1 = [0; 0; 1; 1] ∧ r.2 = 1 ∧
  ∃ cw, build_classWords r.1 2 = Returns cw ∧
    concat cw ≡ₚ indices 0 4 ∧
    sum_Z (class_mass r.1 <$> cw) = 110.
Proof.
  intros v r.
  assert (m_useClassFile v = false) as Hmode by reflexivity.
  assert (1 ≤ m_numClasses v) as Hn by (simpl; lia).
  destruct (frequency_assignment_partitions v Hmode Hn) as
    (_ & _ & _ & _ & _ & _ & _ & cw & Hcw & _ & Hperm & _ & Hsum & _).
  split; [exact Hmode|]. split; [exact Hn|].
  split; [vm_compute; reflexivity|]. split; [vm_compute; reflexivity|].
  exists cw. split; [exact Hcw|]. split; [exact Hperm|exact Hsum].
Defined.

(** ** The final assertion *)

Lemma no_empty_class_Forall cw :
  no_empty_class cw = true ↔ Forall (λ g, g ≠ []) cw.
Proof.
  unfold no_empty_class. rewrite forallb_forall, Forall_forall.
  split; intros H g Hg.
  - apply list_elem_of_In, H in Hg. by destruct g.
  - apply list_elem_of_In, H in Hg. by destruct g.
Qed.

Lemma nonempty_groups_length {A} (cw : list (list A)) :
  Forall (λ g, g ≠ []) cw → (length cw ≤ length (concat cw))%nat.
Proof.
  induction 1 as [|g cw Hg _ IH]; simpl; [done|].
  rewrite length_app. destruct g; [done|]. simpl. lia.
Qed.

(** When the classes are filled without leaving the vector, every
    entry had its class within the vector. *)
Lemma push_words_returns l : ∀ i cw cw',
  push_words l i cw = Returns cw' →
  Forall (λ e, 0 ≤ classIndex e < Z.of_nat (length cw)) l.
Proof.
  induction l as [|e l IH]; intros i cw cw' Hpush; [constructor|].
  simpl in Hpush. destruct (vec_get cw (classIndex e)) as [g|] eqn:Hg; [|done].
  apply vec_get_Some in Hg as [He Hg]. apply lookup_lt_Some in Hg.
  apply IH in Hpush. rewrite length_insert in Hpush.
  constructor; [lia|done].
Qed.

Lemma build_classWords_returns storage n cw :
  build_classWords storage n = Returns cw →
  0 ≤ n ∧ Forall (λ e, 0 ≤ classIndex e ≤ n - 1) storage.
Proof.
  unfold build_classWords. destruct (Z.ltb_spec n 0); [done|].
  intros Hpush%push_words_returns. rewrite length_replicate in Hpush.
  split; [done|]. eapply Forall_impl; [exact Hpush|]. simpl. lia.
Qed.

(** C5, as the code has it.  In either mode: when
    [AssignWordsToClasses] returns, every class in [0, numClasses - 1]
    holds the index of an entry of that class; when the classes given
    to the entries lie in that interval and one of them is given to no
    entry, the call stops on its assertion.  In the frequency branch
    the assertion does stop the call whenever there are more classes
    than entries, and it never does for a vocabulary that is not empty
    and a single class. *)
Theorem assign_stops_on_empty_class v :
  let n := m_numClasses v in
  (∀ v', AssignWordsToClasses v = Returns v' →
     m_vocabularyStorage v' = assign_class_indices v ∧
     ∀ c, 0 ≤ c ≤ n - 1 →
       ∃ g i e, vec_get (m_classWords v') c = Some g ∧ i ∈ g ∧
         vec_get (m_vocabularyStorage v') i = Some e ∧ classIndex e = c) ∧
  (∀ c, Forall (λ e, 0 ≤ classIndex e ≤ n - 1) (assign_class_indices v) →
     0 ≤ c ≤ n - 1 → c ∉ classes (assign_class_indices v) →
     AssignWordsToClasses v = AssertionFailure) ∧
  (m_useClassFile v = false → Z.of_nat (length (m_vocabularyStorage v)) < n →
     AssignWordsToClasses v = AssertionFailure) ∧
  (m_useClassFile v = false → n = 1 → m_vocabularyStorage v ≠ [] →
     ∃ v', AssignWordsToClasses v = Returns v').
Proof.
  intros n. split; [|split; [|split]].
  - intros v' Hret. unfold AssignWordsToClasses in Hret. fold n in Hret.
    destruct (build_classWords (assign_class_indices v) n) as [cw| |] eqn:Hbuild;
      try done.
    simpl in Hret. destruct (no_empty_class cw) eqn:Hne; [|done].
    injection Hret as <-. simpl. split; [done|]. intros c Hc.
    apply build_classWords_returns in Hbuild as Hret. destruct Hret as [Hn Hall].
    destruct (build_classWords_spec _ _ Hn Hall) as (cw0 & Hcw0 & Hlen & _ & Hmem & _).
    rewrite Hbuild in Hcw0. injection Hcw0 as <-.
    destruct (lookup_lt_is_Some_2 cw (Z.to_nat c)) as [g Hg]; [lia|].
    apply no_empty_class_Forall in Hne. rewrite Forall_forall in Hne.
    assert (g ≠ []) as Hgne by (apply Hne, list_elem_of_lookup; eauto).
    destruct g as [|i g]; [done|].
    assert (i ∈ i :: g) as Hi by left.
    apply (Hmem _ _ _ Hg) in Hi as Hi'. destruct Hi' as [Hi0 Hi'].
    unfold classes in Hi'. rewrite list_lookup_fmap in Hi'.
    destruct (assign_class_indices v !! Z.to_nat i) as [e|] eqn:He; [|done].
    exists (i :: g), i, e.
    split; [apply vec_get_Some; split; [lia|done]|]. split; [done|].
    split; [apply vec_get_Some; split; [lia|done]|].
    simpl in Hi'. simplify_eq. lia.
  - intros c Hall Hc Hnotin. unfold AssignWordsToClasses. fold n.
    destruct (build_classWords_spec (assign_class_indices v) n)
      as (cw & Hbuild & Hlen & _ & Hmem & _); [lia|done|].
    rewrite Hbuild. simpl.
    destruct (no_empty_class cw) eqn:Hne; [|done]. exfalso.
    destruct (lookup_lt_is_Some_2 cw (Z.to_nat c)) as [g Hg]; [lia|].
    apply no_empty_class_Forall in Hne. rewrite Forall_forall in Hne.
    assert (g ≠ []) as Hgne by (apply Hne, list_elem_of_lookup; eauto).
    destruct g as [|i g]; [done|].
    assert (i ∈ i :: g) as Hi by left.
    apply (Hmem _ _ _ Hg) in Hi as [_ Hi]. apply Hnotin.
    apply list_elem_of_lookup. exists (Z.to_nat i). rewrite Hi. f_equal. lia.
  - intros Hmode Hlt.
    destruct (frequency_branch_classWords v Hmode ltac:(fold n; lia))
      as (cw & Hlen & Hperm & ->).
    destruct (no_empty_class cw) eqn:Hne; [|done]. exfalso.
    apply no_empty_class_Forall, nonempty_groups_length in Hne.
    rewrite Hperm in Hne. unfold indices in Hne.
    rewrite length_fmap, length_seq in Hne. fold n in Hlen. lia.
  - intros Hmode Hn Hstorage.
    destruct (frequency_branch_classWords v Hmode ltac:(fold n; lia))
      as (cw & Hlen & Hperm & ->).
    fold n in Hlen. rewrite Hn in Hlen.
    destruct cw as [|g [|??]]; try done.
    assert (g ≠ []) as Hg.
    { intros ->. simpl in Hperm. symmetry in Hperm.
      apply Permutation_nil_r in Hperm. unfold indices in Hperm.
      destruct (m_vocabularyStorage v); done. }
    destruct g; [done|]. simpl. eauto.
Qed.

(** C5, counterexample.  One word and two classes, in the frequency
    branch: the word receives class 0, class 1 has no member, and the
    assertion stops the call. *)
Lemma assertion_fires_on_single_word :
  m_useClassFile single_word_vocabulary = false ∧
  m_vocabularyStorage single_word_vocabulary ≠ [] ∧
  1 ≤ m_numClasses single_word_vocabulary ∧
  AssignWordsToClasses single_word_vocabulary = AssertionFailure.
Proof.
  split; [reflexivity|]. split; [discriminate|].
  split; [simpl; lia|]. vm_compute. reflexivity.
Qed.

(** ** The class-file branch *)

(** After an entry the loop goes on from the class that the entry
    received and from the class index that the entry had. *)
Lemma compact_classes_cons e l cnum last :
  let c := if classIndex e =? last then cnum else cnum + 1 in
  compact_classes (e :: l) cnum last
  = set_prob (set_class e c) 0%float :: compact_classes l c (classIndex e).
Proof.
  simpl. destruct (Z.eqb_spec (classIndex e) last) as [->|Hne]; simpl; done.
Qed.

Lemma compact_classes_length l : ∀ cnum last,
  length (compact_classes l cnum last) = length l.
Proof.
  induction l as [|e l IH]; intros cnum last; [done|].
  rewrite compact_classes_cons. simpl. by rewrite IH.
Qed.

Lemma compact_classes_lookup l cnum last (i : nat) c :
  classes (compact_classes l cnum last) !! i = Some c →
  ∃ p, classes l !! i = Some p.
Proof.
  intros Hc%lookup_lt_Some. apply lookup_lt_is_Some_2.
  unfold classes in *. rewrite length_fmap in *.
  by rewrite compact_classes_length in Hc.
Qed.

(** From one entry to the next the new class grows by one when the old
    class changes and stays when it does not. *)
Lemma compact_classes_step l : ∀ cnum last (i : nat) p q c,
  classes l !! i = Some p → classes l !! S i = Some q →
  classes (compact_classes l cnum last) !! i = Some c →
  classes (compact_classes l cnum last) !! S i
  = Some (if decide (p = q) then c else c + 1).
Proof.
  induction l as [|e l IH]; intros cnum last i p q c Hp Hq Hc; [done|].
  rewrite compact_classes_cons in Hc |- *.
  destruct i as [|i].
  - destruct l as [|e' l]; [done|]. rewrite compact_classes_cons.
    simpl in *. simplify_eq. f_equal.
    destruct (Z.eqb_spec (classIndex e') (classIndex e)); case_decide; done || lia.
  - simpl in *. by eapply IH.
Qed.

(** Over a stretch of [d] entries the new class grows by at most [d],
    and it does not grow exactly when the old class stays the same all
    along the stretch. *)
Lemma compact_classes_gap l cnum last (d : nat) : ∀ (i : nat) p c c',
  classes l !! i = Some p →
  classes (compact_classes l cnum last) !! i = Some c →
  classes (compact_classes l cnum last) !! (i + d)%nat = Some c' →
  c ≤ c' ≤ c + Z.of_nat d ∧
  (c' = c ↔ ∀ k : nat, (i ≤ k ≤ i + d)%nat → classes l !! k = Some p).
Proof.
  induction d as [|d IH]; intros i p c c' Hp Hc Hc'.
  - rewrite Nat.add_0_r in Hc'. simplify_eq. split; [lia|]. split; [|done].
    intros _ k Hk. by replace k with i by lia.
  - replace (i + S d)%nat with (S (i + d)) in * by lia.
    assert (i + d < length l)%nat as Hlt.
    { apply lookup_lt_Some in Hc'.
      unfold classes in Hc'. rewrite length_fmap, compact_classes_length in Hc'. lia. }
    destruct (lookup_lt_is_Some_2 (classes l) (i + d)) as [p1 Hp1];
      [unfold classes; by rewrite length_fmap|].
    destruct (lookup_lt_is_Some_2 (classes l) (S (i + d))) as [p2 Hp2].
    { apply lookup_lt_Some in Hc'. unfold classes in *.
      by rewrite length_fmap, compact_classes_length in *. }
    destruct (lookup_lt_is_Some_2 (classes (compact_classes l cnum last)) (i + d))
      as [c1 Hc1].
    { unfold classes. by rewrite length_fmap, compact_classes_length. }
    destruct (IH i p c c1 Hp Hc Hc1) as [Hrange Hiff].
    rewrite (compact_classes_step l cnum last (i + d) p1 p2 c1 Hp1 Hp2 Hc1) in Hc'.
    injection Hc' as <-. case_decide as Hpp.
    + subst p2. split; [lia|]. rewrite Hiff. split.
      * intros Hall k Hk. destruct (decide (k = S (i + d))) as [->|Hne].
        -- rewrite Hp2. rewrite <- Hp1. apply Hall. lia.
        -- apply Hall. lia.
      * intros Hall k Hk. apply Hall. lia.
    + split; [lia|]. split; [lia|].
      intros Hall. exfalso. apply Hpp.
      pose proof (Hall (i + d)%nat ltac:(lia)) as H1.
      pose proof (Hall (S (i + d)) ltac:(lia)) as H2. congruence.
Qed.

(** The new classes fill an interval: from the class of the first entry
    up to the number of blocks above the start. *)
Lemma compact_classes_values l : ∀ cnum last c,
  c ∈ classes (compact_classes l cnum last) ↔
  l ≠ [] ∧
  cnum + (match l with
          | [] => 0
          | e :: _ => if classIndex e =? last then 0 else 1
          end) ≤ c ≤ cnum + count_blocks (classes l) last.
Proof.
  induction l as [|e l IH]; intros cnum last c.
  - simpl. split; [by intros ?%elem_of_nil|by intros [? _]].
  - rewrite compact_classes_cons. cbn [classes fmap list_fmap]. simpl classIndex.
    rewrite elem_of_cons. fold (classes (compact_classes l
      (if classIndex e =? last then cnum else cnum + 1) (classIndex e))).
    rewrite IH. cbn [count_blocks]. fold (classes l).
    assert (match l with
            | [] => 0
            | e0 :: _ => if classIndex e0 =? classIndex e then 0 else 1
            end ≤ count_blocks (classes l) (classIndex e)) as Hfirst.
    { destruct l as [|e0 l]; [done|]. simpl.
      assert (0 ≤ count_blocks (classes l) (classIndex e0)); [|lia].
      clear. generalize (classIndex e0). induction l as [|e1 l IH]; intros z;
        simpl; [done|].
      specialize (IH (classIndex e1)). destruct (classIndex e1 =? z); lia. }
    assert (0 ≤ match l with
            | [] => 0
            | e0 :: _ => if classIndex e0 =? classIndex e then 0 else 1
            end ≤ 1) as Hfirst01.
    { destruct l as [|e0 l]; [lia|]. destruct (classIndex e0 =? classIndex e); lia. }
    destruct (classIndex e =? last); split.
    + intros [->|[_ H]]; (split; [done|lia]).
    + intros [_ H]. destruct l as [|e0 l]; [left; simpl in *; lia|].
      destruct (decide (c = cnum)); [by left|]. right. split; [done|]. lia.
    + intros [->|[_ H]]; (split; [done|lia]).
    + intros [_ H]. destruct l as [|e0 l]; [left; simpl in *; lia|].
      destruct (decide (c = cnum + 1)); [by left|]. right. split; [done|]. lia.
Qed.

(** C7, as the code has it.  In the class-file branch, when the first
    entry does not carry the class -1 (the value that [last] starts
    from) and the entries of each class stand next to each other: words
    and counts are kept; the first entry receives 0; from an entry to
    the next the new class grows by one exactly when the old class
    changes; the new classes never decrease along the vector; they are
    exactly 0 .. k-1, k being the number of blocks; and two entries
    receive the same new class exactly when they had the same old
    class. *)
Theorem compact_renumbers_blocks v :
  m_useClassFile v = true →
  (∀ e, head (m_vocabularyStorage v) = Some e → classIndex e ≠ -1) →
  contiguous (classes (m_vocabularyStorage v)) →
  let pre := classes (m_vocabularyStorage v) in
  let post := classes (assign_class_indices v) in
  let k := count_blocks pre (-1) in
  words (assign_class_indices v) = words (m_vocabularyStorage v) ∧
  counts (assign_class_indices v) = counts (m_vocabularyStorage v) ∧
  length post = length pre ∧
  (∀ c, post !! 0%nat = Some c → c = 0) ∧
  (∀ (i : nat) p q c, pre !! i = Some p → pre !! S i = Some q →
     post !! i = Some c →
     post !! S i = Some (if decide (p = q) then c else c + 1)) ∧
  (∀ (i j : nat) ci cj, (i ≤ j)%nat →
     post !! i = Some ci → post !! j = Some cj → ci ≤ cj) ∧
  (∀ c, c ∈ post ↔ 0 ≤ c < k) ∧
  (∀ (i j : nat) p q ci cj, pre !! i = Some p → pre !! j = Some q →
     post !! i = Some ci → post !! j = Some cj → (ci = cj ↔ p = q)).
Proof.
  intros Hmode Hfirst Hcontig pre post k.
  assert (assign_class_indices v = compact_classes (m_vocabularyStorage v) (-1) (-1))
    as Hassign by (unfold assign_class_indices; by rewrite Hmode).
  unfold post. rewrite Hassign. clear post Hassign.
  set (l := m_vocabularyStorage v) in *.
  destruct (compact_classes_frame l (-1) (-1)) as (Hw & Hc & _).
  assert (∀ (i j : nat) p q ci cj, (i ≤ j)%nat →
     pre !! i = Some p → pre !! j = Some q →
     classes (compact_classes l (-1) (-1)) !! i = Some ci →
     classes (compact_classes l (-1) (-1)) !! j = Some cj →
     ci ≤ cj ∧ (ci = cj ↔ p = q)) as Hordered.
  { intros i j p q ci cj Hij Hp Hq Hci Hcj.
    replace j with (i + (j - i))%nat in Hcj, Hq by lia.
    destruct (compact_classes_gap l (-1) (-1) (j - i) i p ci cj Hp Hci Hcj)
      as [Hrange Hiff].
    split; [lia|]. split.
    - intros Heq. symmetry in Heq.
      pose proof (proj1 Hiff Heq (i + (j - i))%nat ltac:(lia)) as Hall.
      fold pre in Hall. congruence.
    - intros <-. symmetry. apply (proj2 Hiff). intros m Hm.
      destruct (decide (m = i)) as [->|Hmi]; [done|].
      destruct (decide (m = (i + (j - i))%nat)) as [->|Hmj]; [done|].
      apply (Hcontig i m (i + (j - i))%nat p); [lia|lia|done|done]. }
  split; [done|]. split; [done|].
  split; [unfold pre, classes; rewrite !length_fmap; apply compact_classes_length|].
  split; [|split; [|split; [|split]]].
  - intros c Hc0. destruct l as [|e l'] eqn:Hl; [done|].
    rewrite compact_classes_cons in Hc0. simpl in Hc0.
    specialize (Hfirst e eq_refl).
    destruct (Z.eqb_spec (classIndex e) (-1)); [done|]. by injection Hc0 as <-.
  - intros i p q c. apply compact_classes_step.
  - intros i j ci cj Hij Hci Hcj.
    destruct (compact_classes_lookup _ _ _ _ _ Hci) as [p Hp].
    destruct (compact_classes_lookup _ _ _ _ _ Hcj) as [q Hq].
    by destruct (Hordered i j p q ci cj Hij Hp Hq Hci Hcj).
  - intros c. rewrite compact_classes_values. unfold k, pre.
    destruct l as [|e l'] eqn:Hl.
    + simpl. split; [by intros [? _]|lia].
    + specialize (Hfirst e eq_refl).
      destruct (Z.eqb_spec (classIndex e) (-1)); [done|].
      split; [intros [_ ?]; lia|intros ?; split; [done|lia]].
  - intros i j p q ci cj Hp Hq Hci Hcj.
    destruct (decide (i ≤ j)%nat) as [Hij|Hij].
    + by destruct (Hordered i j p q ci cj Hij Hp Hq Hci Hcj).
    + destruct (Hordered j i q p cj ci ltac:(lia) Hq Hp Hcj Hci) as [_ Hiff].
      split; intros; symmetry; apply Hiff; done.
Qed.

Lemma three_block_vocabulary_contiguous :
  contiguous (classes (m_vocabularyStorage three_block_vocabulary)).
Proof.
  intros i j k x Hij Hjk Hi Hk. simpl in *.
  destruct i as [|[|[|[|i]]]]; destruct k as [|[|[|[|k]]]]; simplify_eq/=; lia.
Qed.

Lemma compact_renumbers_blocks_witness :
  let v := three_block_vocabulary in
  m_useClassFile v = true ∧
  (∀ e, head (m_vocabularyStorage v) = Some e → classIndex e ≠ -1) ∧
  contiguous (classes (m_vocabularyStorage v)) ∧
  classes (assign_class_indices v) = [0; 1; 1; 2] ∧
  (∀ c, c ∈ classes (assign_class_indices v) ↔ 0 ≤ c < 3).
Proof.
  intros v.
  assert (m_useClassFile v = true) as Hmode by reflexivity.
  assert (∀ e, head (m_vocabularyStorage v) = Some e → classIndex e ≠ -1) as Hfirst.
  { intros e [= <-]. simpl. lia. }
  pose proof three_block_vocabulary_contiguous as Hcontig.
  destruct (compact_renumbers_blocks v Hmode Hfirst Hcontig)
    as (_ & _ & _ & _ & _ & _ & Hvalues & _).
  split; [exact Hmode|]. split; [exact Hfirst|]. split; [exact Hcontig|].
  split; [reflexivity|]. exact Hvalues.
Defined.

(** C7, counterexample.  Two entries with the classes -1 and 3, each
    class in one block: the first entry keeps -1 and the second
    receives 0, so that the new classes start below 0; filling the
    vector of classes then leaves the vector. *)
Lemma compact_keeps_minus_one :
  m_useClassFile negative_class_vocabulary = true ∧
  contiguous (classes (m_vocabularyStorage negative_class_vocabulary)) ∧
  classes (assign_class_indices negative_class_vocabulary) = [-1; 0] ∧
  AssignWordsToClasses negative_class_vocabulary = Undefined.
Proof.
  split; [reflexivity|]. split; [|split; reflexivity].
  intros i j k x Hij Hjk Hi Hk. simpl in *.
  destruct i as [|[|i]]; destruct k as [|[|k]]; simplify_eq/=; lia.
Qed.

(** * Properties of the class file reader *)

(** ** The reading loop *)

Lemma item_classes_words items clnum :
  (item_classes items clnum).*1 = items.*1.
Proof.
  revert clnum. induction items as [|[w n] items IH]; intros clnum; [done|].
  simpl. by rewrite IH.
Qed.

(** The loop leaves through its [return] exactly when "<s>" is read. *)
Lemma read_loop_exit items : ∀ st,
  (read_loop items st).1 = if decide (BOS ∈ items.*1) then SawBOS else ReachedEOF.
Proof.
  induction items as [|[w n] items IH]; intros st.
  - rewrite decide_False; [done|]. by intros ?%elem_of_nil.
  - cbn [read_loop]. rewrite fmap_cons. cbn [fst].
    destruct (String.eqb_spec w BOS) as [->|Hne].
    + rewrite decide_True; [done|]. left.
    + rewrite IH. apply decide_ext. rewrite elem_of_cons. naive_solver.
Qed.

Lemma foldr_max_start (l : list Z) (c m : Z) :
  foldr Z.max (Z.max c m) l = Z.max c (foldr Z.max m l).
Proof.
  induction l as [|x l IH]; simpl; [done|]. rewrite IH. lia.
Qed.

(** What the loop leaves in its variables, in terms of the pairs read
    before the first "<s>". *)
Lemma read_loop_state items : ∀ st,
  let recs := until_BOS (item_classes items (rs_clnum st)) in
  let st' := (read_loop items st).2 in
  (∀ w, rs_map st' !! w = from_option Some (rs_map st !! w) (last_class recs w)) ∧
  rs_classes st' = list_to_set recs.*2 ∪ rs_classes st ∧
  rs_words st' = list_to_set recs.*1 ∪ rs_words st ∧
  rs_eos_class st' = default (rs_eos_class st) (last_class recs EOS) ∧
  rs_max_class st' = foldr Z.max (rs_max_class st) recs.*2.
Proof.
  induction items as [|[w n] items IH]; intros st; simpl.
  - split; [done|]. split; [set_solver|]. split; [set_solver|]. done.
  - destruct (String.eqb_spec w BOS) as [->|Hne]; simpl.
    + split; [done|]. split; [set_solver|]. split; [set_solver|]. done.
    + set (c := default (rs_clnum st) n).
      set (st1 := mkReadState _ _ _ _ _ _).
      destruct (IH st1) as (Hmap & Hclasses & Hwords & Heos & Hmax).
      change (rs_clnum st1) with c in *.
      split; [|split; [|split; [|split]]].
      * intros w'. rewrite Hmap. simpl.
        destruct (last_class _ w'); [done|]. simpl.
        destruct (String.eqb_spec w w') as [->|Hww].
        -- by rewrite lookup_insert_eq.
        -- by rewrite lookup_insert_ne.
      * rewrite Hclasses. simpl. set_solver.
      * rewrite Hwords. simpl. set_solver.
      * rewrite Heos. simpl. destruct (last_class _ EOS); [done|]. simpl.
        by destruct (String.eqb w EOS).
      * rewrite Hmax. simpl rs_max_class.
        replace (if rs_max_class st <? c then c else rs_max_class st)
          with (Z.max c (rs_max_class st))
          by (destruct (Z.ltb_spec (rs_max_class st) c); lia).
        apply foldr_max_start.
Qed.

Lemma until_BOS_no_BOS recs : BOS ∉ recs.*1 → until_BOS recs = recs.
Proof.
  induction recs as [|[w c] recs IH]; intros Hno; [done|]. simpl in *.
  destruct (String.eqb_spec w BOS) as [->|Hne].
  - exfalso. apply Hno. left.
  - rewrite IH; [done|]. intros ?. apply Hno. by right.
Qed.

Lemma last_class_Some recs w :
  w ∈ recs.*1 → ∃ c, last_class recs w = Some c ∧ c ∈ recs.*2.
Proof.
  induction recs as [|[w' c'] recs IH]; intros Hin; [by apply elem_of_nil in Hin|].
  simpl in *. destruct (decide (w ∈ recs.*1)) as [Hrec|Hrec].
  - destruct (IH Hrec) as (c & -> & Hc). exists c. split; [done|]. by right.
  - apply elem_of_cons in Hin as [->|?]; [|done].
    destruct (last_class recs w') as [c|] eqn:Hlast.
    + assert (∀ rs c0, last_class rs w' = Some c0 → w' ∈ rs.*1 ∧ c0 ∈ rs.*2) as Hmem.
      { clear. induction rs as [|[w1 c1] rs IHrs]; intros c0 H; [done|].
        simpl in *. destruct (last_class rs w') as [c2|].
        - injection H as <-. destruct (IHrs c2 eq_refl). split; by right.
        - destruct (String.eqb_spec w1 w') as [->|]; [|done].
          injection H as <-. split; left. }
      by destruct (Hmem recs c Hlast).
    + rewrite String.eqb_refl. exists c'. split; [done|]. left.
Qed.

Lemma last_class_None recs w : w ∉ recs.*1 → last_class recs w = None.
Proof.
  induction recs as [|[w' c'] recs IH]; intros Hin; [done|].
  simpl in *. rewrite IH; [|intros ?; apply Hin; by right].
  destruct (String.eqb_spec w' w) as [->|]; [|done].
  exfalso. apply Hin. left.
Qed.

(** The maximum that the loop keeps is at least -1 and every class
    read; it is -1 or one of the classes read. *)
Lemma foldr_max_spec (l : list Z) (m0 : Z) :
  m0 ≤ foldr Z.max m0 l ∧
  (∀ c, c ∈ l → c ≤ foldr Z.max m0 l) ∧
  (foldr Z.max m0 l = m0 ∨ foldr Z.max m0 l ∈ l).
Proof.
  induction l as [|x l (IH1 & IH2 & IH3)]; simpl.
  - split; [lia|]. split; [by intros c ?%elem_of_nil|by left].
  - split; [lia|]. split.
    + intros c [->|Hc]%elem_of_cons; [lia|]. specialize (IH2 c Hc). lia.
    + destruct (Z.max_spec x (foldr Z.max m0 l)) as [[_ ->]|[_ ->]].
      * destruct IH3 as [?|?]; [by left|right; by right].
      * right. left.
Qed.

(** ** The exchange of the two classes *)

(** The last loop gives every word of [words] the exchanged value of
    its class and leaves the other words alone. *)
Lemma swap_classes_lookup eos_class max_class (ws : gset string) m w :
  swap_classes eos_class max_class ws m !! w
  = if decide (w ∈ ws)
    then Some (swap_value eos_class max_class (default 0 (m !! w)))
    else m !! w.
Proof.
  unfold swap_classes. revert w. revert ws.
  apply (set_fold_ind_L (λ r (X : gset string), ∀ w, r !! w =
    if decide (w ∈ X)
    then Some (swap_value eos_class max_class (default 0 (m !! w)))
    else m !! w)).
  - intros w. case_decide as H; [by apply not_elem_of_empty in H|done].
  - intros x X r Hx IH w.
    assert (swap_class eos_class max_class x r
            = <[x := swap_value eos_class max_class (default 0 (m !! x))]> r) as ->.
    { unfold swap_class, swap_value. rewrite (IH x).
      case_decide; [done|]. by repeat case_match. }
    destruct (decide (w = x)) as [->|Hne].
    + rewrite lookup_insert_eq. case_decide as H; [done|]. set_solver.
    + rewrite lookup_insert_ne by done. rewrite IH.
      repeat case_decide; try done; set_solver.
Qed.



(** The state in which [ReadClasses] leaves the vocabulary, by the way
    it leaves its loop. *)
Lemma ReadClasses_unfold clnum0 v items :
  let st := (read_loop items
    (mkReadState (m_mapWord2Class v) (m_classes v) ∅ (-1) (-1) clnum0)).2 in
  ReadClasses clnum0 v (Some items) =
    if decide (BOS ∈ items.*1) then (set_class_maps v (rs_map st) (rs_classes st), false)
    else if rs_eos_class st =? -1 then (set_class_maps v (rs_map st) (rs_classes st), false)
    else if (size (rs_map st) =? 0)%nat then (set_class_maps v (rs_map st) (rs_classes st), false)
    else (set_class_maps v
            (swap_classes (rs_eos_class st) (rs_max_class st) (rs_words st) (rs_map st))
            (rs_classes st), true).
Proof.
  intros st. unfold ReadClasses.
  pose proof (read_loop_exit items
    (mkReadState (m_mapWord2Class v) (m_classes v) ∅ (-1) (-1) clnum0)) as Hexit.
  unfold st. destruct (read_loop items _) as [exit st']. simpl in *.
  rewrite Hexit. by case_decide.
Qed.


(** The file [class_file_ok] is in the documented format; read into a
    vocabulary without classes it gives "</s>" the class 2, the largest
    of the file, and the words of class 2 the class 0 of "</s>". *)
Lemma class_file_ok_read :
  well_formed class_file_ok ∧
  let r := ReadClasses 0 (empty_vocabulary 3 true) (Some class_file_ok) in
  r.2 = true ∧
  map_to_list (m_mapWord2Class r.1)
  ≡ₚ [(EOS, 2); ("a"%string, 2); ("the"%string, 0); ("dog"%string, 0);
      ("cat"%string, 1)].
Proof.
  split.
  - split; [|split].
    + repeat (constructor; [eexists; split; [reflexivity|lia]|]). constructor.
    + simpl. unfold BOS, EOS. set_solver.
    + simpl. set_solver.
  - split; [reflexivity|]. vm_compute.
    apply NoDup_Permutation.
    + repeat (constructor; [set_solver|]). constructor.
    + repeat (constructor; [set_solver|]). constructor.
    + intros x. set_solver.
Qed.

(** C9, as the code has it.  When [ReadClasses] returns false nothing
    but the word-to-class map and the set of classes has changed: the
    vector, the two index maps, [m_classWords], [m_numClasses] and
    [m_useClassFile] are as before; the vocabulary is as before when
    the file could not be opened or was empty; otherwise the map holds,
    besides what it held, the class of every word read before the
    failure showed (before the first "<s>", or in the whole file when
    "</s>" is missing), and the set of classes holds their classes. *)
Theorem ReadClasses_failure_keeps_entries clnum0 v file v' :
  ReadClasses clnum0 v file = (v', false) →
  m_vocabularyStorage v' = m_vocabularyStorage v ∧
  m_mapWord2Index v' = m_mapWord2Index v ∧
  m_mapIndex2Word v' = m_mapIndex2Word v ∧
  m_classWords v' = m_classWords v ∧
  m_numClasses v' = m_numClasses v ∧
  m_useClassFile v' = m_useClassFile v ∧
  (file = None ∨ file = Some [] → v' = v) ∧
  (∀ items, file = Some items →
     let recs := until_BOS (item_classes items clnum0) in
     (∀ w, m_mapWord2Class v' !! w
           = from_option Some (m_mapWord2Class v !! w) (last_class recs w)) ∧
     m_classes v' = list_to_set recs.*2 ∪ m_classes v).
Proof.
  intros Hfail. destruct file as [items|].
  - rewrite ReadClasses_unfold in Hfail.
    destruct (read_loop_state items
      (mkReadState (m_mapWord2Class v) (m_classes v) ∅ (-1) (-1) clnum0))
      as (Hmap & Hclasses & _).
    simpl in Hmap, Hclasses.
    set (st := (read_loop items _).2) in *.
    assert (v' = set_class_maps v (rs_map st) (rs_classes st)) as ->.
    { repeat case_match; by simplify_eq. }
    do 6 (split; [done|]). split.
    + intros [?|[= ->]]; [done|]. by destruct v.
    + intros items' [= <-]. simpl. done.
  - injection Hfail as <-. do 6 (split; [done|]).
    split; [done|]. by intros items [=].
Qed.

Lemma ReadClasses_failure_keeps_entries_witness :
  let r := ReadClasses 0 (empty_vocabulary 2 true) (Some class_file_with_BOS) in
  r.2 = false ∧ m_mapWord2Class r.1 !! "the"%string = Some 1.
Proof.
  assert (ReadClasses 0 (empty_vocabulary 2 true) (Some class_file_with_BOS)
          = ((ReadClasses 0 (empty_vocabulary 2 true) (Some class_file_with_BOS)).1,
             false)) as H by (vm_compute; reflexivity).
  destruct (ReadClasses_failure_keeps_entries 0 _ _ _ H)
    as (_ & _ & _ & _ & _ & _ & _ & Hmap).
  destruct (Hmap class_file_with_BOS eq_refl) as [Hlookup _].
  split; [reflexivity|]. rewrite Hlookup. reflexivity.
Defined.

(** C9, counterexample.  A file with the lines "the 1", "<s> 2" and
    "</s> 0", read into a vocabulary without classes: the call returns
    false and the map holds a class for "the". *)
Lemma ReadClasses_partial_state :
  let r := ReadClasses 0 (empty_vocabulary 2 true) (Some class_file_with_BOS) in
  r.2 = false ∧
  m_mapWord2Class (empty_vocabulary 2 true) !! "the"%string = None ∧
  m_mapWord2Class r.1 !! "the"%string = Some 1 ∧
  m_mapWord2Class r.1 ≠ m_mapWord2Class (empty_vocabulary 2 true).
Proof.
  split; [reflexivity|]. split; [reflexivity|]. split; [vm_compute; reflexivity|].
  intros H. apply (f_equal (λ m : gmap string Z, m !! "the"%string)) in H.
  vm_compute in H. discriminate.
Qed.

(** C10, as the code has it.  When [ReadClasses] returns true, let the
    class of a word be the class on the last line of the file that
    names it, [eos_class] the class of "</s>" and [max_class] the
    largest of -1 and the classes read: no class read is above it, and
    it is a class read when one of them is -1 or more.  Every word of
    the file whose class is [eos_class] ends with [max_class], every
    other word of the file whose class is [max_class] ends with
    [eos_class], and every other word of the file keeps its class, so
    that nothing changes when [eos_class] is [max_class]; a word that
    the file does not name keeps what the map held for it, and when the
    map was empty before the call every word it holds is a word of the
    file. *)
Theorem ReadClasses_exchanges_classes clnum0 v items v' :
  ReadClasses clnum0 v (Some items) = (v', true) →
  let recs := item_classes items clnum0 in
  let final := m_mapWord2Class v' in
  ∃ eos_class max_class,
    last_class recs EOS = Some eos_class ∧
    max_class = foldr Z.max (-1) recs.*2 ∧
    eos_class ≤ max_class ∧
    (∀ c, c ∈ recs.*2 → c ≤ max_class) ∧
    ((∃ c, c ∈ recs.*2 ∧ -1 ≤ c) → max_class ∈ recs.*2) ∧
    (∀ w, w ∈ items.*1 → ∃ c, last_class recs w = Some c ∧
       (c = eos_class → final !! w = Some max_class) ∧
       (c ≠ eos_class → c = max_class → final !! w = Some eos_class) ∧
       (c ≠ eos_class → c ≠ max_class → final !! w = Some c) ∧
       (eos_class = max_class → final !! w = Some c)) ∧
    (∀ w, w ∉ items.*1 → final !! w = m_mapWord2Class v !! w) ∧
    (m_mapWord2Class v = ∅ → ∀ w, is_Some (final !! w) → w ∈ items.*1).
Proof.
  intros Hret recs final. rewrite ReadClasses_unfold in Hret.
  destruct (read_loop_state items
    (mkReadState (m_mapWord2Class v) (m_classes v) ∅ (-1) (-1) clnum0))
    as (Hmap & _ & Hwords & Heosc & Hmax).
  simpl in Hmap, Hwords, Heosc, Hmax.
  set (st := (read_loop items _).2) in *.
  case_decide as Hbos; [done|].
  destruct (Z.eqb_spec (rs_eos_class st) (-1)) as [|Hne]; [done|].
  destruct (size (rs_map st) =? 0)%nat; [done|].
  injection Hret as <-.
  rewrite until_BOS_no_BOS in Hmap, Hwords, Heosc, Hmax
    by (by rewrite item_classes_words).
  fold recs in Hmap, Hwords, Heosc, Hmax.
  assert (rs_words st = list_to_set items.*1) as Hws.
  { rewrite Hwords. unfold recs. rewrite item_classes_words. set_solver. }
  destruct (last_class recs EOS) as [ce|] eqn:Hlast; [|done].
  simpl in Heosc.
  assert (∀ w, final !! w =
    if decide (w ∈ items.*1)
    then Some (swap_value (rs_eos_class st) (rs_max_class st)
                 (default 0 (rs_map st !! w)))
    else rs_map st !! w) as Hfinal.
  { intros w. unfold final. simpl. rewrite swap_classes_lookup.
    apply decide_ext. rewrite Hws. set_solver. }
  assert (∀ w, w ∉ items.*1 → last_class recs w = None) as Hnone.
  { intros w Hw. apply last_class_None. unfold recs. by rewrite item_classes_words. }
  exists (rs_eos_class st), (rs_max_class st).
  split; [by rewrite Heosc|]. split; [done|]. split.
  { rewrite Hmax, Heosc. destruct (foldr_max_spec recs.*2 (-1)) as (_ & Hge & _).
    apply Hge. destruct (decide (EOS ∈ recs.*1)) as [Hin|Hin].
    - destruct (last_class_Some recs EOS Hin) as (c & Hc & Hcin). congruence.
    - by rewrite last_class_None in Hlast. }
  split.
  { intros c Hc. rewrite Hmax. by apply foldr_max_spec. }
  split.
  { intros (c0 & Hc0 & Hlow). rewrite Hmax.
    destruct (foldr_max_spec recs.*2 (-1)) as (_ & Hge & [Hm|Hm]); [|done].
    specialize (Hge c0 Hc0). rewrite Hm in Hge |- *.
    by replace (-1) with c0 by lia. }
  split; [|split].
  - intros w Hw.
    destruct (last_class_Some recs w) as (c & Hc & _);
      [unfold recs; by rewrite item_classes_words|].
    exists c. split; [done|].
    rewrite Hfinal, decide_True, Hmap, Hc by done. simpl. unfold swap_value.
    repeat split.
    + intros ->. by rewrite Z.eqb_refl.
    + intros H1 ->. destruct (Z.eqb_spec (rs_max_class st) (rs_eos_class st)); [done|].
      by rewrite Z.eqb_refl.
    + intros H1 H2. destruct (Z.eqb_spec c (rs_eos_class st)); [done|].
      by destruct (Z.eqb_spec c (rs_max_class st)).
    + intros <-. by destruct (Z.eqb_spec c (rs_eos_class st)) as [->|].
  - intros w Hw. rewrite Hfinal, decide_False, Hmap by done.
    by rewrite Hnone.
  - intros Hempty w Hsome. destruct (decide (w ∈ items.*1)) as [|Hw]; [done|].
    rewrite Hfinal, decide_False, Hmap, Hnone, Hempty in Hsome by done.
    simpl in Hsome. rewrite lookup_empty in Hsome. by destruct Hsome.
Qed.

Lemma ReadClasses_exchanges_classes_witness :
  let r := ReadClasses 0 (empty_vocabulary 3 true) (Some class_file_ok) in
  r.2 = true ∧
  m_mapWord2Class r.1 !! EOS = Some 2 ∧
  m_mapWord2Class r.1 !! "a"%string = Some 2 ∧
  m_mapWord2Class r.1 !! "the"%string = Some 0 ∧
  m_mapWord2Class r.1 !! "dog"%string = Some 0 ∧
  m_mapWord2Class r.1 !! "cat"%string = Some 1 ∧
  ∃ eos_class max_class,
    last_class (item_classes class_file_ok 0) EOS = Some eos_class ∧
    max_class = foldr Z.max (-1) (item_classes class_file_ok 0).*2 ∧
    eos_class ≤ max_class ∧
    max_class ∈ (item_classes class_file_ok 0).*2.
Proof.
  assert (ReadClasses 0 (empty_vocabulary 3 true) (Some class_file_ok)
          = ((ReadClasses 0 (empty_vocabulary 3 true) (Some class_file_ok)).1,
             true)) as H by (vm_compute; reflexivity).
  destruct (ReadClasses_exchanges_classes 0 _ _ _ H)
    as (eos_class & max_class & Heos & Hmax & Hle & _ & Hin & _).
  split; [reflexivity|]. do 5 (split; [vm_compute; reflexivity|]).
  exists eos_class, max_class. split; [exact Heos|]. split; [exact Hmax|].
  split; [exact Hle|]. apply Hin. exists 2. split; [|lia].
  by refine (bool_decide_unpack _ _).
Defined.

(** C10, counterexample.  Two calls that return true and do not exchange
    as the claim says.  In the first file every class is below -1:
    "</s>" has the class -3, the largest of the file, and ends with -1.
    The second file is read after a call that has failed and has left
    "the" with the class 1 in the map: "</s>" has the class 1 in the
    file and ends with 2, while "the", which the file does not name,
    keeps the class 1. *)
Lemma ReadClasses_exchange_misses :
  let r := ReadClasses 0 (empty_vocabulary 2 true) (Some negative_class_file) in
  let failed := ReadClasses 0 (empty_vocabulary 2 true) (Some class_file_with_BOS) in
  let retry := ReadClasses 0 failed.1 (Some class_file_retry) in
  (r.2 = true ∧
   last_class (item_classes negative_class_file 0) EOS = Some (-3) ∧
   last_class (item_classes negative_class_file 0) "the" = Some (-5) ∧
   m_mapWord2Class r.1 !! EOS = Some (-1) ∧
   m_mapWord2Class r.1 !! "the"%string = Some (-5)) ∧
  (failed.2 = false ∧
   m_mapWord2Class failed.1 !! "the"%string = Some 1 ∧
   retry.2 = true ∧
   last_class (item_classes class_file_retry 0) EOS = Some 1 ∧
   foldr Z.max (-1) (item_classes class_file_retry 0).*2 = 2 ∧
   m_mapWord2Class retry.1 !! EOS = Some 2 ∧
   m_mapWord2Class retry.1 !! "a"%string = Some 1 ∧
   m_mapWord2Class retry.1 !! "the"%string = Some 1).
Proof.
  intros r failed retry. split.
  - split; [by vm_compute|]. split; [reflexivity|]. split; [reflexivity|].
    split; by vm_compute.
  - split; [by vm_compute|]. split; [by vm_compute|]. split; [by vm_compute|].
    split; [reflexivity|]. split; [reflexivity|].
    split; [by vm_compute|]. split; by vm_compute.
Qed.

(** * Properties of the text format *)

(** ** Strings *)

Lemma append_assoc (s1 s2 s3 : string) : (s1 +:+ s2) +:+ s3 = s1 +:+ (s2 +:+ s3).
Proof.
  induction s1 as [|c s1 IH]; [done|].
  change (String c ((s1 +:+ s2) +:+ s3) = String c (s1 +:+ (s2 +:+ s3))).
  by f_equal.
Qed.

Lemma skip_space_spaces n s : skip_space (spaces n +:+ s) = skip_space s.
Proof. induction n as [|n IH]; simpl; done. Qed.

Lemma span_app_stop (p : ascii → bool) (w rest : string) :
  string_forallb p w = true →
  match rest with String c _ => p c = false | EmptyString => True end →
  span p (w +:+ rest) = (w, rest).
Proof.
  intros Hw Hrest. induction w as [|c w IH]; simpl in *.
  - destruct rest as [|c rest]; [done|]. simpl. by rewrite Hrest.
  - apply andb_prop in Hw as [-> Hw]. by rewrite (IH Hw).
Qed.

(** ** Numbers *)

Lemma digits_forallb (u : uint) :
  string_forallb is_digit (NilEmpty.string_of_uint u) = true.
Proof. induction u; simpl; done. Qed.

(** [%d] reads back what [%d] wrote, up to the first character that is
    not a digit. *)
Lemma scan_print_int z rest :
  no_digit_head rest → scan_int (print_int z +:+ rest) = Some (z, rest).
Proof.
  intros Hrest.
  assert (∀ u, u ≠ Nil →
    ∀ neg : bool,
    (let '(ds, rest') := span is_digit (NilZero.string_of_uint u +:+ rest) in
     match NilZero.uint_of_string ds with
     | Some u' => Some (if neg then - Z.of_uint u' else Z.of_uint u', rest')
     | None => None
     end) = Some (if neg then - Z.of_uint u else Z.of_uint u, rest)) as Hdigits.
  { intros u Hu neg.
    assert (NilZero.string_of_uint u = NilEmpty.string_of_uint u) as Heq
      by (by destruct u).
    rewrite Heq, span_app_stop; [|apply digits_forallb|by destruct rest].
    rewrite <- Heq, NilZero.usu by done. done. }
  pose proof (DecimalZ.of_to z) as Hz.
  unfold scan_int, print_int. destruct z as [|p|p]; simpl Z.to_int in *.
  - exact (Hdigits Decimal.zero ltac:(done) false).
  - pose proof (DecimalPos.Unsigned.to_uint_nonnil p) as Hnn.
    specialize (Hdigits (Pos.to_uint p) Hnn false). simpl in Hz, Hdigits.
    cbn [NilZero.string_of_int].
    destruct (Pos.to_uint p) as [|u|u|u|u|u|u|u|u|u|u] eqn:Hu; try done;
      simpl in *; rewrite Hdigits, ?Hz; done.
  - pose proof (DecimalPos.Unsigned.to_uint_nonnil p) as Hnn.
    specialize (Hdigits (Pos.to_uint p) Hnn true). simpl in Hz.
    cbn [NilZero.string_of_int]. simpl. rewrite Hdigits, Hz. done.
Qed.

Lemma scan_int_space c s : is_space c = true → scan_int (String c s) = scan_int s.
Proof. intros Hc. unfold scan_int. simpl. by rewrite Hc. Qed.

Lemma scan_int_spaces n s : scan_int (spaces n +:+ s) = scan_int s.
Proof. unfold scan_int. by rewrite skip_space_spaces. Qed.

Lemma append_nil_r (s : string) : s +:+ EmptyString = s.
Proof.
  induction s as [|c s IH]; [done|].
  change (String c (s +:+ EmptyString) = String c s). by f_equal.
Qed.

Lemma scan_int_blank pre s :
  string_forallb is_space pre = true →
  scan_int (pre +:+ s) = scan_int s.
Proof.
  intros Hpre. induction pre as [|c pre IH]; [done|].
  simpl in Hpre. apply andb_prop in Hpre as [Hc Hpre].
  change (String c pre +:+ s) with (String c (pre +:+ s)).
  rewrite scan_int_space by done. by apply IH.
Qed.

(** After white space, [%d] reads back the number that was written. *)
Lemma scan_d_blank_print pre (width : nat) z rest :
  string_forallb is_space pre = true →
  Int.in_range z → no_digit_head rest →
  scan_d (pre +:+ print_int_width width z +:+ rest) = Returns (Some z, rest).
Proof.
  intros Hpre [Hlo Hhi] Hrest. unfold scan_d, print_int_width.
  rewrite scan_int_blank, append_assoc, scan_int_spaces, scan_print_int by done.
  destruct (Z.leb_spec Int.INT_MIN z); [|lia].
  destruct (Z.leb_spec z Int.INT_MAX); [|lia]. done.
Qed.

(** ** Words *)

Lemma string_forallb_impl (p q : ascii → bool) s :
  (∀ c, p c = true → q c = true) →
  string_forallb p s = true → string_forallb q s = true.
Proof.
  intros Hpq. induction s as [|c s IH]; simpl; [done|].
  intros [Hc Hs]%andb_prop. by rewrite (Hpq c Hc), (IH Hs).
Qed.

Lemma is_token_spec w :
  is_token w = true →
  (∃ c s, w = String c s ∧ is_space c = false) ∧
  string_forallb (λ c, negb (is_space c)) w = true ∧
  c_str w = w ∧
  (String.length w < 2048)%nat.
Proof.
  unfold is_token. intros [[Hne Hall]%andb_prop Hlen]%andb_prop.
  assert (string_forallb (λ c, negb (is_space c)) w = true) as Hsp.
  { eapply string_forallb_impl; [|exact Hall]. by intros c [? _]%andb_prop. }
  split; [|split; [done|split]].
  - destruct w as [|c s]; [done|]. exists c, s. split; [done|].
    simpl in Hsp. apply andb_prop in Hsp as [Hc _]. by destruct (is_space c).
  - unfold c_str. rewrite <- (append_nil_r w) at 1.
    rewrite span_app_stop; [done| |done].
    eapply string_forallb_impl; [|exact Hall]. by intros c [_ ?]%andb_prop.
  - by apply Nat.ltb_lt.
Qed.

(** [%s] reads back a token that [%s] wrote after a tab. *)
Lemma scan_token_word w rest :
  is_token w = true → space_head rest →
  scan_token (TAB +:+ w +:+ rest) = (w, rest).
Proof.
  intros Hw Hrest. destruct (is_token_spec w Hw) as ((c & s & -> & Hc) & Hall & _).
  unfold scan_token. simpl. rewrite Hc. simpl.
  simpl in Hall. rewrite Hc in Hall. simpl in Hall.
  rewrite Hc. simpl. rewrite span_app_stop; [done|done|].
  destruct rest as [|c' rest]; [done|]. simpl in *. by rewrite Hrest.
Qed.

(** ** One row, then all rows *)

Lemma load_save_rows l : ∀ a storage w2i i2w pre,
  string_forallb is_space pre = true →
  Forall storable l →
  0 ≤ a → a + Z.of_nat (length l) ≤ Int.INT_MAX + 1 →
  ∃ rest,
    load_rows (length l) a (pre +:+ save_rows l a) (storage, w2i, i2w)
    = Returns ((storage ++ ((λ e, set_prob e 0%float) <$> l),
                (rebuild_maps l a w2i i2w).1, (rebuild_maps l a w2i i2w).2), rest) ∧
    string_forallb is_space rest = true.
Proof.
  induction l as [|e l IH]; intros a storage w2i i2w pre Hpre Hall Ha Hmax.
  - exists pre. simpl. rewrite append_nil_r, (right_id [] (++)). done.
  - apply Forall_cons in Hall as [(Htok & Hcn & Hcls) Hall].
    destruct (is_token_spec _ Htok) as (_ & _ & Hcstr & Hlen).
    simpl length in *. cbn [load_rows save_rows].
    unfold save_row. rewrite Hcstr, !append_assoc.
    rewrite scan_d_blank_print;
      [|done|unfold Int.in_range, Int.INT_MIN, Int.INT_MAX in *; lia|done].
    cbn [mbind outcome_bind].
    rewrite (scan_d_blank_print TAB) by done.
    cbn [mbind outcome_bind read_var]. rewrite Z.eqb_refl. cbn [negb].
    rewrite (scan_token_word (word e)) by done.
    destruct (Nat.leb_spec 2048 (String.length (word e))); [lia|].
    rewrite Hcstr.
    rewrite (scan_d_blank_print TAB 0) by done.
    cbn [mbind outcome_bind read_var].
    destruct (IH (a + 1) (storage ++ [mkVocabWord (word e) 0%float (cn e) (classIndex e)])
                (<[word e := a]> w2i) (<[a := word e]> i2w) LF)
      as (rest & Hload & Hrest); [done|done|lia|lia|].
    exists rest. rewrite Hload. split; [|done].
    rewrite <- (assoc (++)). done.
Qed.

(** ** The maps of the loader and of the sort *)

(** The maps that the loop over the vector builds: a word is mapped to
    the index of its entry, an index to the word of its entry, and what
    the vector does not name stays as it was. *)
Lemma rebuild_maps_lookup l : ∀ a w2i i2w,
  NoDup (words l) →
  (∀ w i, (rebuild_maps l a w2i i2w).1 !! w = Some i ↔
     (∃ k : nat, words l !! k = Some w ∧ i = a + Z.of_nat k) ∨
     ((w ∉ words l) ∧ w2i !! w = Some i)) ∧
  (∀ w i, (rebuild_maps l a w2i i2w).2 !! i = Some w ↔
     (∃ k : nat, words l !! k = Some w ∧ i = a + Z.of_nat k) ∨
     ((i < a ∨ a + Z.of_nat (length l) ≤ i) ∧ i2w !! i = Some w)).
Proof.
  induction l as [|e l IH]; intros a w2i i2w Hnd.
  - simpl. split; intros w i; split.
    + intros H. right. split; [by intros ?%elem_of_nil|done].
    + intros [(k & Hk & _)|[_ H]]; [done|done].
    + intros H. right. split; [lia|done].
    + intros [(k & Hk & _)|[_ H]]; [done|done].
  - unfold words in Hnd. rewrite fmap_cons in Hnd.
    apply NoDup_cons in Hnd as [Hnotin Hnd]. fold (words l) in Hnotin, Hnd.
    destruct (IH (a + 1) (<[word e := a]> w2i) (<[a := word e]> i2w) Hnd)
      as [IH1 IH2].
    cbn [rebuild_maps]. split; intros w i.
    + rewrite IH1. unfold words. rewrite fmap_cons. fold (words l).
      rewrite elem_of_cons. split.
      * intros [(k & Hk & ->)|[Hw Hlook]].
        -- left. exists (S k). split; [done|lia].
        -- destruct (decide (w = word e)) as [->|Hne].
           ++ rewrite lookup_insert_eq in Hlook. injection Hlook as <-.
              left. exists 0%nat. split; [done|lia].
           ++ rewrite lookup_insert_ne in Hlook by done.
              right. split; [|done]. intros [?|?]; done.
      * intros [(k & Hk & ->)|[Hw Hlook]].
        -- destruct k as [|k].
           ++ simpl in Hk. injection Hk as <-. right. split; [done|].
              rewrite lookup_insert_eq. f_equal. lia.
           ++ left. exists k. split; [done|lia].
        -- right. split; [intros ?; apply Hw; by right|].
           rewrite lookup_insert_ne; [done|]. intros <-. apply Hw. by left.
    + rewrite IH2. unfold words. rewrite fmap_cons. fold (words l).
      simpl length. split.
      * intros [(k & Hk & ->)|[Hi Hlook]].
        -- left. exists (S k). split; [done|lia].
        -- destruct (decide (i = a)) as [->|Hne].
           ++ rewrite lookup_insert_eq in Hlook. injection Hlook as <-.
              left. exists 0%nat. split; [done|lia].
           ++ rewrite lookup_insert_ne in Hlook by done.
              right. split; [lia|done].
      * intros [(k & Hk & ->)|[Hi Hlook]].
        -- destruct k as [|k].
           ++ simpl in Hk. injection Hk as <-. right. split; [lia|].
              replace (a + Z.of_nat 0) with a by lia. by rewrite lookup_insert_eq.
           ++ left. exists k. split; [done|lia].
        -- right. split; [lia|]. rewrite lookup_insert_ne; [done|lia].
Qed.

Lemma maps_in_sync_NoDup v : maps_in_sync v → NoDup (words (m_vocabularyStorage v)).
Proof.
  intros [Hw2i _]. apply NoDup_alt. intros i j w Hi Hj.
  assert (m_mapWord2Index v !! w = Some (Z.of_nat i)) as H1.
  { apply Hw2i. split; [lia|]. by rewrite Nat2Z.id. }
  assert (m_mapWord2Index v !! w = Some (Z.of_nat j)) as H2.
  { apply Hw2i. split; [lia|]. by rewrite Nat2Z.id. }
  rewrite H1 in H2. injection H2. lia.
Qed.

(** For a vocabulary whose maps agree with its vector, the loop builds
    the maps that the vocabulary has. *)
Lemma rebuild_maps_in_sync v :
  maps_in_sync v →
  rebuild_maps (m_vocabularyStorage v) 0 ∅ ∅ = (m_mapWord2Index v, m_mapIndex2Word v).
Proof.
  intros Hsync. pose proof (maps_in_sync_NoDup v Hsync) as Hnd.
  destruct Hsync as [Hw2i Hi2w].
  destruct (rebuild_maps_lookup (m_vocabularyStorage v) 0 ∅ ∅ Hnd) as [H1 H2].
  destruct (rebuild_maps (m_vocabularyStorage v) 0 ∅ ∅) as [w2i i2w]. simpl in *.
  f_equal; apply map_eq; intros k; apply option_eq; intros x.
  - rewrite H1, Hw2i. split.
    + intros [(n & Hn & ->)|[_ H]]; [|by rewrite lookup_empty in H].
      split; [lia|]. by rewrite Z.add_0_l, Nat2Z.id.
    + intros [Hx Hlook]. left. exists (Z.to_nat x). split; [done|lia].
  - rewrite H2, Hi2w. split.
    + intros [(n & Hn & ->)|[_ H]]; [|by rewrite lookup_empty in H].
      split; [lia|]. by rewrite Z.add_0_l, Nat2Z.id.
    + intros [Hx Hlook]. left. exists (Z.to_nat k). split; [done|lia].
Qed.

(** A vocabulary whose words are pairwise different and whose maps are
    those that the loop over its vector builds has its maps in
    agreement with its vector. *)
Lemma maps_in_sync_by_rebuild v :
  NoDup (words (m_vocabularyStorage v)) →
  rebuild_maps (m_vocabularyStorage v) 0 ∅ ∅ = (m_mapWord2Index v, m_mapIndex2Word v) →
  maps_in_sync v.
Proof.
  intros Hnd Hmaps.
  destruct (rebuild_maps_lookup (m_vocabularyStorage v) 0 ∅ ∅ Hnd) as [H1 H2].
  rewrite Hmaps in H1, H2. simpl in H1, H2.
  split; intros w i; [rewrite H1|rewrite H2]; split.
  - intros [(k & Hk & ->)|[_ H]]; [|by rewrite lookup_empty in H].
    split; [lia|]. by rewrite Z.add_0_l, Nat2Z.id.
  - intros [Hi Hlook]. left. exists (Z.to_nat i). split; [done|lia].
  - intros [(k & Hk & ->)|[_ H]]; [|by rewrite lookup_empty in H].
    split; [lia|]. by rewrite Z.add_0_l, Nat2Z.id.
  - intros [Hi Hlook]. left. exists (Z.to_nat i). split; [done|lia].
Qed.

Lemma vec_get_fmap {A B} (f : A → B) (l : list A) i :
  vec_get (f <$> l) i = f <$> vec_get l i.
Proof. unfold vec_get. destruct (0 <=? i); [apply list_lookup_fmap|done]. Qed.

(** C8, as the code has it.  For a vocabulary whose maps agree with its
    vector, whose words are tokens (not empty, without white space or
    NUL, shorter than the buffer) and whose counts, classes and size are
    values of an [int]: the constructor, given the rows that [Save]
    writes after its header and the size of the vocabulary, returns a
    vocabulary with the same entries but for the probability, which is
    0, and with the same two maps, so that the index, the count and the
    class of every word are those of the original. *)
Theorem save_load_round_trip numClasses useClassFile v :
  maps_in_sync v →
  Forall storable (m_vocabularyStorage v) →
  GetVocabularySize v ≤ Int.INT_MAX →
  ∃ v' rest,
    (∀ fo, Save fo v = fo +:+ save_header +:+ save_rows (m_vocabularyStorage v) 0) ∧
    Vocabulary_of_FILE numClasses useClassFile
      (save_rows (m_vocabularyStorage v) 0) (GetVocabularySize v) = Returns (v', rest) ∧
    m_vocabularyStorage v' = (λ e, set_prob e 0%float) <$> m_vocabularyStorage v ∧
    m_mapWord2Index v' = m_mapWord2Index v ∧
    m_mapIndex2Word v' = m_mapIndex2Word v ∧
    ∀ w, SearchWordInVocabulary v' w = SearchWordInVocabulary v w ∧
         count_of v' w = count_of v w ∧
         class_of v' w = class_of v w.
Proof.
  intros Hsync Hall Hsize. unfold GetVocabularySize, vec_size in *.
  destruct (load_save_rows (m_vocabularyStorage v) 0 [] ∅ ∅ EmptyString eq_refl Hall)
    as (rest & Hload & _); [lia|lia|].
  rewrite (rebuild_maps_in_sync v Hsync) in Hload.
  change (EmptyString +:+ ?s) with s in Hload. cbn [fst snd app] in Hload.
  eexists _, rest. split; [done|]. split.
  { unfold Vocabulary_of_FILE.
    destruct (Z.ltb_spec (Z.of_nat (length (m_vocabularyStorage v))) 0); [lia|].
    rewrite Nat2Z.id, Hload. reflexivity. }
  cbn [m_vocabularyStorage m_mapWord2Index m_mapIndex2Word].
  simpl. split; [done|]. split; [done|]. split; [done|].
  intros w. unfold count_of, class_of, SearchWordInVocabulary. simpl.
  split; [done|]. rewrite !vec_get_fmap.
  by destruct (vec_get (m_vocabularyStorage v) _).
Qed.

Lemma unsorted_vocabulary_in_sync : maps_in_sync unsorted_vocabulary.
Proof.
  apply maps_in_sync_by_rebuild; [|vm_compute; reflexivity].
  simpl. repeat (constructor; [set_solver|]). constructor.
Qed.

Lemma save_load_round_trip_witness :
  let v := unsorted_vocabulary in
  maps_in_sync v ∧ Forall storable (m_vocabularyStorage v) ∧
  GetVocabularySize v ≤ Int.INT_MAX ∧
  ∃ v' rest,
    Vocabulary_of_FILE 0 false (save_rows (m_vocabularyStorage v) 0) 4
      = Returns (v', rest) ∧
    ∀ w, SearchWordInVocabulary v' w = SearchWordInVocabulary v w ∧
         count_of v' w = count_of v w ∧
         class_of v' w = class_of v w.
Proof.
  intros v.
  assert (Forall storable (m_vocabularyStorage v)) as Hall.
  { repeat (constructor; [repeat split; vm_compute; congruence|]). constructor. }
  assert (GetVocabularySize v ≤ Int.INT_MAX) as Hsize by (vm_compute; congruence).
  destruct (save_load_round_trip 0 false v unsorted_vocabulary_in_sync Hall Hsize)
    as (v' & rest & _ & Hload & _ & _ & _ & Hsame).
  split; [exact unsorted_vocabulary_in_sync|]. split; [exact Hall|].
  split; [exact Hsize|]. exists v', rest. split; [exact Hload|exact Hsame].
Defined.

(** C8, counterexample.  Given all that [Save] wrote, the constructor
    meets the header where it expects the first index; and given the
    rows of a vocabulary with the word "New York", it reads "New" as
    the word and meets "York" where it expects the class.  In both cases
    it reads a variable that no conversion has written. *)
Lemma round_trip_fails :
  Vocabulary_of_FILE 2 false (Save EmptyString single_word_vocabulary)
    (GetVocabularySize single_word_vocabulary) = Undefined ∧
  maps_in_sync two_token_vocabulary ∧
  Vocabulary_of_FILE 4 true
    (save_rows (m_vocabularyStorage two_token_vocabulary) 0)
    (GetVocabularySize two_token_vocabulary) = Undefined.
Proof.
  split; [vm_compute; reflexivity|]. split; [|vm_compute; reflexivity].
  apply maps_in_sync_by_rebuild; [|vm_compute; reflexivity].
  simpl. repeat (constructor; [set_solver|]). constructor.
Qed.

(** * Insertion and counting *)

(** With the maps in agreement, the word-to-index map finds a word
    exactly when an entry holds it. *)
Lemma Search_in_sync v w :
  maps_in_sync v →
  (SearchWordInVocabulary v w = -1 ↔ w ∉ words (m_vocabularyStorage v)) ∧
  (∀ i, SearchWordInVocabulary v w = i → i ≠ -1 →
        0 ≤ i < GetVocabularySize v ∧
        words (m_vocabularyStorage v) !! Z.to_nat i = Some w).
Proof.
  intros [Hw2i _]. unfold SearchWordInVocabulary.
  destruct (m_mapWord2Index v !! w) as [i|] eqn:Hlook.
  - apply Hw2i in Hlook as [Hi Hw]. split.
    + split; [lia|]. intros Hnotin. exfalso. apply Hnotin.
      apply list_elem_of_lookup. eauto.
    + intros ? <- _. split; [|done]. apply lookup_lt_Some in Hw.
      unfold words in Hw. rewrite length_fmap in Hw.
      unfold GetVocabularySize, vec_size. lia.
  - split; [|done]. split; [|done]. intros _ [k Hk]%list_elem_of_lookup.
    assert (m_mapWord2Index v !! w = Some (Z.of_nat k)) as H.
    { apply Hw2i. split; [lia|]. by rewrite Nat2Z.id. }
    by rewrite Hlook in H.
Qed.

(** The count found for a word is the count of the entry that holds
    the word. *)
Lemma count_of_in_sync v w c :
  maps_in_sync v →
  count_of v w = Some c ↔
  ∃ e, e ∈ m_vocabularyStorage v ∧ word e = w ∧ cn e = c.
Proof.
  intros Hsync. destruct (Search_in_sync v w Hsync) as [Hnone Hsome].
  pose proof Hsync as [Hw2i _].
  unfold count_of. split.
  - destruct (vec_get _ _) as [e|] eqn:He; [|done]. intros [= <-].
    apply vec_get_Some in He as [Hi He].
    exists e. split; [apply list_elem_of_lookup; eauto|]. split; [|done].
    destruct (Hsome _ eq_refl) as [_ Hw]; [lia|].
    unfold words in Hw. rewrite list_lookup_fmap, He in Hw. by injection Hw.
  - intros (e & [k Hk]%list_elem_of_lookup & <- & <-).
    assert (m_mapWord2Index v !! word e = Some (Z.of_nat k)) as H.
    { apply Hw2i. split; [lia|]. unfold words.
      by rewrite Nat2Z.id, list_lookup_fmap, Hk. }
    unfold SearchWordInVocabulary. rewrite H, vec_get_of_nat, Hk. done.
Qed.

Lemma class_of_in_sync v w c :
  maps_in_sync v →
  class_of v w = Some c ↔
  ∃ e, e ∈ m_vocabularyStorage v ∧ word e = w ∧ classIndex e = c.
Proof.
  intros Hsync. destruct (Search_in_sync v w Hsync) as [Hnone Hsome].
  pose proof Hsync as [Hw2i _].
  unfold class_of. split.
  - destruct (vec_get _ _) as [e|] eqn:He; [|done]. intros [= <-].
    apply vec_get_Some in He as [Hi He].
    exists e. split; [apply list_elem_of_lookup; eauto|]. split; [|done].
    destruct (Hsome _ eq_refl) as [_ Hw]; [lia|].
    unfold words in Hw. rewrite list_lookup_fmap, He in Hw. by injection Hw.
  - intros (e & [k Hk]%list_elem_of_lookup & <- & <-).
    assert (m_mapWord2Index v !! word e = Some (Z.of_nat k)) as H.
    { apply Hw2i. split; [lia|]. unfold words.
      by rewrite Nat2Z.id, list_lookup_fmap, Hk. }
    unfold SearchWordInVocabulary. rewrite H, vec_get_of_nat, Hk. done.
Qed.

(** What one call of [AddWordToVocabulary] does to the count of every
    word, for a vocabulary with its maps in agreement. *)
Lemma AddWordToVocabulary_counts v w :
  maps_in_sync v →
  ∃ v' i, AddWordToVocabulary v w = Returns (v', i) ∧
    count_of v' w = Some (from_option (λ c, Int.wrap (c + 1)) 1 (count_of v w)) ∧
    (∀ w', w' ≠ w →
       SearchWordInVocabulary v' w' = SearchWordInVocabulary v w' ∧
       count_of v' w' = count_of v w' ∧ class_of v' w' = class_of v w') ∧
    GetVocabularySize v' =
      GetVocabularySize v + (if decide (SearchWordInVocabulary v w = -1) then 1 else 0) ∧
    (SearchWordInVocabulary v w ≠ -1 → i = SearchWordInVocabulary v w) ∧
    (SearchWordInVocabulary v w = -1 → i = GetVocabularySize v).
Proof.
  intros Hsync. pose proof Hsync as [Hw2i _].
  destruct (Search_in_sync v w Hsync) as [_ Hfound].
  unfold AddWordToVocabulary, count_of, class_of.
  destruct (Z.eqb_spec (SearchWordInVocabulary v w) (-1)) as [Hnew|Hold].
  - eexists _, _. split; [reflexivity|].
    unfold SearchWordInVocabulary at 1. cbn [set_index_maps set_storage
      m_mapWord2Index m_vocabularyStorage].
    rewrite lookup_insert_eq, Hnew. unfold vec_size at 1.
    rewrite vec_get_of_nat, lookup_app_r, Nat.sub_diag by done.
    split; [done|]. split; [|split; [|split; [done|done]]].
    + intros w' Hne. unfold SearchWordInVocabulary. cbn.
      rewrite lookup_insert_ne by done.
      destruct (Search_in_sync v w' Hsync) as [_ Hfound'].
      unfold SearchWordInVocabulary in Hfound'.
      destruct (m_mapWord2Index v !! w') as [j|] eqn:Hj; [|done].
      apply Hw2i in Hj as [Hj0 Hj]. apply lookup_lt_Some in Hj as Hlt.
      unfold words in Hlt. rewrite length_fmap in Hlt.
      unfold vec_get. destruct (0 <=? j); [|done].
      by rewrite lookup_app_l by done.
    + unfold GetVocabularySize, vec_size. cbn [set_index_maps set_storage
        m_vocabularyStorage]. rewrite length_app. simpl length.
      rewrite decide_True by done. lia.
  - destruct (Hfound _ eq_refl Hold) as [Hrange Hw].
    unfold words in Hw. rewrite list_lookup_fmap in Hw.
    destruct (m_vocabularyStorage v !! Z.to_nat (SearchWordInVocabulary v w))
      as [e|] eqn:He; [|done]. injection Hw as Hw.
    rewrite (proj2 (vec_get_Some _ _ e) (conj (proj1 Hrange) He)).
    eexists _, _. split; [reflexivity|].
    assert (∀ w0, SearchWordInVocabulary
       (set_storage v (<[Z.to_nat (SearchWordInVocabulary v w) :=
          set_cn e (Int.wrap (cn e + 1))]> (m_vocabularyStorage v))) w0
       = SearchWordInVocabulary v w0) as Hsame by done.
    rewrite !Hsame. cbn [set_storage m_vocabularyStorage].
    split; [|split; [|split; [|done]]].
    + rewrite (proj2 (vec_get_Some _ _ (set_cn e (Int.wrap (cn e + 1))))); [done|].
      split; [lia|]. apply list_lookup_insert_eq. by eapply lookup_lt_Some.
    + intros w' Hne. rewrite Hsame. split; [done|].
      destruct (Search_in_sync v w' Hsync) as [_ Hfound'].
      destruct (decide (SearchWordInVocabulary v w' = -1)) as [->|Hj]; [done|].
      destruct (Hfound' _ eq_refl Hj) as [Hrange' Hw'].
      assert (Z.to_nat (SearchWordInVocabulary v w')
              ≠ Z.to_nat (SearchWordInVocabulary v w)) as Hij.
      { intros Heq. rewrite Heq in Hw'. unfold words in Hw'.
        rewrite list_lookup_fmap, He in Hw'. simpl in Hw'. congruence. }
      unfold vec_get. destruct (0 <=? _); [|done].
      by rewrite list_lookup_insert_ne by done.
    + unfold GetVocabularySize, vec_size. cbn [set_storage m_vocabularyStorage].
      rewrite length_insert, decide_False by done. lia.
Qed.

Lemma occurrences_cons w w0 ws :
  occurrences w (w0 :: ws) = (if decide (w0 = w) then 1 else 0) + occurrences w ws.
Proof.
  unfold occurrences. rewrite filter_cons. case_decide; simpl length; lia.
Qed.

Lemma occurrences_nonneg w ws : 0 ≤ occurrences w ws.
Proof. unfold occurrences. lia. Qed.

Lemma occurrences_zero w ws : occurrences w ws = 0 ↔ w ∉ ws.
Proof.
  induction ws as [|w0 ws IH].
  - split; [by intros _ ?%elem_of_nil|done].
  - rewrite occurrences_cons, not_elem_of_cons.
    pose proof (occurrences_nonneg w ws). case_decide; subst.
    + split; [lia|]. by intros [? _].
    + rewrite <- IH. split; [intros; split; [done|lia]|intros [_ ?]; lia].
Qed.

(** The call leaves the words of the vector as they were, or appends the
    new word. *)
Lemma AddWordToVocabulary_words v w v' i :
  AddWordToVocabulary v w = Returns (v', i) →
  words (m_vocabularyStorage v') = words (m_vocabularyStorage v) ∨
  words (m_vocabularyStorage v') = words (m_vocabularyStorage v) ++ [w].
Proof.
  unfold AddWordToVocabulary. destruct (_ =? -1).
  - intros [= <- _]. right. unfold words. simpl. by rewrite fmap_app.
  - destruct (vec_get _ _) as [e|] eqn:He; [|done]. intros [= <- _]. left.
    apply vec_get_Some in He as [_ He]. simpl. by apply words_insert_cn.
Qed.

(** Learning a token stream adds, to the count of every word, the
    number of its occurrences in the stream, as long as no count leaves
    the range of an [int]. *)
Lemma add_words_counts ws : ∀ v,
  maps_in_sync v →
  Z.of_nat (length ws) ≤ Int.INT_MAX →
  (∀ w c, count_of v w = Some c → 0 ≤ c ∧ c + Z.of_nat (length ws) ≤ Int.INT_MAX) →
  ∃ v', add_words v ws = Returns v' ∧ maps_in_sync v' ∧
    (∀ w, count_of v' w =
          if decide (occurrences w ws = 0) then count_of v w
          else Some (default 0 (count_of v w) + occurrences w ws)) ∧
    words (m_vocabularyStorage v) `prefix_of` words (m_vocabularyStorage v').
Proof.
  induction ws as [|w0 ws IH]; intros v Hsync Hlen Hbound.
  - exists v. split; [done|]. split; [done|]. split; [|done].
    intros w. by rewrite decide_True by done.
  - cbn [add_words]. simpl length in *.
    destruct (AddWordToVocabulary_in_sync v w0 Hsync) as (v1 & i & Hadd & Hsync1 & _).
    destruct (AddWordToVocabulary_counts v w0 Hsync)
      as (v1' & i' & Hadd' & Hcount0 & Hothers & _).
    rewrite Hadd in Hadd'. injection Hadd' as <- <-.
    pose proof (AddWordToVocabulary_words v w0 v1 i Hadd) as Hwords.
    rewrite Hadd. cbn [mbind outcome_bind fst].
    assert (count_of v1 w0 = Some (default 0 (count_of v w0) + 1)) as Hcount0'.
    { rewrite Hcount0. destruct (count_of v w0) as [c|] eqn:Hc; [|done].
      simpl. destruct (Hbound w0 c Hc). f_equal.
      unfold Int.wrap, Int.INT_MAX in *. rewrite Z.mod_small; lia. }
    destruct (IH v1 Hsync1) as (v' & Hrun & Hsync' & Hcounts & Hprefix); [lia| |].
    { intros w c Hc. destruct (decide (w = w0)) as [->|Hne].
      - rewrite Hcount0' in Hc. injection Hc as <-.
        destruct (count_of v w0) as [c|] eqn:Hc; simpl; [|lia].
        destruct (Hbound w0 c Hc). lia.
      - destruct (Hothers w Hne) as (_ & Hsame & _). rewrite Hsame in Hc.
        destruct (Hbound w c Hc). lia. }
    exists v'. split; [done|]. split; [done|]. split.
    + intros w. rewrite Hcounts, occurrences_cons.
      pose proof (occurrences_nonneg w ws).
      destruct (decide (w0 = w)) as [->|Hne].
      * rewrite (decide_False (P := 1 + _ = 0)) by lia. rewrite Hcount0'.
        case_decide as Hz; simpl; f_equal; lia.
      * destruct (Hothers w ltac:(done)) as (_ & -> & _).
        rewrite Z.add_0_l. done.
    + etrans; [|exact Hprefix]. destruct Hwords as [->| ->]; [done|].
      by apply prefix_app_r.
Qed.

(** Writing a count into the entry at index [i] changes the count found
    for the word of that entry and nothing else that a lookup shows. *)
Lemma set_count_in_sync v (i : nat) e c :
  maps_in_sync v → m_vocabularyStorage v !! i = Some e →
  let v' := set_storage v (<[i := set_cn e c]> (m_vocabularyStorage v)) in
  maps_in_sync v' ∧
  (∀ w, count_of v' w = if decide (w = word e) then Some c else count_of v w) ∧
  (∀ w, class_of v' w = class_of v w).
Proof.
  intros Hsync He v'. pose proof Hsync as [Hw2i Hi2w].
  assert (maps_in_sync v') as Hsync'.
  { split; intros w j; unfold v'; cbn [set_storage m_mapWord2Index
      m_mapIndex2Word m_vocabularyStorage]; rewrite words_insert_cn by done;
      [apply Hw2i|apply Hi2w]. }
  assert (m_vocabularyStorage v' = <[i := set_cn e c]> (m_vocabularyStorage v))
    as Hst by done.
  split; [done|]. split.
  - intros w. apply option_eq. intros x.
    rewrite (count_of_in_sync v' w x Hsync'), Hst. case_decide as Hw.
    + subst w. split.
      * intros (e' & [k Hk]%list_elem_of_lookup & Hword & <-).
        destruct (decide (k = i)) as [->|Hne].
        -- rewrite list_lookup_insert_eq in Hk by (by eapply lookup_lt_Some).
           by injection Hk as <-.
        -- rewrite list_lookup_insert_ne in Hk by done. exfalso.
           pose proof (maps_in_sync_NoDup v Hsync) as Hnd.
           apply Hne. apply (NoDup_lookup _ k i (word e) Hnd); unfold words;
             rewrite list_lookup_fmap; [rewrite Hk; simpl; by rewrite Hword|by rewrite He].
      * intros [= <-]. exists (set_cn e c). split; [|done].
        apply list_elem_of_lookup. exists i.
        apply list_lookup_insert_eq. by eapply lookup_lt_Some.
    + rewrite (count_of_in_sync v w x Hsync). split.
      * intros (e' & [k Hk]%list_elem_of_lookup & Hword & Hcn).
        destruct (decide (k = i)) as [->|Hne].
        -- rewrite list_lookup_insert_eq in Hk by (by eapply lookup_lt_Some).
           injection Hk as <-. simpl in Hword. congruence.
        -- rewrite list_lookup_insert_ne in Hk by done.
           exists e'. split; [apply list_elem_of_lookup; eauto|done].
      * intros (e' & [k Hk]%list_elem_of_lookup & Hword & Hcn).
        exists e'. split; [|done]. apply list_elem_of_lookup. exists k.
        rewrite list_lookup_insert_ne; [done|]. intros ->. congruence.
  - intros w. apply option_eq. intros x.
    rewrite (class_of_in_sync v' w x Hsync'), (class_of_in_sync v w x Hsync), Hst.
    split.
    + intros (e' & [k Hk]%list_elem_of_lookup & Hword & Hcl).
      destruct (decide (k = i)) as [->|Hne].
      * rewrite list_lookup_insert_eq in Hk by (by eapply lookup_lt_Some).
        injection Hk as <-. exists e. split; [apply list_elem_of_lookup; eauto|done].
      * rewrite list_lookup_insert_ne in Hk by done.
        exists e'. split; [apply list_elem_of_lookup; eauto|done].
    + intros (e' & [k Hk]%list_elem_of_lookup & Hword & Hcl).
      destruct (decide (k = i)) as [->|Hne].
      * rewrite He in Hk. injection Hk as <-. exists (set_cn e c).
        split; [|done]. apply list_elem_of_lookup. exists i.
        apply list_lookup_insert_eq. by eapply lookup_lt_Some.
      * exists e'. split; [|done]. apply list_elem_of_lookup. exists k.
        by rewrite list_lookup_insert_ne.
Qed.

(** X1.  For a vocabulary whose maps agree with its vector,
    [AddWordToVocabulary] returns; the maps still agree with the vector;
    the word is then found at the index that the call returned, which
    is an index of the vector and holds the word; and the index found
    for any other word is as before. *)
Theorem AddWordToVocabulary_finds_word v w :
  maps_in_sync v →
  ∃ v' i, AddWordToVocabulary v w = Returns (v', i) ∧
    maps_in_sync v' ∧
    SearchWordInVocabulary v' w = i ∧
    0 ≤ i < GetVocabularySize v' ∧
    words (m_vocabularyStorage v') !! Z.to_nat i = Some w ∧
    ∀ w', w' ≠ w → SearchWordInVocabulary v' w' = SearchWordInVocabulary v w'.
Proof.
  intros Hsync.
  destruct (AddWordToVocabulary_in_sync v w Hsync) as (v' & i & Hadd & Hsync' & Hi).
  destruct (AddWordToVocabulary_counts v w Hsync) as (v1 & i1 & Hadd1 & Hc & Hothers & _).
  rewrite Hadd in Hadd1. injection Hadd1 as <- <-.
  exists v', i. split; [done|]. split; [done|]. split; [done|].
  destruct (Search_in_sync v' w Hsync') as [Hnone Hsome].
  assert (i ≠ -1) as Hne.
  { rewrite <- Hi. intros Hm. apply Hnone in Hm. apply Hm.
    destruct (count_of v' w) as [c|] eqn:Hcount; [|by destruct (count_of v w)].
    apply (count_of_in_sync v' w c Hsync') in Hcount as (e & He & <- & _).
    unfold words. by apply list_elem_of_fmap_2. }
  destruct (Hsome i Hi Hne) as [Hrange Hword].
  split; [done|]. split; [done|]. intros w' Hw'. by destruct (Hothers w' Hw').
Qed.

Lemma AddWordToVocabulary_finds_word_witness :
  maps_in_sync unsorted_vocabulary ∧
  ∃ v' i, AddWordToVocabulary unsorted_vocabulary "dog" = Returns (v', i) ∧
    maps_in_sync v' ∧ SearchWordInVocabulary v' "dog" = i.
Proof.
  split; [exact unsorted_vocabulary_in_sync|].
  destruct (AddWordToVocabulary_finds_word unsorted_vocabulary "dog"
              unsorted_vocabulary_in_sync) as (v' & i & Hadd & Hsync & Hi & _).
  exists v', i. split; [exact Hadd|]. split; [exact Hsync|exact Hi].
Defined.

(** X2.  [AddWordToVocabulary] inserts or increments: a word that is
    not found becomes the last entry with the count 1, and the size
    grows by one; a word that is found keeps its index, the size stays,
    and its count, when it is below [INT_MAX], grows by one.  The count
    and the class of every other word stay as they were. *)
Theorem AddWordToVocabulary_inserts_or_increments v w :
  maps_in_sync v →
  ∃ v' i, AddWordToVocabulary v w = Returns (v', i) ∧
    (SearchWordInVocabulary v w = -1 →
       i = GetVocabularySize v ∧ count_of v' w = Some 1 ∧
       GetVocabularySize v' = GetVocabularySize v + 1) ∧
    (∀ c, count_of v w = Some c → Int.INT_MIN ≤ c < Int.INT_MAX →
       i = SearchWordInVocabulary v w ∧
       GetVocabularySize v' = GetVocabularySize v ∧
       count_of v' w = Some (c + 1)) ∧
    (∀ w', w' ≠ w →
       count_of v' w' = count_of v w' ∧ class_of v' w' = class_of v w').
Proof.
  intros Hsync.
  destruct (AddWordToVocabulary_counts v w Hsync)
    as (v' & i & Hadd & Hc & Hothers & Hsize & Hold & Hnew).
  exists v', i. split; [done|]. split; [|split].
  - intros Hm. split; [by apply Hnew|]. split.
    + rewrite Hc. unfold count_of. rewrite Hm. done.
    + rewrite Hsize, decide_True by done. done.
  - intros c Hcount Hrange.
    assert (SearchWordInVocabulary v w ≠ -1) as Hne.
    { intros Hm. unfold count_of in Hcount. by rewrite Hm in Hcount. }
    split; [by apply Hold|]. split.
    + rewrite Hsize, decide_False by done. lia.
    + rewrite Hc, Hcount. simpl. f_equal.
      unfold Int.wrap, Int.INT_MAX, Int.INT_MIN in *.
      rewrite Z.mod_small; lia.
  - intros w' Hw'. by destruct (Hothers w' Hw') as (_ & ? & ?).
Qed.

Lemma AddWordToVocabulary_inserts_or_increments_witness :
  maps_in_sync unsorted_vocabulary ∧
  ∃ v' i, AddWordToVocabulary unsorted_vocabulary "a" = Returns (v', i) ∧
    i = 0 ∧ count_of v' "a" = Some 11 ∧ count_of v' "b" = Some 8.
Proof.
  split; [exact unsorted_vocabulary_in_sync|].
  destruct (AddWordToVocabulary_inserts_or_increments unsorted_vocabulary "a"
              unsorted_vocabulary_in_sync) as (v' & i & Hadd & _ & Hold & Hothers).
  assert (count_of unsorted_vocabulary "a" = Some 10) as Hc by (vm_compute; reflexivity).
  assert (Int.INT_MIN ≤ 10 < Int.INT_MAX) as Hr by (vm_compute; split; [discriminate|done]).
  destruct (Hold 10 Hc Hr) as (Hi & _ & Hcount).
  destruct (Hothers "b"%string ltac:(discriminate)) as [Hb _].
  exists v', i. split; [exact Hadd|]. split; [exact Hi|].
  split; [exact Hcount|]. rewrite Hb. vm_compute. reflexivity.
Defined.

(** X3.  Learning a token stream of fewer than 2^31 tokens into an
    empty vocabulary gives every word of the stream the number of its
    occurrences as count, and no other word an entry; the maps agree
    with the vector, and the first token of the stream is found at
    index 0. *)
Theorem add_words_counts_occurrences numClasses useClassFile ws :
  Z.of_nat (length ws) ≤ Int.INT_MAX →
  ∃ v, add_words (empty_vocabulary numClasses useClassFile) ws = Returns v ∧
    maps_in_sync v ∧
    (∀ w, count_of v w = if decide (w ∈ ws) then Some (occurrences w ws) else None) ∧
    (∀ w, SearchWordInVocabulary v w = -1 ↔ w ∉ ws) ∧
    (∀ w0 ws', ws = w0 :: ws' → SearchWordInVocabulary v w0 = 0).
Proof.
  intros Hlen. set (v0 := empty_vocabulary numClasses useClassFile).
  destruct (add_words_counts ws v0 (empty_vocabulary_in_sync _ _) Hlen)
    as (v & Hrun & Hsync & Hcounts & _); [done|].
  assert (∀ w, count_of v w = if decide (w ∈ ws) then Some (occurrences w ws) else None)
    as Hcount.
  { intros w. rewrite Hcounts. pose proof (occurrences_zero w ws) as Hz.
    repeat case_decide; try done; tauto. }
  exists v. split; [done|]. split; [done|]. split; [done|]. split.
  - intros w. destruct (Search_in_sync v w Hsync) as [-> _].
    specialize (Hcount w). split.
    + intros Hnotin Hin. rewrite decide_True in Hcount by done.
      apply (count_of_in_sync v w _ Hsync) in Hcount as (e & He & <- & _).
      apply Hnotin. unfold words. by apply list_elem_of_fmap_2.
    + intros Hnotin [e [-> He]]%list_elem_of_fmap.
      rewrite decide_False in Hcount by done.
      assert (count_of v (word e) = Some (cn e)) as Hsome.
      { apply count_of_in_sync; [done|]. eauto. }
      by rewrite Hcount in Hsome.
  - intros w0 ws' ->. cbn [add_words] in Hrun.
    destruct (AddWordToVocabulary_in_sync v0 w0 (empty_vocabulary_in_sync _ _))
      as (v1 & i & Hadd & Hsync1 & _).
    assert (words (m_vocabularyStorage v1) = [w0]) as Hw1.
    { unfold AddWordToVocabulary in Hadd. simpl in Hadd. by injection Hadd as <- _. }
    rewrite Hadd in Hrun. cbn [mbind outcome_bind fst] in Hrun.
    assert (∀ (l : list string) u u', maps_in_sync u → add_words u l = Returns u' →
      words (m_vocabularyStorage u) `prefix_of` words (m_vocabularyStorage u'))
      as Hprefix.
    { clear. induction l as [|w l IH]; intros u u' Hu Hl.
      - by injection Hl as <-.
      - cbn [add_words] in Hl.
        destruct (AddWordToVocabulary_in_sync u w Hu) as (u1 & j & Hadd & Hu1 & _).
        rewrite Hadd in Hl. cbn [mbind outcome_bind fst] in Hl.
        etrans; [|by eapply IH].
        destruct (AddWordToVocabulary_words u w u1 j Hadd) as [->| ->]; [done|].
        by apply prefix_app_r. }
    apply (Hprefix ws' v1 v Hsync1) in Hrun as [k Hk]. rewrite Hw1 in Hk.
    destruct Hsync as [Hw2i _]. unfold SearchWordInVocabulary.
    rewrite (proj2 (Hw2i w0 0)); [done|]. split; [lia|]. by rewrite Hk.
Qed.

Lemma add_words_counts_occurrences_witness :
  Z.of_nat (length unsorted_tokens) ≤ Int.INT_MAX ∧
  ∃ v, add_words (empty_vocabulary 0 false) unsorted_tokens = Returns v ∧
    count_of v EOS = Some 20 ∧ SearchWordInVocabulary v "a" = 0 ∧
    SearchWordInVocabulary v "dog" = -1.
Proof.
  assert (Z.of_nat (length unsorted_tokens) ≤ Int.INT_MAX) as Hlen
    by (vm_compute; discriminate).
  split; [exact Hlen|].
  destruct (add_words_counts_occurrences 0 false unsorted_tokens Hlen)
    as (v & Hrun & _ & Hcount & Hnone & Hfirst).
  exists v. split; [exact Hrun|]. split; [|split].
  - rewrite Hcount. reflexivity.
  - exact (Hfirst "a"%string _ eq_refl).
  - apply Hnone. refine (bool_decide_unpack _ _). vm_compute. exact I.
Defined.

(** X4.  [SetWordCount] on a vocabulary whose maps agree with its
    vector: for a word that is not found it returns false and leaves
    the vocabulary as it is; for a word that is found it returns true,
    the word then has the given count, and the index, the class and,
    for every other word, the count that a lookup finds are as
    before. *)
Theorem SetWordCount_sets_count v w count :
  maps_in_sync v →
  (SearchWordInVocabulary v w = -1 →
     SetWordCount v w count = Returns (v, false)) ∧
  (SearchWordInVocabulary v w ≠ -1 →
     ∃ v', SetWordCount v w count = Returns (v', true) ∧
       maps_in_sync v' ∧
       GetVocabularySize v' = GetVocabularySize v ∧
       count_of v' w = Some count ∧
       (∀ w', w' ≠ w → count_of v' w' = count_of v w') ∧
       (∀ w', SearchWordInVocabulary v' w' = SearchWordInVocabulary v w' ∧
              class_of v' w' = class_of v w')).
Proof.
  intros Hsync. unfold SetWordCount. split.
  - intros ->. done.
  - intros Hne. destruct (Search_in_sync v w Hsync) as [_ Hfound].
    destruct (Hfound _ eq_refl Hne) as [Hrange Hw].
    unfold words in Hw. rewrite list_lookup_fmap in Hw.
    destruct (m_vocabularyStorage v !! Z.to_nat (SearchWordInVocabulary v w))
      as [e|] eqn:He; [|done]. injection Hw as Hw.
    destruct (Z.ltb_spec (-1) (SearchWordInVocabulary v w)); [|lia].
    rewrite (proj2 (vec_get_Some _ _ e) (conj (proj1 Hrange) He)).
    destruct (set_count_in_sync v _ e count Hsync He) as (Hsync' & Hcount & Hclass).
    eexists. split; [reflexivity|]. split; [done|]. split.
    { unfold GetVocabularySize, vec_size. cbn [set_storage m_vocabularyStorage].
      by rewrite length_insert. }
    split; [by rewrite Hcount, decide_True|]. split.
    + intros w' Hw'. rewrite Hcount, decide_False; [done|congruence].
    + intros w'. split; [done|apply Hclass].
Qed.

Lemma SetWordCount_sets_count_witness :
  maps_in_sync unsorted_vocabulary ∧
  SetWordCount unsorted_vocabulary "dog" 7 = Returns (unsorted_vocabulary, false) ∧
  ∃ v', SetWordCount unsorted_vocabulary "b" 7 = Returns (v', true) ∧
    count_of v' "b" = Some 7.
Proof.
  split; [exact unsorted_vocabulary_in_sync|].
  destruct (SetWordCount_sets_count unsorted_vocabulary "dog" 7
              unsorted_vocabulary_in_sync) as [Hnew _].
  destruct (SetWordCount_sets_count unsorted_vocabulary "b" 7
              unsorted_vocabulary_in_sync) as [_ Hold].
  split; [apply Hnew; vm_compute; reflexivity|].
  destruct Hold as (v' & Hset & _ & _ & Hcount & _); [vm_compute; discriminate|].
  exists v'. split; [exact Hset|exact Hcount].
Defined.

(** * More on the sort *)

(** What an entry is apart from its count. *)
Lemma fmap_insert_cn {B} (f : VocabWord → B) (l : list VocabWord) (i : nat) e c :
  (∀ x c', f (set_cn x c') = f x) →
  l !! i = Some e → f <$> <[i := set_cn e c]> l = f <$> l.
Proof.
  intros Hf He. rewrite list_fmap_insert, Hf.
  apply list_insert_id. by rewrite list_lookup_fmap, He.
Qed.

(** The call returns whenever "</s>" is found at an index of the
    vector; the vector it leaves is the sorted one with one count
    overwritten, and the maps are rebuilt from it. *)
Lemma sort_returns std_sort v (i : nat) e :
  sort_contract std_sort →
  SearchWordInVocabulary v EOS = Z.of_nat i →
  m_vocabularyStorage v !! i = Some e →
  ∃ e' s3,
    std_sort OrderWordCounts (<[i := set_cn e Int.INT_MAX]> (m_vocabularyStorage v)) !! i
      = Some e' ∧
    s3 = <[i := set_cn e' (cn e)]>
           (std_sort OrderWordCounts
              (<[i := set_cn e Int.INT_MAX]> (m_vocabularyStorage v))) ∧
    SortVocabularyByFrequency std_sort v
    = Returns (set_index_maps (set_storage v s3)
                 (rebuild_maps s3 0 ∅ ∅).1 (rebuild_maps s3 0 ∅ ∅).2) ∧
    (∀ B (f : VocabWord → B), (∀ x c', f (set_cn x c') = f x) →
       f <$> s3 ≡ₚ f <$> m_vocabularyStorage v).
Proof.
  intros [Hperm Hsorted] Hi He.
  set (s1 := <[i := set_cn e Int.INT_MAX]> (m_vocabularyStorage v)).
  assert (length (std_sort OrderWordCounts s1) = length (m_vocabularyStorage v)) as Hlen.
  { rewrite (Hperm s1). unfold s1. by rewrite length_insert. }
  destruct (lookup_lt_is_Some_2 (std_sort OrderWordCounts s1) i) as [e' He'].
  { rewrite Hlen. by eapply lookup_lt_Some. }
  exists e', (<[i := set_cn e' (cn e)]> (std_sort OrderWordCounts s1)).
  split; [done|]. split; [done|]. split.
  - by rewrite (SortVocabularyByFrequency_steps std_sort v i e _ e' Hi He eq_refl He').
  - intros B f Hf. rewrite (fmap_insert_cn f _ i e' (cn e) Hf He').
    rewrite (Hperm s1). unfold s1. by rewrite (fmap_insert_cn f _ i e _ Hf He).
Qed.

Lemma class_of_pairs v w c :
  maps_in_sync v →
  class_of v w = Some c ↔
  (w, c) ∈ (λ e, (word e, classIndex e)) <$> m_vocabularyStorage v.
Proof.
  intros Hsync. rewrite (class_of_in_sync v w c Hsync), list_elem_of_fmap.
  split.
  - intros (e & He & <- & <-). by exists e.
  - intros (e & [= -> ->] & He). by exists e.
Qed.

(** A call that returns leaves the same words and maps that agree with
    the new vector. *)
Lemma sort_result_in_sync std_sort v v' :
  sort_contract std_sort →
  maps_in_sync v →
  SortVocabularyByFrequency std_sort v = Returns v' →
  maps_in_sync v' ∧
  ∀ B (f : VocabWord → B), (∀ x c', f (set_cn x c') = f x) →
    f <$> m_vocabularyStorage v' ≡ₚ f <$> m_vocabularyStorage v.
Proof.
  intros Hc Hsync Hret.
  assert (∃ (i : nat) e, SearchWordInVocabulary v EOS = Z.of_nat i ∧
            m_vocabularyStorage v !! i = Some e) as (i & e & Hi & He).
  { unfold SortVocabularyByFrequency in Hret.
    destruct (vec_get _ _) as [e|] eqn:He; [|done].
    apply vec_get_Some in He as [H0 He].
    exists (Z.to_nat (SearchWordInVocabulary v EOS)), e. split; [lia|done]. }
  destruct (sort_returns std_sort v i e Hc Hi He) as (e' & s3 & _ & _ & Hsort & Hperm).
  rewrite Hsort in Hret. injection Hret as <-. split; [|exact Hperm].
  apply maps_in_sync_by_rebuild.
  - simpl. unfold words. rewrite (Hperm _ word) by done. by apply maps_in_sync_NoDup.
  - simpl. by destruct (rebuild_maps s3 0 ∅ ∅).
Qed.

Lemma StronglySorted_lookup_le (l : list VocabWord) (i j : nat) x y :
  StronglySorted count_ge l → (i < j)%nat →
  l !! i = Some x → l !! j = Some y → cn y ≤ cn x.
Proof.
  intros Hs. revert i j. induction Hs as [|z l Hl IH Hz]; intros i j Hij Hi Hj; [done|].
  destruct i as [|i], j as [|j]; try lia; simpl in *.
  - injection Hi as <-. rewrite Forall_forall in Hz.
    apply (Hz y). apply list_elem_of_lookup. eauto.
  - apply (IH i j); [lia|done|done].
Qed.

(** The sorted range starts with the entry of "</s>", when it alone
    holds [INT_MAX]. *)
Lemma sort_shape std_sort (l : list VocabWord) (i : nat) e :
  sort_contract std_sort →
  l !! i = Some e →
  (∀ (j : nat) x, j ≠ i → l !! j = Some x → cn x < Int.INT_MAX) →
  ∃ s', std_sort OrderWordCounts (<[i := set_cn e Int.INT_MAX]> l)
        = set_cn e Int.INT_MAX :: s' ∧
        s' ≡ₚ take i l ++ drop (S i) l ∧ StronglySorted count_ge s'.
Proof.
  intros [Hperm Hsorted] He Hothers.
  set (s1 := <[i := set_cn e Int.INT_MAX]> l).
  assert (s1 ≡ₚ set_cn e Int.INT_MAX :: (take i l ++ drop (S i) l)) as Hs1.
  { unfold s1. rewrite insert_take_drop by (by eapply lookup_lt_Some).
    by rewrite Permutation_middle. }
  destruct (sorted_head_is_max (set_cn e Int.INT_MAX) (take i l ++ drop (S i) l)
              (std_sort OrderWordCounts s1)) as (s' & Hs & Hs').
  { done. }
  { rewrite Forall_forall. intros x [Hx|Hx]%elem_of_app.
    - apply list_elem_of_lookup in Hx as [j Hj].
      pose proof (lookup_lt_Some _ _ _ Hj) as Hlt. rewrite length_take in Hlt.
      rewrite lookup_take_lt in Hj by lia. apply (Hothers j x); [lia|done].
    - apply list_elem_of_lookup in Hx as [j Hj].
      rewrite lookup_drop in Hj. apply (Hothers (S i + j)%nat x); [lia|done]. }
  { by rewrite Hperm. }
  { apply sorted_by_count_ge, Hsorted. }
  exists s'. split; [done|]. split; [done|].
  pose proof (Hsorted s1) as Hall. apply sorted_by_count_ge in Hall.
  rewrite Hs in Hall. by apply StronglySorted_cons in Hall as [_ ?].
Qed.

(** The hypothesis on the other counts, read through lookups. *)
Lemma others_below_max v (i : nat) e :
  maps_in_sync v →
  m_vocabularyStorage v !! i = Some e → word e = EOS →
  (∀ w c, w ≠ EOS → count_of v w = Some c → c < Int.INT_MAX) →
  ∀ (j : nat) x, j ≠ i → m_vocabularyStorage v !! j = Some x → cn x < Int.INT_MAX.
Proof.
  intros Hsync He Hword Hothers j x Hji Hx.
  apply (Hothers (word x)).
  - intros Hwx. apply Hji.
    apply (NoDup_lookup _ j i EOS (maps_in_sync_NoDup v Hsync)); unfold words;
      rewrite list_lookup_fmap; [rewrite Hx|rewrite He]; simpl; congruence.
  - apply count_of_in_sync; [done|]. exists x.
    split; [apply list_elem_of_lookup; eauto|done].
Qed.

Lemma eos_entry v :
  maps_in_sync v → EOS ∈ words (m_vocabularyStorage v) →
  ∃ (i : nat) e, SearchWordInVocabulary v EOS = Z.of_nat i ∧
    m_vocabularyStorage v !! i = Some e ∧ word e = EOS.
Proof.
  intros Hsync Hin. destruct (Search_in_sync v EOS Hsync) as [Hnone Hsome].
  assert (SearchWordInVocabulary v EOS ≠ -1) as Hne by (rewrite Hnone; tauto).
  destruct (Hsome _ eq_refl Hne) as [Hrange Hw].
  unfold words in Hw. rewrite list_lookup_fmap in Hw.
  destruct (m_vocabularyStorage v !! Z.to_nat (SearchWordInVocabulary v EOS))
    as [e|] eqn:He; [|done].
  exists (Z.to_nat (SearchWordInVocabulary v EOS)), e.
  split; [lia|]. split; [done|]. by injection Hw.
Qed.

(** X5.  With a [std::sort] that meets its contract and maps that agree
    with the vector, a call that returns leaves the same words (in
    another order), each with its class; the rebuilt maps agree with
    the new vector, so that a word is found afterwards exactly when it
    was found before; and the members for the classes are untouched. *)
Theorem sort_keeps_words std_sort v v' :
  sort_contract std_sort →
  maps_in_sync v →
  SortVocabularyByFrequency std_sort v = Returns v' →
  words (m_vocabularyStorage v') ≡ₚ words (m_vocabularyStorage v) ∧
  GetVocabularySize v' = GetVocabularySize v ∧
  maps_in_sync v' ∧
  (∀ w, SearchWordInVocabulary v' w = -1 ↔ SearchWordInVocabulary v w = -1) ∧
  (∀ w, class_of v' w = class_of v w) ∧
  m_mapWord2Class v' = m_mapWord2Class v ∧ m_classes v' = m_classes v ∧
  m_classWords v' = m_classWords v ∧ m_numClasses v' = m_numClasses v ∧
  m_useClassFile v' = m_useClassFile v.
Proof.
  intros Hc Hsync Hret.
  assert (∃ (i : nat) e, SearchWordInVocabulary v EOS = Z.of_nat i ∧
            m_vocabularyStorage v !! i = Some e) as (i & e & Hi & He).
  { unfold SortVocabularyByFrequency in Hret.
    destruct (vec_get _ _) as [e|] eqn:He; [|done].
    apply vec_get_Some in He as [H0 He].
    exists (Z.to_nat (SearchWordInVocabulary v EOS)), e. split; [lia|done]. }
  destruct (sort_returns std_sort v i e Hc Hi He) as (e' & s3 & _ & _ & Hsort & Hperm).
  rewrite Hsort in Hret. injection Hret as <-.
  cbn [set_index_maps set_storage m_vocabularyStorage m_mapWord2Class m_classes
       m_classWords m_numClasses m_useClassFile].
  assert (words s3 ≡ₚ words (m_vocabularyStorage v)) as Hwords
    by (by apply (Hperm _ word)).
  set (v' := set_index_maps (set_storage v s3) _ _).
  assert (maps_in_sync v') as Hsync'.
  { apply maps_in_sync_by_rebuild.
    - simpl. rewrite Hwords. by apply maps_in_sync_NoDup.
    - simpl. by destruct (rebuild_maps s3 0 ∅ ∅). }
  split; [done|]. split.
  { unfold GetVocabularySize, vec_size. simpl.
    rewrite <- (length_fmap word s3), <- (length_fmap word (m_vocabularyStorage v)).
    fold (words s3). fold (words (m_vocabularyStorage v)). by rewrite Hwords. }
  split; [done|]. split; [|split; [|done]].
  - intros w. destruct (Search_in_sync v w Hsync) as [-> _].
    destruct (Search_in_sync v' w Hsync') as [-> _]. simpl. by rewrite Hwords.
  - intros w. apply option_eq. intros c.
    rewrite (class_of_pairs v' w c Hsync'), (class_of_pairs v w c Hsync). simpl.
    by rewrite (Hperm _ (λ e, (word e, classIndex e))).
Qed.

Lemma sort_keeps_words_witness :
  sort_contract insertion_sort ∧ maps_in_sync unsorted_vocabulary ∧
  ∃ v', SortVocabularyByFrequency insertion_sort unsorted_vocabulary = Returns v' ∧
    words (m_vocabularyStorage v') ≡ₚ words (m_vocabularyStorage unsorted_vocabulary) ∧
    maps_in_sync v'.
Proof.
  split; [exact insertion_sort_contract|].
  split; [exact unsorted_vocabulary_in_sync|].
  assert (SortVocabularyByFrequency insertion_sort unsorted_vocabulary
          = Returns once_sorted_vocabulary) as Hsort by (vm_compute; reflexivity).
  destruct (sort_keeps_words insertion_sort _ _ insertion_sort_contract
              unsorted_vocabulary_in_sync Hsort) as (Hwords & _ & Hsync & _).
  exists once_sorted_vocabulary. split; [exact Hsort|]. split; [exact Hwords|exact Hsync].
Defined.

(** X6.  With a [std::sort] that meets its contract and maps that agree
    with the vector, the call returns when "</s>" is a word of the
    vocabulary; when it is not, the vector is indexed at -1 and nothing
    is defined. *)
Theorem sort_needs_eos std_sort v :
  sort_contract std_sort →
  maps_in_sync v →
  (EOS ∈ words (m_vocabularyStorage v) →
     ∃ v', SortVocabularyByFrequency std_sort v = Returns v') ∧
  (EOS ∉ words (m_vocabularyStorage v) →
     SortVocabularyByFrequency std_sort v = Undefined).
Proof.
  intros Hc Hsync. destruct (Search_in_sync v EOS Hsync) as [Hnone Hsome]. split.
  - intros Hin.
    assert (SearchWordInVocabulary v EOS ≠ -1) as Hne by (rewrite Hnone; tauto).
    destruct (Hsome _ eq_refl Hne) as [Hrange Hw].
    unfold words in Hw. rewrite list_lookup_fmap in Hw.
    destruct (m_vocabularyStorage v !! Z.to_nat (SearchWordInVocabulary v EOS))
      as [e|] eqn:He; [|done].
    destruct (sort_returns std_sort v _ e Hc ltac:(symmetry; apply Z2Nat.id; lia) He)
      as (e' & s3 & _ & _ & -> & _). eauto.
  - intros Hnotin. apply Hnone in Hnotin.
    unfold SortVocabularyByFrequency. by rewrite Hnotin.
Qed.

Lemma sort_needs_eos_witness :
  sort_contract insertion_sort ∧ maps_in_sync two_token_vocabulary ∧
  SortVocabularyByFrequency insertion_sort two_token_vocabulary = Undefined.
Proof.
  assert (maps_in_sync two_token_vocabulary) as Hsync.
  { apply maps_in_sync_by_rebuild; [|vm_compute; reflexivity].
    simpl. repeat (constructor; [set_solver|]). constructor. }
  split; [exact insertion_sort_contract|]. split; [exact Hsync|].
  destruct (sort_needs_eos insertion_sort two_token_vocabulary
              insertion_sort_contract Hsync) as [_ Hno].
  apply Hno. vm_compute. set_solver.
Defined.

(** X7.  Wherever "</s>" stood before the call, it is found at index 0
    afterwards, provided the maps agree with the vector and no other
    word has the count [INT_MAX]. *)
Theorem sort_finds_eos_at_zero std_sort v :
  sort_contract std_sort →
  maps_in_sync v →
  EOS ∈ words (m_vocabularyStorage v) →
  (∀ w c, w ≠ EOS → count_of v w = Some c → c < Int.INT_MAX) →
  ∃ v', SortVocabularyByFrequency std_sort v = Returns v' ∧
    SearchWordInVocabulary v' EOS = 0 ∧
    m_mapIndex2Word v' !! 0 = Some EOS.
Proof.
  intros Hc Hsync Hin Hothers.
  destruct (eos_entry v Hsync Hin) as (i & e & Hi & He & Hword).
  destruct (sort_puts_eos_first std_sort v i e Hc Hi He Hword
              (others_below_max v i e Hsync He Hword Hothers))
    as (v' & Hsort & Hfirst & _).
  destruct (sort_result_in_sync std_sort v v' Hc Hsync Hsort) as [[Hw2i Hi2w] _].
  exists v'. split; [done|]. unfold SearchWordInVocabulary.
  rewrite (proj2 (Hw2i EOS 0)) by (split; [lia|done]).
  split; [done|]. apply Hi2w. split; [lia|done].
Qed.

Lemma sort_finds_eos_at_zero_witness :
  sort_contract insertion_sort ∧ maps_in_sync unsorted_vocabulary ∧
  EOS ∈ words (m_vocabularyStorage unsorted_vocabulary) ∧
  ∃ v', SortVocabularyByFrequency insertion_sort unsorted_vocabulary = Returns v' ∧
    SearchWordInVocabulary v' EOS = 0.
Proof.
  assert (EOS ∈ words (m_vocabularyStorage unsorted_vocabulary)) as Hin
    by (vm_compute; set_solver).
  assert (∀ w c, w ≠ EOS → count_of unsorted_vocabulary w = Some c → c < Int.INT_MAX)
    as Hothers.
  { intros w c Hw Hcount.
    apply (count_of_in_sync _ _ _ unsorted_vocabulary_in_sync) in Hcount
      as (e & He & _ & <-).
    simpl in He. unfold Int.INT_MAX.
    repeat (apply elem_of_cons in He as [->|He]; [simpl; lia|]).
    by apply elem_of_nil in He. }
  split; [exact insertion_sort_contract|].
  split; [exact unsorted_vocabulary_in_sync|]. split; [exact Hin|].
  destruct (sort_finds_eos_at_zero insertion_sort unsorted_vocabulary
              insertion_sort_contract unsorted_vocabulary_in_sync Hin Hothers)
    as (v' & Hsort & Hzero & _).
  exists v'. split; [exact Hsort|exact Hzero].
Defined.

Lemma eos_first_vocabulary_in_sync : maps_in_sync eos_first_vocabulary.
Proof.
  apply maps_in_sync_by_rebuild; [|vm_compute; reflexivity].
  simpl. repeat (constructor; [set_solver|]). constructor.
Qed.

Lemma scenario_vocabulary_in_sync n : maps_in_sync (scenario_vocabulary n).
Proof.
  apply maps_in_sync_by_rebuild; [|vm_compute; reflexivity].
  simpl. repeat (constructor; [set_solver|]). constructor.
Qed.

(** X8.  When "</s>" is found at index 0 before the call, the maps
    agree with the vector and no other word has the count [INT_MAX],
    the sort does what it is meant to do: it returns, "</s>" stays at
    index 0, every word keeps its count, and from index 1 on the counts
    are in descending order. *)
Theorem sort_orders_when_eos_first std_sort v :
  sort_contract std_sort →
  maps_in_sync v →
  SearchWordInVocabulary v EOS = 0 →
  (∀ w c, w ≠ EOS → count_of v w = Some c → c < Int.INT_MAX) →
  ∃ v', SortVocabularyByFrequency std_sort v = Returns v' ∧
    maps_in_sync v' ∧
    SearchWordInVocabulary v' EOS = 0 ∧
    (∀ w, count_of v' w = count_of v w) ∧
    (∀ (i j : nat) ci cj, (1 ≤ i)%nat → (i < j)%nat →
       counts (m_vocabularyStorage v') !! i = Some ci →
       counts (m_vocabularyStorage v') !! j = Some cj → cj ≤ ci).
Proof.
  intros Hc Hsync Hzero Hothers.
  destruct (Search_in_sync v EOS Hsync) as [_ Hsome].
  destruct (Hsome 0 Hzero ltac:(lia)) as [_ Hw]. simpl in Hw.
  destruct (m_vocabularyStorage v) as [|e tl] eqn:Hl; [done|].
  simpl in Hw. injection Hw as Hword.
  assert (m_vocabularyStorage v !! 0%nat = Some e) as He by (by rewrite Hl).
  pose proof (others_below_max v 0 e Hsync He Hword Hothers) as Hbelow.
  destruct (sort_with_eos_first std_sort v e tl Hc Hzero Hl)
    as (v' & tl' & Hsort & Hl' & Hperm & Hsorted & Hmaps).
  { rewrite Forall_forall. intros x [k Hk]%list_elem_of_lookup.
    apply (Hbelow (S k) x); [lia|]. by rewrite Hl. }
  destruct (sort_result_in_sync std_sort v v' Hc Hsync Hsort) as [Hsync' _].
  exists v'. split; [done|]. split; [done|]. split; [|split].
  - destruct Hsync' as [Hw2i _]. unfold SearchWordInVocabulary.
    rewrite (proj2 (Hw2i EOS 0)); [done|]. split; [lia|].
    by rewrite Hl'; simpl; rewrite Hword.
  - intros w. apply option_eq. intros c.
    rewrite (count_of_in_sync v' w c Hsync'), (count_of_in_sync v w c Hsync).
    rewrite Hl', Hl. by setoid_rewrite Hperm.
  - intros i j ci cj Hi Hij Hci Hcj. rewrite Hl' in Hci, Hcj.
    destruct i as [|i]; [lia|]. destruct j as [|j]; [lia|].
    unfold counts in Hci, Hcj. simpl in Hci, Hcj.
    rewrite list_lookup_fmap in Hci, Hcj.
    destruct (tl' !! i) as [x|] eqn:Hx; [|done].
    destruct (tl' !! j) as [y|] eqn:Hy; [|done].
    injection Hci as <-. injection Hcj as <-.
    apply (StronglySorted_lookup_le tl' i j x y Hsorted); [lia|done|done].
Qed.

Lemma sort_orders_when_eos_first_witness :
  sort_contract insertion_sort ∧ maps_in_sync eos_first_vocabulary ∧
  SearchWordInVocabulary eos_first_vocabulary EOS = 0 ∧
  ∃ v', SortVocabularyByFrequency insertion_sort eos_first_vocabulary = Returns v' ∧
    words (m_vocabularyStorage v') = [EOS; "the"; "cat"; "dog"]%string ∧
    ∀ w, count_of v' w = count_of eos_first_vocabulary w.
Proof.
  assert (∀ w c, w ≠ EOS → count_of eos_first_vocabulary w = Some c → c < Int.INT_MAX)
    as Hothers.
  { intros w c Hw Hcount.
    apply (count_of_in_sync _ _ _ eos_first_vocabulary_in_sync) in Hcount
      as (e & He & _ & <-).
    simpl in He. unfold Int.INT_MAX.
    repeat (apply elem_of_cons in He as [->|He]; [simpl; lia|]).
    by apply elem_of_nil in He. }
  split; [exact insertion_sort_contract|].
  split; [exact eos_first_vocabulary_in_sync|]. split; [reflexivity|].
  destruct (sort_orders_when_eos_first insertion_sort eos_first_vocabulary
              insertion_sort_contract eos_first_vocabulary_in_sync eq_refl Hothers)
    as (v' & Hsort & _ & _ & Hcounts & _).
  exists v'. split; [exact Hsort|]. split; [|exact Hcounts].
  assert (SortVocabularyByFrequency insertion_sort eos_first_vocabulary
          = Returns v') as Hsort' by exact Hsort.
  vm_compute in Hsort'. injection Hsort' as <-. reflexivity.
Defined.

(** X9.  When "</s>" is found at an index other than 0 before the call
    (maps in agreement, no other count [INT_MAX]): after the call "</s>"
    has the count [INT_MAX], and the count that "</s>" had is the count
    of the word that the sort has placed at the old index of "</s>". *)
Theorem sort_restores_at_old_index std_sort v (i : nat) c :
  sort_contract std_sort →
  maps_in_sync v →
  SearchWordInVocabulary v EOS = Z.of_nat i → (0 < i)%nat →
  count_of v EOS = Some c →
  (∀ w c', w ≠ EOS → count_of v w = Some c' → c' < Int.INT_MAX) →
  ∃ v' w', SortVocabularyByFrequency std_sort v = Returns v' ∧
    count_of v' EOS = Some Int.INT_MAX ∧
    w' ≠ EOS ∧ SearchWordInVocabulary v' w' = Z.of_nat i ∧
    count_of v' w' = Some c.
Proof.
  intros Hc Hsync Hi Hpos Hcount Hothers.
  destruct (Search_in_sync v EOS Hsync) as [_ Hsome].
  destruct (Hsome _ Hi ltac:(lia)) as [_ Hw]. rewrite Nat2Z.id in Hw.
  unfold words in Hw. rewrite list_lookup_fmap in Hw.
  destruct (m_vocabularyStorage v !! i) as [e|] eqn:He; [|done].
  injection Hw as Hword.
  assert (cn e = c) as Hcn.
  { unfold count_of in Hcount. rewrite Hi, vec_get_of_nat, He in Hcount.
    by injection Hcount. }
  destruct (sort_shape std_sort _ i e Hc He
              (others_below_max v i e Hsync He Hword Hothers))
    as (s' & Hs & Hperm & _).
  destruct (sort_returns std_sort v i e Hc Hi He) as (e' & s3 & He' & Hs3 & Hsort & Hkeep).
  rewrite Hs in He', Hs3.
  set (v' := set_index_maps (set_storage v s3) _ _) in Hsort.
  destruct (sort_result_in_sync std_sort v v' Hc Hsync Hsort) as [Hsync' _].
  assert (m_vocabularyStorage v' = s3) as Hst by done.
  destruct i as [|i]; [lia|]. simpl in He', Hs3.
  assert (word e' ≠ EOS) as Hne.
  { intros Heq. pose proof (maps_in_sync_NoDup v' Hsync') as Hnd.
    rewrite Hst, Hs3 in Hnd.
    assert (0 = S i)%nat; [|done].
    apply (NoDup_lookup _ 0 (S i) EOS Hnd); unfold words; rewrite list_lookup_fmap;
      simpl; [by rewrite Hword|].
    rewrite list_lookup_insert_eq by (by eapply lookup_lt_Some). simpl. by rewrite Heq. }
  exists v', (word e'). split; [done|].
  assert (s3 !! 0%nat = Some (set_cn e Int.INT_MAX)) as H0 by (by rewrite Hs3).
  assert (s3 !! S i = Some (set_cn e' (cn e))) as H1.
  { rewrite Hs3. simpl. apply list_lookup_insert_eq. by eapply lookup_lt_Some. }
  split; [|split; [done|]].
  - apply count_of_in_sync; [done|]. exists (set_cn e Int.INT_MAX).
    split; [|done]. rewrite Hst. apply list_elem_of_lookup. eauto.
  - pose proof Hsync' as [Hw2i _]. unfold SearchWordInVocabulary at 1.
    rewrite (proj2 (Hw2i (word e') (Z.of_nat (S i)))).
    2:{ split; [lia|]. rewrite Nat2Z.id, Hst. unfold words.
        by rewrite list_lookup_fmap, H1. }
    split; [done|]. rewrite <- Hcn.
    apply count_of_in_sync; [done|]. exists (set_cn e' (cn e)).
    split; [|done]. rewrite Hst. apply list_elem_of_lookup. eauto.
Qed.

Lemma sort_restores_at_old_index_witness :
  sort_contract insertion_sort ∧ maps_in_sync unsorted_vocabulary ∧
  SearchWordInVocabulary unsorted_vocabulary EOS = 2 ∧
  count_of unsorted_vocabulary EOS = Some 20 ∧
  ∃ v' w', SortVocabularyByFrequency insertion_sort unsorted_vocabulary = Returns v' ∧
    count_of v' EOS = Some Int.INT_MAX ∧ w' ≠ EOS ∧
    SearchWordInVocabulary v' w' = 2 ∧ count_of v' w' = Some 20.
Proof.
  assert (∀ w c, w ≠ EOS → count_of unsorted_vocabulary w = Some c → c < Int.INT_MAX)
    as Hothers.
  { intros w c Hw Hcount.
    apply (count_of_in_sync _ _ _ unsorted_vocabulary_in_sync) in Hcount
      as (e & He & _ & <-).
    simpl in He. unfold Int.INT_MAX.
    repeat (apply elem_of_cons in He as [->|He]; [simpl; lia|]).
    by apply elem_of_nil in He. }
  split; [exact insertion_sort_contract|].
  split; [exact unsorted_vocabulary_in_sync|].
  split; [reflexivity|]. split; [reflexivity|].
  exact (sort_restores_at_old_index insertion_sort unsorted_vocabulary 2 20
           insertion_sort_contract unsorted_vocabulary_in_sync eq_refl
           ltac:(lia) eq_refl Hothers).
Defined.

(** X10.  On a vocabulary that is in order already (maps in agreement,
    "</s>" first, then counts that decrease strictly and stay below
    [INT_MAX]) the sort changes nothing. *)
Theorem sort_fixes_ordered std_sort v e tl :
  sort_contract std_sort →
  maps_in_sync v →
  m_vocabularyStorage v = e :: tl → word e = EOS →
  Forall (λ x, cn x < Int.INT_MAX) tl →
  StronglySorted count_gt tl →
  SortVocabularyByFrequency std_sort v = Returns v.
Proof.
  intros Hc Hsync Hl Hword Hbelow Hsorted.
  assert (SearchWordInVocabulary v EOS = Z.of_nat 0) as Hzero.
  { destruct Hsync as [Hw2i _]. unfold SearchWordInVocabulary.
    rewrite (proj2 (Hw2i EOS 0)); [done|]. split; [lia|].
    rewrite Hl. simpl. by rewrite Hword. }
  rewrite (SortVocabularyByFrequency_steps std_sort v 0 e
             (set_cn e Int.INT_MAX :: tl) (set_cn e Int.INT_MAX) Hzero).
  - assert (set_cn (set_cn e Int.INT_MAX) (cn e) = e) as Heta by (by destruct e).
    cbn [insert list_insert]. rewrite Heta, <- Hl, (rebuild_maps_in_sync v Hsync).
    by destruct v.
  - by rewrite Hl.
  - rewrite Hl. cbn [insert list_insert]. apply sort_determined; [done|done|].
    constructor; [done|]. eapply Forall_impl; [exact Hbelow|].
    intros x Hx. unfold count_gt. simpl. done.
  - done.
Qed.

Lemma sort_fixes_ordered_witness :
  sort_contract insertion_sort ∧ maps_in_sync (scenario_vocabulary 2) ∧
  SortVocabularyByFrequency insertion_sort (scenario_vocabulary 2)
  = Returns (scenario_vocabulary 2).
Proof.
  split; [exact insertion_sort_contract|].
  split; [exact (scenario_vocabulary_in_sync 2)|].
  apply (sort_fixes_ordered insertion_sort (scenario_vocabulary 2)
           (mkVocabWord EOS 0%float 5 0)
           [mkVocabWord "the" 0%float 100 0; mkVocabWord "cat" 0%float 3 0;
            mkVocabWord "dog" 0%float 2 0]).
  - exact insertion_sort_contract.
  - exact (scenario_vocabulary_in_sync 2).
  - reflexivity.
  - reflexivity.
  - repeat (constructor; [simpl; unfold Int.INT_MAX; lia|]). constructor.
  - sorted_strictly.
Defined.

(** X11.  [OrderWordCounts] is a strict weak ordering, as [std::sort]
    asks of its comparison: nothing comes before itself, the order is
    transitive, and entries that it leaves unordered, those of equal
    count, form classes. *)
Theorem OrderWordCounts_strict_weak_ordering :
  (∀ a, OrderWordCounts a a = false) ∧
  (∀ a b c, OrderWordCounts a b = true → OrderWordCounts b c = true →
     OrderWordCounts a c = true) ∧
  (∀ a b, OrderWordCounts a b = false ∧ OrderWordCounts b a = false ↔ cn a = cn b) ∧
  (∀ a b c,
     OrderWordCounts a b = false → OrderWordCounts b a = false →
     OrderWordCounts b c = false → OrderWordCounts c b = false →
     OrderWordCounts a c = false ∧ OrderWordCounts c a = false).
Proof.
  unfold OrderWordCounts. split; [|split; [|split]].
  - intros a. apply Z.ltb_irrefl.
  - intros a b c Hab%Z.ltb_lt Hbc%Z.ltb_lt. apply Z.ltb_lt. lia.
  - intros a b. rewrite !Z.ltb_ge. lia.
  - intros a b c Hab%Z.ltb_ge Hba%Z.ltb_ge Hbc%Z.ltb_ge Hcb%Z.ltb_ge.
    rewrite !Z.ltb_ge. lia.
Qed.

(** ** More on the class assignment *)

(** The vector of class members never meets an assertion while it is
    filled. *)
Lemma push_words_no_assertion l : ∀ i cw, push_words l i cw ≠ AssertionFailure.
Proof.
  induction l as [|e l IH]; intros i cw; simpl; [done|].
  destruct (vec_get cw (classIndex e)); [apply IH|done].
Qed.

Lemma build_classWords_no_assertion storage n :
  build_classWords storage n ≠ AssertionFailure.
Proof.
  unfold build_classWords. destruct (n <? 0); [done|apply push_words_no_assertion].
Qed.

(** Outside the range of the classes an index is a use of the vector
    that is not defined. *)
Lemma build_classWords_out_of_range storage n e :
  e ∈ storage → ¬ (0 ≤ classIndex e ≤ n - 1) →
  build_classWords storage n = Undefined.
Proof.
  intros He Hout.
  destruct (build_classWords storage n) as [cw| |] eqn:Hbuild; [| |done].
  - apply build_classWords_returns in Hbuild as [_ Hall].
    rewrite Forall_forall in Hall. by destruct Hout; apply Hall.
  - by apply build_classWords_no_assertion in Hbuild.
Qed.

(** Every group is filled in ascending order of the word indices. *)
Lemma push_words_sorted l : ∀ i cw cw',
  push_words l i cw = Returns cw' →
  Forall (λ g, StronglySorted Z.lt g ∧ Forall (λ j, j < i) g) cw →
  Forall (λ g, StronglySorted Z.lt g ∧
               Forall (λ j, j < i + Z.of_nat (length l)) g) cw'.
Proof.
  induction l as [|e l IH]; intros i cw cw' Hpush Hcw; simpl in Hpush.
  - injection Hpush as <-. eapply Forall_impl; [exact Hcw|].
    intros g [Hs Hb]. split; [done|]. eapply Forall_impl; [exact Hb|].
    simpl. intros; lia.
  - destruct (vec_get cw (classIndex e)) as [g|] eqn:Hg; [|done].
    apply vec_get_Some in Hg as [Hc Hg].
    apply IH in Hpush.
    + eapply Forall_impl; [exact Hpush|]. intros g' [Hs Hb]. split; [done|].
      eapply Forall_impl; [exact Hb|]. simpl. intros; lia.
    + pose proof Hcw as Hcw0. rewrite Forall_forall in Hcw0.
      destruct (Hcw0 g) as [Hs Hb]; [apply list_elem_of_lookup; eauto|].
      apply Forall_insert; [|split].
      * eapply Forall_impl; [exact Hcw|]. intros g' [Hs' Hb']. split; [done|].
        eapply Forall_impl; [exact Hb'|]. simpl. intros; lia.
      * clear -Hs Hb. induction g as [|x g IHg]; simpl.
        { repeat constructor. }
        apply StronglySorted_inv in Hs as [Hs Hx].
        apply Forall_cons in Hb as [Hxi Hb].
        constructor; [by apply IHg|].
        apply Forall_app. split; [done|]. by repeat constructor.
      * apply Forall_app. split.
        { eapply Forall_impl; [exact Hb|]. simpl. intros; lia. }
        repeat constructor. lia.
Qed.

Lemma build_classWords_sorted storage n cw :
  build_classWords storage n = Returns cw →
  Forall (StronglySorted Z.lt) cw.
Proof.
  unfold build_classWords. destruct (n <? 0); [done|]. intros Hpush.
  apply push_words_sorted in Hpush.
  - eapply Forall_impl; [exact Hpush|]. by intros g [Hs _].
  - apply Forall_replicate. split; constructor.
Qed.

(** What the first half of the function leaves as it is. *)
Lemma assign_class_indices_frame v :
  words (assign_class_indices v) = words (m_vocabularyStorage v) ∧
  counts (assign_class_indices v) = counts (m_vocabularyStorage v) ∧
  Forall (λ e, prob e = 0%float) (assign_class_indices v).
Proof.
  unfold assign_class_indices, frequency_branch.
  destruct (m_useClassFile v);
    [apply compact_classes_frame|apply frequency_classes_frame].
Qed.

(** The outcome of the second half, read off the class indices. *)
Lemma assign_outcome_by_classes v :
  let n := m_numClasses v in
  let storage := assign_class_indices v in
  0 ≤ n →
  Forall (λ e, 0 ≤ classIndex e ≤ n - 1) storage →
  ((∀ c, 0 ≤ c < n → c ∈ classes storage) →
     ∃ cw, AssignWordsToClasses v
           = Returns (set_classWords (set_storage v storage) cw)) ∧
  (∀ c, 0 ≤ c < n → c ∉ classes storage →
     AssignWordsToClasses v = AssertionFailure).
Proof.
  intros n storage Hn Hall.
  destruct (build_classWords_spec storage n Hn Hall)
    as (cw & Hbuild & Hlen & _ & Hmem & _).
  unfold AssignWordsToClasses. fold n storage. rewrite Hbuild. simpl.
  split.
  - intros Hfull. exists cw.
    destruct (no_empty_class cw) eqn:Hne; [done|]. exfalso.
    assert (Forall (λ g, g ≠ []) cw) as Hok; [|by apply no_empty_class_Forall in Hok; congruence].
    apply Forall_lookup. intros c g Hg ->.
    apply lookup_lt_Some in Hg as Hlt.
    assert (Z.of_nat c ∈ classes storage) as Hin by (apply Hfull; lia).
    apply list_elem_of_lookup in Hin as [k Hk].
    assert (Z.of_nat k ∈ ([] : list Z)) as Hbad.
    { apply (Hmem c [] (Z.of_nat k) Hg). split; [lia|]. by rewrite Nat2Z.id. }
    by apply elem_of_nil in Hbad.
  - intros c Hc Hnotin.
    destruct (no_empty_class cw) eqn:Hne; [|done]. exfalso.
    apply no_empty_class_Forall in Hne. rewrite Forall_forall in Hne.
    destruct (lookup_lt_is_Some_2 cw (Z.to_nat c)) as [g Hg]; [lia|].
    assert (g ≠ []) as Hgne by (apply Hne, list_elem_of_lookup; eauto).
    destruct g as [|j g]; [done|].
    assert (j ∈ j :: g) as Hj by left.
    apply (Hmem _ _ _ Hg) in Hj as [Hj0 Hj].
    apply Hnotin. apply list_elem_of_lookup. exists (Z.to_nat j).
    rewrite Hj. f_equal. lia.
Qed.

(** X12.  When [AssignWordsToClasses] returns, the words, the counts,
    the maps and the two settings are as before, every [prob] is 0,
    [m_classWords] has [m_numClasses] groups, every group lists its word
    indices in ascending order, an index is in group [c] exactly when
    the entry at that index has the class [c], and the groups together
    hold every index of the vector once. *)
Theorem AssignWordsToClasses_frame v v' :
  AssignWordsToClasses v = Returns v' →
  words (m_vocabularyStorage v') = words (m_vocabularyStorage v) ∧
  counts (m_vocabularyStorage v') = counts (m_vocabularyStorage v) ∧
  Forall (λ e, prob e = 0%float) (m_vocabularyStorage v') ∧
  m_mapWord2Index v' = m_mapWord2Index v ∧
  m_mapIndex2Word v' = m_mapIndex2Word v ∧
  m_mapWord2Class v' = m_mapWord2Class v ∧
  m_classes v' = m_classes v ∧
  m_numClasses v' = m_numClasses v ∧
  m_useClassFile v' = m_useClassFile v ∧
  vec_size (m_classWords v') = m_numClasses v ∧
  Forall (StronglySorted Z.lt) (m_classWords v') ∧
  concat (m_classWords v') ≡ₚ indices 0 (length (m_vocabularyStorage v)) ∧
  (∀ c g j, vec_get (m_classWords v') c = Some g →
     j ∈ g ↔ ∃ e, vec_get (m_vocabularyStorage v') j = Some e ∧ classIndex e = c).
Proof.
  intros Hret. unfold AssignWordsToClasses in Hret.
  destruct (build_classWords (assign_class_indices v) (m_numClasses v))
    as [cw| |] eqn:Hbuild; try done.
  simpl in Hret. destruct (no_empty_class cw) eqn:Hne; [|done].
  injection Hret as <-. cbn.
  destruct (assign_class_indices_frame v) as (Hw & Hc & Hp).
  apply build_classWords_returns in Hbuild as Hrange. destruct Hrange as [Hn Hall].
  destruct (build_classWords_spec _ _ Hn Hall) as (cw0 & Hcw0 & Hlen & Hcat & Hmem & _).
  rewrite Hbuild in Hcw0. injection Hcw0 as <-.
  repeat (split; [done|]).
  split; [unfold vec_size; lia|].
  split; [by eapply build_classWords_sorted|].
  split.
  { rewrite Hcat. apply (f_equal length) in Hw.
    unfold words in Hw. rewrite !length_fmap in Hw. by rewrite Hw. }
  intros c g j Hg. apply vec_get_Some in Hg as [Hc0 Hg].
  rewrite (Hmem _ _ j Hg). unfold classes. rewrite list_lookup_fmap. split.
  - intros [Hj He].
    destruct (assign_class_indices v !! Z.to_nat j) as [e|] eqn:Hlook; [|done].
    exists e. split; [by apply vec_get_Some|]. simpl in He. simplify_eq. lia.
  - intros (e & He & Hclass). apply vec_get_Some in He as [Hj He].
    split; [done|]. rewrite He. simpl. f_equal. lia.
Qed.

Lemma AssignWordsToClasses_frame_witness :
  ∃ v', AssignWordsToClasses three_block_vocabulary = Returns v' ∧
    words (m_vocabularyStorage v') = [EOS; "the"; "a"; "cat"]%string ∧
    m_classWords v' = [[0]; [1; 2]; [3]] ∧
    Forall (StronglySorted Z.lt) (m_classWords v').
Proof.
  eexists. split; [vm_compute; reflexivity|].
  split; [reflexivity|]. split; [reflexivity|].
  eapply (AssignWordsToClasses_frame three_block_vocabulary).
  vm_compute. reflexivity.
Defined.

(** Renumbering the blocks of a vector that has been renumbered gives
    the same vector. *)
Lemma compact_classes_again l : ∀ c p,
  compact_classes (compact_classes l c p) c c = compact_classes l c p.
Proof.
  induction l as [|e l IH]; intros c p; [done|].
  cbn [compact_classes]. destruct (classIndex e =? p) eqn:Hp; cbn [negb].
  - cbn [compact_classes set_prob set_class classIndex].
    rewrite Z.eqb_refl. cbn [negb]. f_equal. apply IH.
  - cbn [compact_classes set_prob set_class classIndex].
    replace (c + 1 =? c) with false by (symmetry; apply Z.eqb_neq; lia).
    cbn [negb]. f_equal.
    apply IH.
Qed.

(** The two sums of the frequency branch read the counts only. *)
Lemma fold_left_counts {B} (f : B → Z → B) (l1 l2 : list VocabWord) : ∀ b,
  counts l1 = counts l2 →
  fold_left (λ b e, f b (cn e)) l1 b = fold_left (λ b e, f b (cn e)) l2 b.
Proof.
  revert l2. induction l1 as [|e1 l1 IH]; intros [|e2 l2] b Hc; try done.
  injection Hc as Hcn Hc. simpl. rewrite Hcn. by apply IH.
Qed.

Lemma total_count_counts l1 l2 :
  counts l1 = counts l2 → total_count l1 = total_count l2.
Proof. apply (fold_left_counts (λ b c, Int.wrap (b + c))). Qed.

Lemma total_sqrt_counts b l1 l2 :
  counts l1 = counts l2 → total_sqrt b l1 = total_sqrt b l2.
Proof.
  apply (fold_left_counts
    (λ dd c, PrimFloat.add dd
       (PrimFloat.sqrt (PrimFloat.div (Int.to_double c) (Int.to_double b))))).
Qed.

(** The classes of the frequency branch do not depend on the classes
    that the entries had. *)
Lemma frequency_classes_again b dd n l : ∀ df a,
  frequency_classes b dd n (frequency_classes b dd n l df a).1 df a
  = frequency_classes b dd n l df a.
Proof.
  induction l as [|e l IH]; intros df a; [done|].
  cbn [frequency_classes].
  set (df1 := PrimFloat.add df (PrimFloat.div (sqrt_share b e) dd)).
  set (df2 := if PrimFloat.ltb 1%float df1 then 1%float else df1).
  set (a' := if PrimFloat.ltb _ df2 then _ else a).
  specialize (IH df2 a').
  destruct (frequency_classes b dd n l df2 a') as [l1 a1] eqn:Hrec.
  cbn [fst frequency_classes].
  change (sqrt_share b (set_prob (set_class e a) 0%float)) with (sqrt_share b e).
  fold df1 df2 a'. simpl in IH. rewrite IH. by destruct e.
Qed.

Lemma assign_class_indices_again v storage cw :
  storage = assign_class_indices v →
  assign_class_indices (set_classWords (set_storage v storage) cw) = storage.
Proof.
  intros ->. unfold assign_class_indices at 1.
  cbn [set_classWords set_storage m_useClassFile m_vocabularyStorage m_numClasses].
  unfold assign_class_indices.
  destruct (m_useClassFile v).
  - apply compact_classes_again.
  - unfold frequency_branch.
    set (l := m_vocabularyStorage v). set (n := m_numClasses v).
    set (b := total_count l). set (dd := total_sqrt b l).
    set (r := frequency_classes b dd n l 0%float 0).
    assert (counts r.1 = counts l) as Hc by apply frequency_classes_frame.
    rewrite (total_count_counts _ _ Hc). fold b.
    rewrite (total_sqrt_counts b _ _ Hc). fold dd.
    unfold r. by rewrite frequency_classes_again.
Qed.

(** X13.  [AssignWordsToClasses] called on a vocabulary that it has
    returned returns that vocabulary again. *)
Theorem AssignWordsToClasses_idempotent v v' :
  AssignWordsToClasses v = Returns v' →
  AssignWordsToClasses v' = Returns v'.
Proof.
  intros Hret. unfold AssignWordsToClasses in Hret.
  destruct (build_classWords (assign_class_indices v) (m_numClasses v))
    as [cw| |] eqn:Hbuild; try done.
  simpl in Hret. destruct (no_empty_class cw) eqn:Hne; [|done].
  injection Hret as <-.
  unfold AssignWordsToClasses.
  rewrite (assign_class_indices_again v _ cw eq_refl).
  change (m_numClasses (set_classWords _ cw)) with (m_numClasses v).
  rewrite Hbuild. simpl. rewrite Hne. by destruct v.
Qed.

Lemma AssignWordsToClasses_idempotent_witness :
  ∃ v', AssignWordsToClasses (scenario_vocabulary 2) = Returns v' ∧
    classes (m_vocabularyStorage v') = [0; 0; 1; 1] ∧
    AssignWordsToClasses v' = Returns v'.
Proof.
  eexists. split; [vm_compute; reflexivity|]. split; [reflexivity|].
  apply (AssignWordsToClasses_idempotent (scenario_vocabulary 2)).
  vm_compute. reflexivity.
Defined.

Lemma count_blocks_nonneg ids : ∀ last, 0 ≤ count_blocks ids last.
Proof.
  induction ids as [|c ids IH]; intros last; simpl; [done|].
  specialize (IH c). destruct (c =? last); lia.
Qed.

(** X14.  With a class file in use and a vector that is not empty, the
    number [k] of blocks of class indices decides the outcome: the call
    returns when [k] is [m_numClasses], the assertion stops it when [k]
    is smaller, and when [k] is larger, or the first entry has the
    class -1, a group outside [m_classWords] is written. *)
Theorem class_file_assignment_outcome v e l :
  m_useClassFile v = true →
  m_vocabularyStorage v = e :: l →
  let n := m_numClasses v in
  let k := count_blocks (classes (m_vocabularyStorage v)) (-1) in
  (classIndex e = -1 → AssignWordsToClasses v = Undefined) ∧
  (classIndex e ≠ -1 →
     (k = n → ∃ v', AssignWordsToClasses v = Returns v') ∧
     (k < n → AssignWordsToClasses v = AssertionFailure) ∧
     (n < k → AssignWordsToClasses v = Undefined)).
Proof.
  intros Hfile Hst n k.
  assert (assign_class_indices v = compact_classes (e :: l) (-1) (-1)) as Hpost.
  { unfold assign_class_indices. by rewrite Hfile, Hst. }
  pose proof (compact_classes_values (e :: l) (-1) (-1)) as Hval.
  rewrite <- Hpost in Hval.
  assert (∀ c, c ∈ classes (assign_class_indices v) →
            ¬ (0 ≤ c ≤ n - 1) → AssignWordsToClasses v = Undefined) as Hundef.
  { intros c Hin Hout. apply list_elem_of_fmap in Hin as (x & -> & Hx).
    unfold AssignWordsToClasses. fold n.
    by rewrite (build_classWords_out_of_range _ _ x Hx Hout). }
  split.
  - intros He. apply (Hundef (-1)); [|lia].
    apply Hval. split; [done|]. simpl. rewrite He. simpl.
    pose proof (count_blocks_nonneg (classes l) (-1)). lia.
  - intros He.
    assert ((classIndex e =? -1) = false) as Hneq by (by apply Z.eqb_neq).
    rewrite Hneq in Hval.
    assert (k = 1 + count_blocks (classes l) (classIndex e)) as Hk.
    { unfold k. rewrite Hst. simpl. by rewrite Hneq. }
    pose proof (count_blocks_nonneg (classes l) (classIndex e)) as Hnn.
    assert (∀ c, c ∈ classes (assign_class_indices v) ↔ 0 ≤ c ≤ k - 1) as Hval'.
    { intros c. rewrite Hval. simpl. rewrite Hneq. split; [lia|].
      intros. split; [done|lia]. }
    assert (k ≤ n → Forall (λ x, 0 ≤ classIndex x ≤ n - 1) (assign_class_indices v))
      as Hall.
    { intros Hkn. apply Forall_forall. intros x Hx.
      assert (classIndex x ∈ classes (assign_class_indices v)) as Hin
        by (apply list_elem_of_fmap; eauto).
      apply Hval' in Hin. lia. }
    split; [|split].
    + intros Hkn.
      destruct (assign_outcome_by_classes v) as [Hret _]; [fold n; lia|apply Hall; lia|].
      destruct Hret as [cw Hcw]; [|eauto].
      intros c Hc. apply Hval'. fold n in Hc. lia.
    + intros Hkn.
      destruct (assign_outcome_by_classes v) as [_ Hfail]; [fold n; lia|apply Hall; lia|].
      apply (Hfail (n - 1)); [fold n; lia|]. rewrite Hval'. lia.
    + intros Hkn. apply (Hundef (k - 1)); [apply Hval'|]; lia.
Qed.

Lemma class_file_assignment_outcome_witness :
  m_useClassFile three_block_vocabulary = true ∧
  count_blocks (classes (m_vocabularyStorage three_block_vocabulary)) (-1) = 3 ∧
  m_numClasses three_block_vocabulary = 3 ∧
  ∃ v', AssignWordsToClasses three_block_vocabulary = Returns v'.
Proof.
  split; [reflexivity|]. split; [reflexivity|]. split; [reflexivity|].
  destruct (class_file_assignment_outcome three_block_vocabulary
              (mkVocabWord EOS 0%float 7 9)
              [mkVocabWord "the" 0%float 5 4; mkVocabWord "a" 0%float 4 4;
               mkVocabWord "cat" 0%float 1 0] eq_refl eq_refl) as [_ Hok].
  destruct Hok as (Hret & _ & _); [simpl; lia|].
  apply Hret. reflexivity.
Defined.

(** The classes of the frequency branch leave no gap: every index from
    the first class to the class of the last entry is given to an
    entry. *)
Lemma frequency_classes_no_gap b dd n l : ∀ df a c m,
  last (classes (frequency_classes b dd n l df a).1) = Some m →
  a ≤ c ≤ m → c ∈ classes (frequency_classes b dd n l df a).1.
Proof.
  induction l as [|e l IH]; intros df a c m; [done|].
  cbn [frequency_classes].
  set (df1 := PrimFloat.add df (PrimFloat.div (sqrt_share b e) dd)).
  set (df2 := if PrimFloat.ltb 1%float df1 then 1%float else df1).
  set (a' := if PrimFloat.ltb _ df2 then _ else a).
  assert (a ≤ a' ≤ a + 1) as Ha'.
  { unfold a'. destruct (PrimFloat.ltb _ df2); [|lia]. destruct (a <? n - 1); lia. }
  specialize (IH df2 a' c).
  destruct (frequency_classes b dd n l df2 a') as [l1 a1] eqn:Hrec.
  cbn [fst classes fmap list_fmap set_prob set_class classIndex] in *.
  rewrite last_cons. intros Hlast Hc.
  destruct (decide (c = a)) as [->|Hne]; [left|]. right.
  unfold classes in *.
  destruct (last (classIndex <$> l1)) as [m'|] eqn:Hl1.
  - injection Hlast as ->. apply (IH m); [done|lia].
  - injection Hlast as ->. lia.
Qed.

Lemma sorted_last_is_max (l : list Z) m :
  StronglySorted Z.le l → last l = Some m → ∀ c, c ∈ l → c ≤ m.
Proof.
  induction l as [|x l IH]; intros Hs Hlast c Hc; [by apply elem_of_nil in Hc|].
  apply StronglySorted_inv in Hs as [Hs Hx]. rewrite last_cons in Hlast.
  destruct (last l) as [m'|] eqn:Hl.
  - injection Hlast as ->. rewrite Forall_forall in Hx.
    apply elem_of_cons in Hc as [->|Hc]; [|by apply IH].
    apply Hx. destruct l; [done|]. by apply last_Some_elem_of.
  - destruct l; [|by rewrite last_cons in Hl; destruct (last l)].
    injection Hlast as ->. apply elem_of_cons in Hc as [->|Hc]; [done|].
    by apply elem_of_nil in Hc.
Qed.

(** X15.  Without a class file, with at least one class and a vector
    that is not empty, the class [m] given to the last entry decides
    the outcome: the call returns when [m] is the last class
    [m_numClasses - 1], and the assertion stops it when [m] is
    smaller. *)
Theorem frequency_assignment_outcome v :
  m_useClassFile v = false →
  1 ≤ m_numClasses v →
  m_vocabularyStorage v ≠ [] →
  let n := m_numClasses v in
  ∃ m, last (classes (frequency_branch (m_vocabularyStorage v) n).1) = Some m ∧
    0 ≤ m ≤ n - 1 ∧
    (m = n - 1 → ∃ v', AssignWordsToClasses v = Returns v') ∧
    (m < n - 1 → AssignWordsToClasses v = AssertionFailure).
Proof.
  intros Hfile Hn Hne n.
  assert (assign_class_indices v = (frequency_branch (m_vocabularyStorage v) n).1)
    as Hpost by (unfold assign_class_indices; by rewrite Hfile).
  set (r := frequency_branch (m_vocabularyStorage v) n) in *.
  destruct (frequency_classes_range (total_count (m_vocabularyStorage v))
              (total_sqrt (total_count (m_vocabularyStorage v)) (m_vocabularyStorage v))
              n (m_vocabularyStorage v) 0%float 0 ltac:(lia))
    as (_ & Hall & Hsorted & _).
  fold (frequency_branch (m_vocabularyStorage v) n) in Hall, Hsorted. fold r in Hall, Hsorted.
  assert (length (classes r.1) = length (m_vocabularyStorage v)) as Hlen.
  { destruct (assign_class_indices_frame v) as (Hw & _). rewrite Hpost in Hw.
    apply (f_equal length) in Hw. unfold words, classes in *.
    by rewrite !length_fmap in *. }
  destruct (last (classes r.1)) as [m|] eqn:Hlast.
  2:{ apply last_None in Hlast. rewrite Hlast in Hlen.
      by destruct (m_vocabularyStorage v). }
  exists m.
  assert (0 ≤ m ≤ n - 1) as Hm.
  { apply last_Some_elem_of, list_elem_of_fmap in Hlast as (x & -> & Hx).
    rewrite Forall_forall in Hall. by apply Hall. }
  split; [done|]. split; [done|].
  destruct (assign_outcome_by_classes v) as [Hret Hfail];
    [fold n; lia|by rewrite Hpost|].
  rewrite Hpost in Hret, Hfail. fold n in Hret, Hfail. split.
  - intros ->. destruct Hret as [cw Hcw]; [|eauto].
    intros c Hc.
    apply (frequency_classes_no_gap _ _ _ _ _ _ _ (n - 1) Hlast). lia.
  - intros Hlt. apply (Hfail (n - 1)); [lia|].
    intros Hin. apply (sorted_last_is_max _ m Hsorted Hlast) in Hin. lia.
Qed.

Lemma frequency_assignment_outcome_witness :
  m_useClassFile (scenario_vocabulary 2) = false ∧
  1 ≤ m_numClasses (scenario_vocabulary 2) ∧
  m_vocabularyStorage (scenario_vocabulary 2) ≠ [] ∧
  last (classes (frequency_branch
                   (m_vocabularyStorage (scenario_vocabulary 2)) 2).1) = Some 1 ∧
  ∃ v', AssignWordsToClasses (scenario_vocabulary 2) = Returns v'.
Proof.
  split; [reflexivity|]. split; [simpl; lia|]. split; [done|].
  destruct (frequency_assignment_outcome (scenario_vocabulary 2))
    as (m & Hlast & _ & Hret & _); [reflexivity|simpl; lia|done|].
  vm_compute in Hlast. injection Hlast as <-.
  split; [vm_compute; reflexivity|]. by apply Hret.
Defined.

(** ** More on reading a class file *)

(** The map and the set that a call leaves, and the value that it
    returns, for any content of the file. *)
Lemma ReadClasses_result clnum0 v items :
  let recs := until_BOS (item_classes items clnum0) in
  let read := λ w, from_option Some (m_mapWord2Class v !! w) (last_class recs w) in
  let eos_class := default (-1) (last_class recs EOS) in
  let max_class := foldr Z.max (-1) recs.*2 in
  let ok := bool_decide (BOS ∉ items.*1) && negb (eos_class =? -1) in
  ∃ m, ReadClasses clnum0 v (Some items)
       = (set_class_maps v m (list_to_set recs.*2 ∪ m_classes v), ok) ∧
    ∀ w, m !! w = if ok && bool_decide (w ∈ recs.*1)
                  then Some (swap_value eos_class max_class (default 0 (read w)))
                  else read w.
Proof.
  intros recs read eos_class max_class ok.
  rewrite ReadClasses_unfold.
  destruct (read_loop_state items
    (mkReadState (m_mapWord2Class v) (m_classes v) ∅ (-1) (-1) clnum0))
    as (Hmap & Hcls & Hwords & Heosc & Hmax).
  simpl in Hmap, Hcls, Hwords, Heosc, Hmax.
  fold recs in Hmap, Hcls, Hwords, Heosc, Hmax.
  set (st := (read_loop items _).2) in *.
  fold eos_class in Heosc. fold max_class in Hmax.
  rewrite Hcls, Heosc, Hmax.
  assert (∀ w, rs_map st !! w = read w) as Hread by done.
  unfold ok. case_decide as Hbos.
  { rewrite bool_decide_eq_false_2 by tauto. exists (rs_map st). split; [done|].
    intros w. by rewrite Hread. }
  rewrite bool_decide_eq_true_2 by done.
  destruct (eos_class =? -1) eqn:Heos; cbn [negb andb].
  { exists (rs_map st). split; [done|]. intros w. by rewrite Hread. }
  assert (is_Some (rs_map st !! EOS)) as [c Hc].
  { rewrite Hread. unfold read. unfold eos_class in Heos.
    destruct (last_class recs EOS); [by eexists|done]. }
  destruct (size (rs_map st) =? 0)%nat eqn:Hsize.
  { apply Nat.eqb_eq, map_size_empty_inv in Hsize. by rewrite Hsize in Hc. }
  eexists. split; [done|]. intros w. rewrite swap_classes_lookup, Hread.
  destruct (decide (w ∈ rs_words st)) as [Hw|Hw].
  - rewrite bool_decide_eq_true_2; [done|]. rewrite Hwords in Hw. set_solver.
  - rewrite bool_decide_eq_false_2; [done|]. rewrite Hwords in Hw. set_solver.
Qed.


(** X17.  Reading the same file a second time changes nothing: the
    second call leaves the vocabulary that the first has left and
    returns the same value. *)
Theorem ReadClasses_idempotent clnum0 v file :
  ReadClasses clnum0 (ReadClasses clnum0 v file).1 file = ReadClasses clnum0 v file.
Proof.
  destruct file as [items|]; [|done].
  destruct (ReadClasses_result clnum0 v items) as (m & Hfirst & Hm).
  rewrite Hfirst. cbn [fst].
  destruct (ReadClasses_result clnum0
              (set_class_maps v m
                 (list_to_set (until_BOS (item_classes items clnum0)).*2 ∪ m_classes v))
              items) as (m' & -> & Hm').
  cbn [set_class_maps m_mapWord2Class m_classes] in *.
  set (recs := until_BOS (item_classes items clnum0)) in *.
  set (ok := bool_decide (BOS ∉ items.*1) && _) in *.
  assert (m' = m) as ->.
  { apply map_eq. intros w. rewrite Hm'.
    destruct (decide (w ∈ recs.*1)) as [Hw|Hw].
    - destruct (last_class_Some recs w Hw) as (c & Hc & _).
      rewrite Hc. cbn [from_option]. by rewrite Hm, Hc.
    - rewrite (bool_decide_eq_false_2 _ Hw), andb_false_r.
      by rewrite (last_class_None recs w Hw). }
  f_equal. destruct v. unfold set_class_maps. simpl. f_equal. set_solver.
Qed.

(** X18.  When [ReadClasses] returns true, the vector, the two index
    maps, [m_classWords] and the two settings are as before,
    [m_classes] is the set it was with the class indices read added,
    and the words that have a class are those that had one and those of
    the file.  When a class index of the file is -1 or more, the class
    that a word of the file has in the end is a member of
    [m_classes]. *)
Theorem ReadClasses_success_frame clnum0 v items v' :
  ReadClasses clnum0 v (Some items) = (v', true) →
  m_vocabularyStorage v' = m_vocabularyStorage v ∧
  m_mapWord2Index v' = m_mapWord2Index v ∧
  m_mapIndex2Word v' = m_mapIndex2Word v ∧
  m_classWords v' = m_classWords v ∧
  m_numClasses v' = m_numClasses v ∧
  m_useClassFile v' = m_useClassFile v ∧
  m_classes v' = list_to_set (item_classes items clnum0).*2 ∪ m_classes v ∧
  dom (m_mapWord2Class v') = list_to_set items.*1 ∪ dom (m_mapWord2Class v) ∧
  ((∃ c, c ∈ (item_classes items clnum0).*2 ∧ -1 ≤ c) →
   ∀ w, w ∈ items.*1 →
     ∃ c, m_mapWord2Class v' !! w = Some c ∧ c ∈ m_classes v').
Proof.
  intros Hret.
  destruct (ReadClasses_result clnum0 v items) as (m & Hres & Hm).
  rewrite Hret in Hres. injection Hres as -> Hok.
  rewrite <- Hok in Hm. cbn [andb] in Hm. symmetry in Hok.
  apply andb_true_iff in Hok as [Hbos Heos].
  apply bool_decide_eq_true in Hbos. apply negb_true_iff, Z.eqb_neq in Heos.
  rewrite until_BOS_no_BOS in Hm, Heos |- * by (by rewrite item_classes_words).
  set (recs := item_classes items clnum0) in *.
  assert (recs.*1 = items.*1) as Hwords by apply item_classes_words.
  repeat (split; [done|]). cbn [set_class_maps m_mapWord2Class m_classes].
  split.
  - apply set_eq. intros w. rewrite elem_of_dom, elem_of_union, elem_of_list_to_set,
      elem_of_dom, Hm, <- Hwords.
    destruct (decide (w ∈ recs.*1)) as [Hw|Hw].
    + rewrite (bool_decide_eq_true_2 _ Hw). split; [by left|by eexists].
    + rewrite (bool_decide_eq_false_2 _ Hw), (last_class_None recs w Hw). simpl.
      split; [by right|]. by intros [|].
  - intros (c0 & Hc0 & Hlow) w Hw. rewrite <- Hwords in Hw.
    destruct (last_class recs EOS) as [ce|] eqn:Hlast; [|done]. simpl in Heos, Hm.
    assert (ce ∈ recs.*2) as Hce.
    { destruct (decide (EOS ∈ recs.*1)) as [Hin|Hin].
      - destruct (last_class_Some recs EOS Hin) as (c & Hc & Hcin). congruence.
      - by rewrite last_class_None in Hlast. }
    assert (foldr Z.max (-1) recs.*2 ∈ recs.*2) as Hmax.
    { destruct (foldr_max_spec recs.*2 (-1)) as (_ & Hge & [Hmax|Hmax]); [|done].
      specialize (Hge c0 Hc0). rewrite Hmax in *.
      by replace (-1) with c0 by lia. }
    destruct (last_class_Some recs w Hw) as (c & Hc & Hcin).
    rewrite Hm, (bool_decide_eq_true_2 _ Hw), Hc. simpl.
    eexists. split; [done|]. unfold swap_value.
    destruct (c =? ce); [set_solver|].
    destruct (c =? foldr Z.max (-1) recs.*2); set_solver.
Qed.

Lemma ReadClasses_success_frame_witness :
  let r := ReadClasses 0 (empty_vocabulary 3 true) (Some class_file_ok) in
  r.2 = true ∧
  m_classes r.1 = {[0; 1; 2]} ∧
  dom (m_mapWord2Class r.1) = {[EOS; "the"; "cat"; "dog"; "a"]}%string ∧
  ∃ c, m_mapWord2Class r.1 !! "cat"%string = Some c ∧ c ∈ m_classes r.1.
Proof.
  intros r.
  destruct (ReadClasses_success_frame 0 (empty_vocabulary 3 true) class_file_ok r.1)
    as (_ & _ & _ & _ & _ & _ & Hcls & Hdom & Hmem); [by vm_compute|].
  split; [by vm_compute|]. rewrite Hcls, Hdom.
  split; [simpl; set_solver|]. split; [simpl; set_solver|].
  rewrite <- Hcls. apply Hmem.
  - exists 2. split; [|lia]. by refine (bool_decide_unpack _ _).
  - by refine (bool_decide_unpack _ _).
Defined.

(** ** More on loading the vocabulary *)

Lemma span_length (p : ascii → bool) s :
  (String.length (span p s).1 ≤ String.length s)%nat.
Proof.
  induction s as [|c s IH]; simpl; [done|].
  destruct (p c); [|simpl; lia].
  destruct (span p s) as [x y]. simpl in *. lia.
Qed.

Lemma c_str_length s : (String.length (c_str s) ≤ String.length s)%nat.
Proof. apply span_length. Qed.

Lemma scan_d_in_range s z rest :
  scan_d s = Returns (Some z, rest) → Int.in_range z.
Proof.
  unfold scan_d. destruct (scan_int s) as [[z' rest']|]; [|done].
  destruct ((Int.INT_MIN <=? z') && (z' <=? Int.INT_MAX)) eqn:Hr; [|done].
  intros [= -> ->]. apply andb_true_iff in Hr as [?%Z.leb_le ?%Z.leb_le].
  by split.
Qed.

(** What the loop of the constructor has done when it ends: one entry
    for each round, and the two maps written as the loop over the
    vector in [SortVocabularyByFrequency] writes them. *)
Lemma load_rows_returns n : ∀ a fi storage w2i i2w st' rest,
  load_rows n a fi (storage, w2i, i2w) = Returns (st', rest) →
  ∃ l, st' = (storage ++ l, (rebuild_maps l a w2i i2w).1,
              (rebuild_maps l a w2i i2w).2) ∧
    length l = n ∧
    Forall (λ e, prob e = 0%float ∧ Int.in_range (cn e) ∧
                 Int.in_range (classIndex e) ∧
                 (String.length (word e) < 2048)%nat) l.
Proof.
  induction n as [|n IH]; intros a fi storage w2i i2w st' rest Hload.
  - injection Hload as <- <-. exists []. by rewrite (right_id [] (++)).
  - cbn [load_rows] in Hload.
    destruct (scan_d fi) as [[wordIndex fi1]| |] eqn:H1; [|done|done].
    cbn [mbind outcome_bind] in Hload.
    destruct wordIndex as [wordIndex|]; [|done].
    destruct (scan_d fi1) as [[wordCount fi2]| |] eqn:H2; [|done|done].
    cbn [mbind outcome_bind read_var] in Hload.
    destruct (Z.eqb_spec wordIndex a) as [->|]; [|done]. cbn [negb] in Hload.
    destruct wordCount as [wordCount|]; [|done].
    cbn [mbind outcome_bind read_var] in Hload.
    destruct (scan_token fi2) as [buffer fi3] eqn:H3.
    destruct (Nat.leb_spec 2048 (String.length buffer)) as [|Hlen]; [done|].
    destruct (scan_d fi3) as [[class fi4]| |] eqn:H4; [|done|done].
    cbn [mbind outcome_bind] in Hload.
    destruct class as [class|]; [|done].
    cbn [mbind outcome_bind read_var] in Hload.
    apply IH in Hload as (l & -> & Hl & Hall).
    exists (mkVocabWord (c_str buffer) 0%float wordCount class :: l).
    split; [by rewrite <- (assoc (++))|]. split; [simpl; lia|].
    constructor; [|done]. simpl.
    split; [done|]. split; [by eapply scan_d_in_range|].
    split; [by eapply scan_d_in_range|].
    pose proof (c_str_length buffer). lia.
Qed.

(** X19.  Whenever the constructor returns, whatever the stream held:
    the vector has [sizeVocabulary] entries, every [prob] is 0, every
    count and class is a value of an [int], every word is shorter than
    the buffer, the class maps and [m_classWords] are empty, the two
    index maps are those that the loop over the vector builds, and when
    no word stands twice they agree with the vector. *)
Theorem Vocabulary_of_FILE_returns numClasses useClassFile fi sizeVocabulary v rest :
  Vocabulary_of_FILE numClasses useClassFile fi sizeVocabulary = Returns (v, rest) →
  GetVocabularySize v = sizeVocabulary ∧
  Forall (λ e, prob e = 0%float ∧ Int.in_range (cn e) ∧
               Int.in_range (classIndex e) ∧
               (String.length (word e) < 2048)%nat) (m_vocabularyStorage v) ∧
  rebuild_maps (m_vocabularyStorage v) 0 ∅ ∅ = (m_mapWord2Index v, m_mapIndex2Word v) ∧
  (NoDup (words (m_vocabularyStorage v)) → maps_in_sync v) ∧
  m_mapWord2Class v = ∅ ∧ m_classes v = ∅ ∧ m_classWords v = [] ∧
  m_numClasses v = numClasses ∧ m_useClassFile v = useClassFile.
Proof.
  unfold Vocabulary_of_FILE. destruct (Z.ltb_spec sizeVocabulary 0) as [|Hsize]; [done|].
  destruct (load_rows _ 0 fi _) as [[[[storage w2i] i2w] rest']| |] eqn:Hload;
    [|done|done].
  cbn [mbind outcome_bind]. intros [= <- <-].
  apply load_rows_returns in Hload as (l & [= -> -> ->] & Hlen & Hall).
  cbn [m_vocabularyStorage m_mapWord2Index m_mapIndex2Word m_mapWord2Class
         m_classes m_classWords m_numClasses m_useClassFile app].
  assert (rebuild_maps l 0 ∅ ∅ = ((rebuild_maps l 0 ∅ ∅).1, (rebuild_maps l 0 ∅ ∅).2))
    as Hmaps by (by destruct (rebuild_maps l 0 ∅ ∅)).
  split; [unfold GetVocabularySize, vec_size; simpl; lia|]. split; [done|].
  split; [done|]. split; [|done].
  intros Hnd. by apply maps_in_sync_by_rebuild.
Qed.

Lemma Vocabulary_of_FILE_returns_witness :
  ∃ v rest, Vocabulary_of_FILE 2 false two_row_file 2 = Returns (v, rest) ∧
    words (m_vocabularyStorage v) = [EOS; "cat"%string] ∧
    counts (m_vocabularyStorage v) = [5; 3] ∧
    GetVocabularySize v = 2 ∧ maps_in_sync v.
Proof.
  assert (∃ v rest, Vocabulary_of_FILE 2 false two_row_file 2 = Returns (v, rest) ∧
            words (m_vocabularyStorage v) = [EOS; "cat"%string] ∧
            counts (m_vocabularyStorage v) = [5; 3]) as (v & rest & Hload & Hw & Hc).
  { eexists _, _. split; [vm_compute; reflexivity|]. by split. }
  exists v, rest. split; [done|]. split; [done|]. split; [done|].
  destruct (Vocabulary_of_FILE_returns 2 false two_row_file 2 v rest Hload)
    as (Hsize & _ & _ & Hsync & _).
  split; [done|]. apply Hsync. rewrite Hw.
  apply NoDup_cons. split; [|apply NoDup_singleton].
  by intros [=]%list_elem_of_singleton.
Defined.

(** X20.  A stream that holds the lines of fewer entries than
    [sizeVocabulary] asks for: after the last line the conversions find
    nothing, and the assertion reads an index that was never
    written. *)
Theorem Vocabulary_of_FILE_short_stream numClasses useClassFile storage sizeVocabulary :
  Forall storable storage →
  vec_size storage ≤ Int.INT_MAX →
  vec_size storage < sizeVocabulary →
  Vocabulary_of_FILE numClasses useClassFile (save_rows storage 0) sizeVocabulary
  = Undefined.
Proof.
  intros Hall Hmax Hshort. unfold Vocabulary_of_FILE, vec_size in *.
  destruct (Z.ltb_spec sizeVocabulary 0) as [|Hsize]; [done|].
  assert (∃ k, Z.to_nat sizeVocabulary = (length storage + S k)%nat) as [k ->].
  { exists (Z.to_nat sizeVocabulary - length storage - 1)%nat. lia. }
  assert (∀ l a st pre,
    string_forallb is_space pre = true → Forall storable l →
    0 ≤ a → a + Z.of_nat (length l) ≤ Int.INT_MAX + 1 →
    load_rows (length l + S k) a (pre +:+ save_rows l a) st = Undefined) as Hgen.
  { clear. induction l as [|e l IH]; intros a [[storage w2i] i2w] pre Hpre Hall Ha Hmax.
    - cbn [length Nat.add load_rows save_rows]. rewrite append_nil_r.
      assert (scan_int pre = None) as Hnone.
      { rewrite <- (append_nil_r pre), scan_int_blank by done. done. }
      unfold scan_d. by rewrite Hnone.
    - apply Forall_cons in Hall as [(Htok & Hcn & Hcls) Hall].
      destruct (is_token_spec _ Htok) as (_ & _ & Hcstr & Hlen).
      simpl length in *. cbn [Nat.add load_rows save_rows].
      unfold save_row. rewrite Hcstr, !append_assoc.
      rewrite scan_d_blank_print;
        [|done|unfold Int.in_range, Int.INT_MIN, Int.INT_MAX in *; lia|done].
      cbn [mbind outcome_bind].
      rewrite (scan_d_blank_print TAB) by done.
      cbn [mbind outcome_bind read_var]. rewrite Z.eqb_refl. cbn [negb].
      rewrite (scan_token_word (word e)) by done.
      destruct (Nat.leb_spec 2048 (String.length (word e))); [lia|].
      rewrite Hcstr.
      rewrite (scan_d_blank_print TAB 0) by done.
      cbn [mbind outcome_bind read_var].
      apply (IH (a + 1) _ LF); [done|done|lia|lia]. }
  pose proof (Hgen storage 0 ([], ∅, ∅) EmptyString eq_refl Hall) as Hload.
  change (EmptyString +:+ save_rows storage 0) with (save_rows storage 0) in Hload.
  rewrite Hload by lia. done.
Qed.

Lemma Vocabulary_of_FILE_short_stream_witness :
  Forall storable (m_vocabularyStorage unsorted_vocabulary) ∧
  vec_size (m_vocabularyStorage unsorted_vocabulary) = 4 ∧
  Vocabulary_of_FILE 0 false
    (save_rows (m_vocabularyStorage unsorted_vocabulary) 0) 5 = Undefined.
Proof.
  assert (Forall storable (m_vocabularyStorage unsorted_vocabulary)) as Hall.
  { repeat (constructor; [by vm_compute|]). constructor. }
  split; [exact Hall|]. split; [reflexivity|].
  apply (Vocabulary_of_FILE_short_stream 0 false _ 5 Hall).
  - vm_compute. discriminate.
  - vm_compute. reflexivity.
Defined.
